(** * PointCloudAnimation: graph construction, lifecycle and glow propagation

    A shallow embedding of [src/components/PointCloudAnimation.tsx].

    Conventions of the embedding.
    - JavaScript numbers are modelled by rationals ([Q]): every double is
      one.  Where a result of floating-point arithmetic is stored (vertex
      positions, colours) or floored (the start vertex and the cap of a
      pulse), and in the delay of the glow timer, each operation is
      followed by a rounding function that is a parameter of the model;
      comparisons are taken on the exact value, and so is the doubling of
      a draw, which is exact on doubles.  Array indices, counts and the
      traversal depth are natural numbers; a result that the source encodes as [-1]
      ("not found") is an [option].
    - [Math.random()] is a global stream of draws: the stream is a function
      [nat -> Q] and every state that draws carries a cursor into it.
    - Arrays are lists; [push] appends at the end; [arr[i]] is stdpp's
      lookup [arr !! i].  Reading a field of [undefined] raises a
      [TypeError], which the embedding makes an explicit outcome.
    - Shared mutable accumulators (the vertex and edge arrays of the
      builder, [nodesToGlow] and [edgesToGlow] of the traversal) are
      threaded as explicit state. *)

From Stdlib Require Import QArith Qround Qminmax Qabs Qpower Lqa ZArith Lia Bool.
From stdpp Require Import base list relations.

(** ** Numbers *)

Module Math.
Definition floor (q : Q) : Z := Qfloor q.
Definition max (a b : Q) : Q := Qmax a b.
(** [a > b] on numbers. *)
Definition gt (a b : Q) : bool := negb (Qle_bool a b).
(** [a < b] on numbers. *)
Definition lt (a b : Q) : bool := negb (Qle_bool b a).
End Math.

(** The k-th value returned by [Math.random()] since the page loaded. *)
Definition RandomSource := nat -> Q.

(** Every draw of [Math.random()] lies in [0, 1). *)
Definition unitDraws (rand : RandomSource) : Prop :=
  forall k, (0 <= rand k)%Q /\ (rand k < 1)%Q.

(** The finite doubles: [m * 2^e] with [|m| < 2^53] and
    [-1074 <= e <= 971]. *)
Definition representable (d : Q) : Prop :=
  exists m e : Z,
    (Z.abs m < 2 ^ 53)%Z /\ (-1074 <= e <= 971)%Z /\ (d == inject_Z m * 2 ^ e)%Q.

(** [fl] rounds to a nearest double, as the arithmetic of JavaScript does:
    no double is nearer to [x] than [fl x] is, for every [x] that does not
    overflow.  How ties are broken is left open. *)
Definition roundsToNearest (fl : Q -> Q) : Prop :=
  forall x d, (Qabs x <= inject_Z (2 ^ 1023))%Q -> representable d ->
    (Qabs (fl x - x) <= Qabs (d - x))%Q.

(** The largest double below 1, [1 - 2^-53]. *)
Definition belowOne : Q := 1 - (1 # 9007199254740992).

(** Every draw of [Math.random()] is a double in [0, 1), so it is at most
    [belowOne]. *)
Definition doubleDraws (rand : RandomSource) : Prop :=
  forall k, (0 <= rand k)%Q /\ (rand k <= belowOne)%Q.

(** The exponent of a positive number: [2^e <= a < 2^(e+1)]. *)
Definition binade (a : Q) : Z :=
  let e := (Z.log2 (Qnum a) - Z.log2 (Z.pos (Qden a)))%Z in
  if Qle_bool (2 ^ e) a then e else (e - 1)%Z.

(** The whole number nearest to [t], the even one of two equally near. *)
Definition roundHalfEven (t : Q) : Z :=
  let f := Qfloor t in
  match (t - inject_Z f ?= 1 # 2)%Q with
  | Lt => f
  | Gt => (f + 1)%Z
  | Eq => if Z.even f then f else (f + 1)%Z
  end.

(** A positive number rounded to 53 significant bits. *)
Definition roundPositive (a : Q) : Q :=
  let u := (2 ^ (binade a - 52))%Q in
  (inject_Z (roundHalfEven (a / u)) * u)%Q.

(** Rounding to the nearest double, ties to even, as IEEE 754 does it on
    numbers in the normal range of the doubles. *)
Definition roundDouble (x : Q) : Q :=
  match Qnum x with
  | Z0 => 0
  | Z.pos _ => roundPositive x
  | Z.neg _ => - roundPositive (- x)
  end.

(** The double written [0.7], and the largest but one double below 1,
    [1 - 2^-52]. *)
Definition double07 : Q := 3152519739159347 # 4503599627370496.
Definition nearlyOne : Q := 1 - (1 # 4503599627370496).

(** ** Data model (source lines 6-20) *)

Module Vector3.
Record t := mk { x : Q; y : Q; z : Q }.
End Vector3.

Module Color.
Record t := mk { r : Q; g : Q; b : Q }.
End Color.

Module Vertex.
Record t := mk {
  position : Vector3.t;
  targetPosition : Vector3.t;
  initialPosition : Vector3.t;
  connections : list nat;
  glowing : bool;
  glowIntensity : Q
}.
End Vertex.

Module Edge.
Record t := mk {
  from : nat;
  to : nat;
  glowing : bool;
  glowIntensity : Q
}.
End Edge.

Definition origin : Vector3.t := Vector3.mk 0 0 0.

(** Configuration (source lines 35-39). *)
Definition numVertices : nat := 50.
Definition numConnections : nat := 3.
Definition cloudRadius : Q := 5.
Definition circleRadius : Q := 4.
Definition formingDuration : Q := 15.

(** ** Array helpers *)

(** [arr.includes(x)] on an array of indices. *)
Fixpoint includes (arr : list nat) (x : nat) : bool :=
  match arr with
  | [] => false
  | a :: arr' => (a =? x) || includes arr' x
  end.

(** [arr.findIndex(p)]; [None] stands for the source's [-1]. *)
Fixpoint findIndex {A : Type} (p : A -> bool) (arr : list A) : option nat :=
  match arr with
  | [] => None
  | a :: arr' => if p a then Some 0 else S <$> findIndex p arr'
  end.

(** The predicate both edge searches use: the edge joins [a] and [b] in
    either orientation. *)
Definition joins (a b : nat) (edge : Edge.t) : bool :=
  ((Edge.from edge =? a) && (Edge.to edge =? b))
  || ((Edge.from edge =? b) && (Edge.to edge =? a)).

(** What running a piece of the program can end in. *)
Inductive outcome (A : Type) : Type :=
| Done (a : A)
| TypeError
| OutOfFuel.
Arguments Done {A} a.
Arguments TypeError {A}.
Arguments OutOfFuel {A}.

(** ** Glow propagator: cluster expansion (source lines 316-365) *)

Module Glow.

(** The accumulators captured by [addConnectedVertices], and the cursor
    of the random stream. *)
Record Sel := mkSel {
  nodesToGlow : list nat;
  edgesToGlow : list nat;
  cursor : nat
}.

Definition pushNode (i : nat) (st : Sel) : Sel :=
  mkSel (nodesToGlow st ++ [i]) (edgesToGlow st) (cursor st).

Definition pushEdge (e : nat) (st : Sel) : Sel :=
  mkSel (nodesToGlow st) (edgesToGlow st ++ [e]) (cursor st).

Definition random (rand : RandomSource) (st : Sel) : Q * Sel :=
  (rand (cursor st), mkSel (nodesToGlow st) (edgesToGlow st) (S (cursor st))).

(** The literal [0.7] of line 345. *)
Definition threshold : Q := 7 # 10.

Section Traversal.
Variable rand : RandomSource.
Variable vertices : list Vertex.t.
Variable edges : list Edge.t.
Variable maxGlowNodes : nat.

(** Lines 330-342: the neighbour is already selected. *)
Definition markSelected (index connectedIdx : nat) (st : Sel) : Sel :=
  match findIndex (joins index connectedIdx) edges with
  | Some edgeIndex =>
      if includes (edgesToGlow st) edgeIndex then st else pushEdge edgeIndex st
  | None => st
  end.

(** Lines 346-356: the neighbour is newly included. *)
Definition includeNeighbor (index connectedIdx : nat) (st : Sel) : Sel :=
  let st1 := pushNode connectedIdx st in
  match findIndex (joins index connectedIdx) edges with
  | Some edgeIndex => pushEdge edgeIndex st1
  | None => st1
  end.

(** Lines 329-362: the [for ... of vertex.connections] loop; [recur] is
    the recursive call of line 359. *)
Definition forConnections (recur : nat -> nat -> Sel -> outcome Sel)
    (index depth : nat) : list nat -> Sel -> outcome Sel :=
  fix loop (conns : list nat) (st : Sel) : outcome Sel :=
    match conns with
    | [] => Done st
    | connectedIdx :: rest =>
        if includes (nodesToGlow st) connectedIdx then
          loop rest (markSelected index connectedIdx st)
        else
          let (r, st1) := random rand st in
          if Math.gt r threshold then
            let st2 := includeNeighbor index connectedIdx st1 in
            if length (nodesToGlow st2) <? maxGlowNodes then
              match recur connectedIdx (depth + 1) st2 with
              | Done st3 => loop rest st3
              | TypeError => TypeError
              | OutOfFuel => OutOfFuel
              end
            else loop rest st2
          else loop rest st1
    end.

(** Lines 324-363.  [fuel] bounds the nesting of recursive calls. *)
Fixpoint addConnectedVertices (fuel : nat) (index depth : nat) (st : Sel)
    : outcome Sel :=
  match fuel with
  | 0 => OutOfFuel
  | S fuel' =>
      if (2 <? depth) || (maxGlowNodes <=? length (nodesToGlow st)) then Done st
      else
        match vertices !! index with
        | None => TypeError
        | Some vertex =>
            forConnections (addConnectedVertices fuel') index depth
              (Vertex.connections vertex) st
        end
  end.

(** Lines 318-319 and 365: the accumulators start as [[startIndex]] and
    [[]] and the expansion is entered at depth 0. *)
Definition expand (fuel : nat) (startIndex : nat) (cur : nat) : outcome Sel :=
  addConnectedVertices fuel startIndex 0 (mkSel [startIndex] [] cur).

End Traversal.

(** Line 317: [Math.floor(Math.random() * vertices.length)]; the product
    is a double, rounded by [fl], before it is floored. *)
Definition pickStart (fl : Q -> Q) (r : Q) (n : nat) : nat :=
  Z.to_nat (Math.floor (fl (r * inject_Z (Z.of_nat n))%Q)).

(** Line 322: [Math.floor(Math.random() * 10) + 5]; the product is rounded
    by [fl], the sum of two small whole numbers is exact. *)
Definition pickCap (fl : Q -> Q) (r : Q) : nat :=
  Z.to_nat (Math.floor (fl (r * 10)%Q) + 5).

(** Lines 316-365 of [startGlowingSection]: two draws, then the
    expansion. *)
Definition selectCluster (fl : Q -> Q) (rand : RandomSource) (vertices : list Vertex.t)
    (edges : list Edge.t) (fuel : nat) (cur : nat) : outcome Sel :=
  let startIndex := pickStart fl (rand cur) (length vertices) in
  let maxGlowNodes := pickCap fl (rand (S cur)) in
  expand rand vertices edges maxGlowNodes fuel startIndex (S (S cur)).

End Glow.

(** Lines 370-410 of [startGlowingSection]: one fade-in tween is started
    per element of [nodesToGlow] and per element of [edgesToGlow]; a tween is
    identified by the object it animates. *)
Inductive GlowTarget := VertexTarget (index : nat) | EdgeTarget (index : nat).

Definition startedFadeIns (st : Glow.Sel) : list GlowTarget :=
  (VertexTarget <$> Glow.nodesToGlow st) ++ (EdgeTarget <$> Glow.edgesToGlow st).

(** ** Graph builder (source lines 104-170) *)

Record Cloud := mkCloud {
  vertices : list Vertex.t;
  edges : list Edge.t
}.

Section Builder.
(** Rounding of an exact result to a double: every arithmetic operation of
    the source is one application of [fl]. *)
Variable fl : Q -> Q.
(** [THREE.Vector3.distanceTo], a function of the rendering library. *)
Variable distanceTo : Vector3.t -> Vector3.t -> Q.
Variable rand : RandomSource.

(** Lines 111-113: [(Math.random() - 0.5) * cloudRadius] and, for z,
    [(Math.random() - 0.5) * cloudRadius * 0.5]. *)
Definition spread (r : Q) : Q := fl (fl (r - (1 # 2)) * cloudRadius).
Definition spreadZ (r : Q) : Q := fl (spread r * (1 # 2)).

Definition randomPosition (cur : nat) : Vector3.t :=
  Vector3.mk (spread (rand cur)) (spread (rand (cur + 1))) (spreadZ (rand (cur + 2))).

(** Lines 116-123. *)
Definition newVertex (position : Vector3.t) : Vertex.t :=
  Vertex.mk position position position [] false 0.

(** Lines 108-124: the loop that creates the vertices, three draws each. *)
Fixpoint createVertices (n : nat) (cur : nat) (acc : list Vertex.t)
    : list Vertex.t * nat :=
  match n with
  | 0 => (acc, cur)
  | S n' => createVertices n' (cur + 3) (acc ++ [newVertex (randomPosition cur)])
  end.

(** [vertices[i].connections] and [vertices[i].position]; the loops below
    only read indices below [vertices.length]. *)
Definition connectionsAt (vs : list Vertex.t) (i : nat) : list nat :=
  from_option Vertex.connections [] (vs !! i).
Definition positionAt (vs : list Vertex.t) (i : nat) : Vector3.t :=
  from_option Vertex.position origin (vs !! i).

(** [dist < nearestDist], where [None] is the initial [Infinity]. *)
Definition closer (dist : Q) (nearestDist : option Q) : bool :=
  match nearestDist with
  | None => true
  | Some d => Math.lt dist d
  end.

(** Lines 137-145: one iteration of the search loop; the accumulator is
    [(nearestIdx, nearestDist)]. *)
Definition nearestStep (vs : list Vertex.t) (i : nat)
    (acc : option nat * option Q) (j : nat) : option nat * option Q :=
  if (i =? j) || includes (connectionsAt vs i) j then acc
  else
    let dist := distanceTo (positionAt vs i) (positionAt vs j) in
    if closer dist (snd acc) then (Some j, Some dist) else acc.

(** Lines 134-145. *)
Definition findNearest (vs : list Vertex.t) (i : nat) : option nat :=
  fst (foldl (nearestStep vs i) (None, None) (seq 0 (length vs))).

(** [vertices[i].connections.push(j)]. *)
Definition addConnection (j : nat) (v : Vertex.t) : Vertex.t :=
  Vertex.mk (Vertex.position v) (Vertex.targetPosition v) (Vertex.initialPosition v)
    (Vertex.connections v ++ [j]) (Vertex.glowing v) (Vertex.glowIntensity v).

(** Lines 133-165: the body of the [for c] loop. *)
Definition connectOnce (i : nat) (g : Cloud) : Cloud :=
  match findNearest (vertices g) i with
  | Some nearestIdx =>
      let vs1 := alter (addConnection nearestIdx) i (vertices g) in
      let vs2 := alter (addConnection i) nearestIdx vs1 in
      let edgeExists := existsb (joins i nearestIdx) (edges g) in
      mkCloud vs2
        (if edgeExists then edges g
         else edges g ++ [Edge.mk i nearestIdx false 0])
  | None => g
  end.

(** Line 130: [Math.floor(Math.random() * 2) + numConnections]. *)
Definition connectionsNeeded (r : Q) : nat :=
  Z.to_nat (Math.floor (r * 2) + Z.of_nat numConnections).

(** Lines 129-167: the body of the [for i] loop; the draw of vertex [i] is
    the [i]-th after the cursor [cur]. *)
Definition connectVertex (cur : nat) (g : Cloud) (i : nat) : Cloud :=
  Nat.iter (connectionsNeeded (rand (cur + i))) (connectOnce i) g.

Definition createEdges (cur : nat) (vs : list Vertex.t) : Cloud :=
  foldl (connectVertex cur) (mkCloud vs []) (seq 0 (length vs)).

(** Lines 104-170.  [sceneReady] is [sceneRef.current] being set; without
    a scene the builder returns before building anything. *)
Definition initializePointCloud (sceneReady : bool) (cur : nat) : option Cloud :=
  if sceneReady then
    let (vs, cur1) := createVertices numVertices cur [] in
    Some (createEdges cur1 vs)
  else None.

End Builder.

(** The neighbours recorded for vertex [i]. *)
Definition neighbours (g : Cloud) (i : nat) : list nat :=
  connectionsAt (vertices g) i.

(** Two edges have the same unordered pair of endpoints. *)
Definition samePair (e1 e2 : Edge.t) : Prop :=
  (Edge.from e1 = Edge.from e2 /\ Edge.to e1 = Edge.to e2)
  \/ (Edge.from e1 = Edge.to e2 /\ Edge.to e1 = Edge.from e2).

(** The ellipsoid with semi-axes [a], [a] and [c], centred at the origin. *)
Definition insideEllipsoid (a c : Q) (p : Vector3.t) : Prop :=
  ((Vector3.x p / a) * (Vector3.x p / a) + (Vector3.y p / a) * (Vector3.y p / a)
   + (Vector3.z p / c) * (Vector3.z p / c) <= 1)%Q.

(** An exact stand-in for [distanceTo] that orders pairs as the Euclidean
    distance does: the squared distance. *)
Definition distanceToSquared (p q : Vector3.t) : Q :=
  let dx := (Vector3.x p - Vector3.x q)%Q in
  let dy := (Vector3.y p - Vector3.y q)%Q in
  let dz := (Vector3.z p - Vector3.z q)%Q in
  (dx * dx + dy * dy + dz * dz)%Q.

(** ** Geometry projector: edges (source lines 224-260) *)

Section Projector.
(** Rounding to a double, and to the single precision of a
    [Float32Array] slot. *)
Variable fl : Q -> Q.
Variable fround : Q -> Q.
(** Lines 40-41: the two colours, built by the rendering library. *)
Variable mattColor : Color.t.
Variable glowColor : Color.t.

(** [THREE.Color.lerp]: [this.r += (color.r - this.r) * alpha], and the
    same for g and b. *)
Definition lerp (this color : Color.t) (alpha : Q) : Color.t :=
  Color.mk
    (fl (Color.r this + fl (fl (Color.r color - Color.r this) * alpha)))
    (fl (Color.g this + fl (fl (Color.g color - Color.g this) * alpha)))
    (fl (Color.b this + fl (fl (Color.b color - Color.b this) * alpha))).

(** [buffer[i] = v] on a [Float32Array]: the value is rounded to single
    precision and a write past the end is ignored. *)
Definition store (buffer : list Q) (i : nat) (v : Q) : list Q :=
  <[i := fround v]> buffer.

(** Lines 244-245: the interpolation factor of an edge endpoint. *)
Definition endpointFactor (vertex : Vertex.t) (edge : Edge.t) : Q :=
  Math.max (Vertex.glowIntensity vertex) (Edge.glowIntensity edge).

(** Lines 232-253: the body of [edges.forEach((edge, i) => ...)] on the
    pair of buffers [(positions, colors)]. *)
Definition projectEdge (vs : list Vertex.t) (buffers : list Q * list Q)
    (i : nat) (edge : Edge.t) : outcome (list Q * list Q) :=
  match vs !! Edge.from edge, vs !! Edge.to edge with
  | Some vertexFrom, Some vertexTo =>
      let positions := fst buffers in
      let colors := snd buffers in
      let positions := store positions (i * 6) (Vector3.x (Vertex.position vertexFrom)) in
      let positions := store positions (i * 6 + 1) (Vector3.y (Vertex.position vertexFrom)) in
      let positions := store positions (i * 6 + 2) (Vector3.z (Vertex.position vertexFrom)) in
      let positions := store positions (i * 6 + 3) (Vector3.x (Vertex.position vertexTo)) in
      let positions := store positions (i * 6 + 4) (Vector3.y (Vertex.position vertexTo)) in
      let positions := store positions (i * 6 + 5) (Vector3.z (Vertex.position vertexTo)) in
      let fromColor := lerp mattColor glowColor (endpointFactor vertexFrom edge) in
      let toColor := lerp mattColor glowColor (endpointFactor vertexTo edge) in
      let colors := store colors (i * 6) (Color.r fromColor) in
      let colors := store colors (i * 6 + 1) (Color.g fromColor) in
      let colors := store colors (i * 6 + 2) (Color.b fromColor) in
      let colors := store colors (i * 6 + 3) (Color.r toColor) in
      let colors := store colors (i * 6 + 4) (Color.g toColor) in
      let colors := store colors (i * 6 + 5) (Color.b toColor) in
      Done (positions, colors)
  | _, _ => TypeError
  end.

(** The six colour slots the body writes for one edge, before they are
    stored. *)
Definition endpointColors (vertexFrom vertexTo : Vertex.t) (edge : Edge.t) : list Q :=
  let fromColor := lerp mattColor glowColor (endpointFactor vertexFrom edge) in
  let toColor := lerp mattColor glowColor (endpointFactor vertexTo edge) in
  [Color.r fromColor; Color.g fromColor; Color.b fromColor;
   Color.r toColor; Color.g toColor; Color.b toColor].

(** [edges.forEach] from index [i] on. *)
Fixpoint forEachEdge (vs : list Vertex.t) (es : list Edge.t) (i : nat)
    (buffers : list Q * list Q) : outcome (list Q * list Q) :=
  match es with
  | [] => Done buffers
  | edge :: es' =>
      match projectEdge vs buffers i edge with
      | Done buffers' => forEachEdge vs es' (S i) buffers'
      | TypeError => TypeError
      | OutOfFuel => OutOfFuel
      end
  end.

(** Lines 224-254: the buffers handed to the geometry, positions first. *)
Definition updateLineGeometry (vs : list Vertex.t) (es : list Edge.t)
    : outcome (list Q * list Q) :=
  let positions := replicate (length es * 6) 0%Q in
  let colors := replicate (length es * 6) 0%Q in
  forEachEdge vs es 0 (positions, colors).

End Projector.

(** ** Lifecycle state machine (source lines 31, 83-86, 262-290) *)

Module Lifecycle.

Inductive Stage := initializing | forming | stable.

(** The callbacks the component registers with the host. *)
Inductive Callback :=
| formingTimeout               (* the [setTimeout] callback of lines 83-86 *)
| positionComplete (i : nat)   (* [onComplete] of the tween of vertex i, lines 283-287 *)
| glowTimeout                  (* the [setTimeout] callback of lines 295-298 *)
| animationFrame.              (* [animate], lines 413-449 *)

(** A registered callback with the time, in milliseconds, from which the
    host may run it. *)
Record Task := mkTask { due : Z; callback : Callback }.

Record World := mkWorld {
  now : Z;
  stageRef : Stage;
  pending : list Task;
  (** Every assignment to [stageRef.current] so far: when, by which
      callback, and the value written; oldest first. *)
  stageWrites : list (Z * Callback * Stage)
}.

Definition setStage (t : Z) (cb : Callback) (s : Stage) (w : World) : World :=
  mkWorld (now w) s (pending w) (stageWrites w ++ [(t, cb, s)]).

Definition schedule (task : Task) (w : World) : World :=
  mkWorld (now w) (stageRef w) (pending w ++ [task]) (stageWrites w).

(** [formingDuration] seconds, in milliseconds. *)
Definition formingMs : Z := Math.floor (formingDuration * 1000).

(** Lines 276-289: one tween per vertex, each completing
    [formingDuration] seconds after it is started. *)
Definition setCircleTargets (n : nat) (t : Z) (w : World) : World :=
  foldl (fun w i => schedule (mkTask (t + formingMs) (positionComplete i)) w)
    w (seq 0 n).

(** Running a callback at time [t] in a view of [n] vertices; [d] is the
    delay of the callback it registers itself (the random delay of line
    293, the time to the next frame). *)
Definition run (n : nat) (cb : Callback) (t d : Z) (w : World) : World :=
  match cb with
  | formingTimeout => setCircleTargets n t (setStage t cb forming w)
  | positionComplete i =>
    if (Z.of_nat i =? Z.of_nat n - 1)%Z then setStage t cb stable w else w
  | glowTimeout => schedule (mkTask (t + d) glowTimeout) w
  | animationFrame => schedule (mkTask (t + d) animationFrame) w
  end.

Definition legalDelay (cb : Callback) (d : Z) : Prop :=
  match cb with
  | glowTimeout => (2000 <= d < 5000)%Z
  | animationFrame => (0 < d)%Z
  | _ => True
  end.

Definition isGlowTimeout (task : Task) : bool :=
  match callback task with glowTimeout => true | _ => false end.

(** Lines 43-89 at time 0: [animate()] registers the next frame, the
    forming timer is set to 2000 ms and the first glow timer to [dGlow]. *)
Definition mount (dFrame dGlow : Z) : World :=
  mkWorld 0 initializing
    [mkTask dFrame animationFrame; mkTask 2000 formingTimeout; mkTask dGlow glowTimeout]
    [].

(** What the host can do next: run a pending callback that is due (in any
    order and at any later time), deliver a resize event, or unmount the
    view (lines 91-101: only the glow timer is cleared). *)
Inductive step (n : nat) : World -> World -> Prop :=
| step_fire w task t d before after :
    pending w = before ++ task :: after ->
    (now w <= t)%Z -> (due task <= t)%Z ->
    legalDelay (callback task) d ->
    step n w (run n (callback task) t d
                (mkWorld t (stageRef w) (before ++ after) (stageWrites w)))
| step_resize w t :
    (now w <= t)%Z ->
    step n w (mkWorld t (stageRef w) (pending w) (stageWrites w))
| step_unmount w t :
    (now w <= t)%Z ->
    step n w (mkWorld t (stageRef w)
                (List.filter (fun task => negb (isGlowTimeout task)) (pending w))
                (stageWrites w)).

(** The number of pending callbacks equal to [cb]. *)
Definition sameCallback (cb : Callback) (task : Task) : bool :=
  match cb, callback task with
  | formingTimeout, formingTimeout => true
  | positionComplete i, positionComplete j => i =? j
  | glowTimeout, glowTimeout => true
  | animationFrame, animationFrame => true
  | _, _ => false
  end.

Definition countPending (cb : Callback) (tasks : list Task) : nat :=
  length (List.filter (sameCallback cb) tasks).

(** The three phases of a view of [n] vertices. *)
Definition phaseInitializing (w : World) : Prop :=
  stageRef w = initializing /\ stageWrites w = []
  /\ countPending formingTimeout (pending w) = 1
  /\ (forall task, task ∈ pending w -> callback task = formingTimeout -> due task = 2000%Z)
  /\ (forall task i, task ∈ pending w -> callback task <> positionComplete i).

Definition phaseForming (n : nat) (w : World) : Prop :=
  exists t1 : Z,
    (2000 <= t1)%Z /\ stageRef w = forming
    /\ stageWrites w = [(t1, formingTimeout, forming)]
    /\ countPending formingTimeout (pending w) = 0
    /\ countPending (positionComplete (n - 1)) (pending w) = 1
    /\ (forall task i, task ∈ pending w -> callback task = positionComplete i ->
          due task = (t1 + formingMs)%Z).

Definition phaseStable (n : nat) (w : World) : Prop :=
  exists t1 t2 : Z,
    (2000 <= t1)%Z /\ (t1 + formingMs <= t2)%Z /\ stageRef w = stable
    /\ stageWrites w =
         [(t1, formingTimeout, forming); (t2, positionComplete (n - 1), stable)]
    /\ countPending formingTimeout (pending w) = 0
    /\ countPending (positionComplete (n - 1)) (pending w) = 0.

Definition phase (n : nat) (w : World) : Prop :=
  phaseInitializing w \/ phaseForming n w \/ phaseStable n w.

End Lifecycle.

(** ** Glow pulse on one vertex or edge (source lines 305-314, 370-410) *)

Module Pulse.

(** The two easing curves named in the source. *)
Inductive Ease := power2_out | power2_in.

(** The eased ratio at progress [p] of the tween's duration.  The
    tweening library's [power2] is the cubic curve ([power0] is linear,
    [power1] quadratic): [power2.out] is [1 - (1 - p)^3] and [power2.in] is
    [p^3]. *)
Definition ratio (e : Ease) (p : Q) : Q :=
  match e with
  | power2_out => 1 - (1 - p) * (1 - p) * (1 - p)
  | power2_in => p * p * p
  end.

(** The two [onComplete] callbacks: lines 378-387 start the fade-out, lines
    383-385 clear the flag. *)
Inductive Completion := thenFadeOut | thenClearGlowing.

(** A tween on [glowIntensity].  The tweening library reads the start
    value from the object when the tween first renders. *)
Record Tween := mkTween {
  startValue : option Q;
  endValue : Q;
  duration : Q;
  ease : Ease;
  onComplete : Completion
}.

(** The glow fields of a vertex or edge, with the tweens in flight on it. *)
Record Obj := mkObj {
  glowing : bool;
  glowIntensity : Q;
  tweens : list Tween
}.

Definition glowDuration : Q := 5 # 2.

Definition fadeIn : Tween := mkTween None 1 (glowDuration / 2) power2_out thenFadeOut.
Definition fadeOut : Tween := mkTween None 0 (glowDuration / 2) power2_in thenClearGlowing.

Inductive Event :=
| reset                      (* lines 306-314 of a later pulse *)
| select                     (* lines 371-388 (vertex) or 392-409 (edge) *)
| render (k : nat) (p : Q).  (* tween k renders at progress p of its duration *)

Definition complete (c : Completion) (o : Obj) : Obj :=
  match c with
  | thenFadeOut => mkObj (glowing o) (glowIntensity o) (tweens o ++ [fadeOut])
  | thenClearGlowing => mkObj false (glowIntensity o) (tweens o)
  end.

Definition step (o : Obj) (ev : Event) : Obj :=
  match ev with
  | reset => mkObj false 0 (tweens o)
  | select => mkObj true (glowIntensity o) (tweens o ++ [fadeIn])
  | render k p =>
      match tweens o !! k with
      | None => o
      | Some tw =>
          let s := default (glowIntensity o) (startValue tw) in
          let v := (s + (endValue tw - s) * ratio (ease tw) p)%Q in
          if Qeq_bool p 1 then
            complete (onComplete tw) (mkObj (glowing o) v (delete k (tweens o)))
          else
            mkObj (glowing o) v
              (<[k := mkTween (Some s) (endValue tw) (duration tw) (ease tw)
                        (onComplete tw)]> (tweens o))
      end
  end.

Definition legal (ev : Event) : Prop :=
  match ev with
  | render _ p => (0 <= p)%Q /\ (p <= 1)%Q
  | _ => True
  end.

(** Lines 116-123: a vertex (or edge) as the builder creates it. *)
Definition fresh : Obj := mkObj false 0 [].

Definition runEvents (evs : list Event) : Obj := foldl step fresh evs.

End Pulse.

(** A vertex that only carries its adjacency, for examples. *)
Definition vertexOf (conns : list nat) : Vertex.t :=
  Vertex.mk origin origin origin conns false 0.
Definition edgeOf (a b : nat) : Edge.t := Edge.mk a b false 0.

(** A fixed stream of draws in [0, 1) for examples. *)
Definition sampleDraws : RandomSource :=
  fun k => (inject_Z (Z.of_nat ((k * 37 + 11) mod 101)) / 101)%Q.


(** Every recorded neighbour is the index of a vertex. *)
Definition adjacencyInRange (vs : list Vertex.t) : Prop :=
  forall i v j, vs !! i = Some v -> j ∈ Vertex.connections v -> j < length vs.

(** What the expansion maintains: no index is listed twice, and an edge is
    only marked once both of its endpoints are selected. *)
Definition selectionOk (es : list Edge.t) (st : Glow.Sel) : Prop :=
  NoDup (Glow.nodesToGlow st) /\ NoDup (Glow.edgesToGlow st)
  /\ forall e, e ∈ Glow.edgesToGlow st ->
       exists edge, es !! e = Some edge
         /\ Edge.from edge ∈ Glow.nodesToGlow st /\ Edge.to edge ∈ Glow.nodesToGlow st.

(** What a call, or the loop, guarantees about the accumulators. *)
Definition preserves (es : list Edge.t) (run : Glow.Sel -> outcome Glow.Sel)
    (index : nat) : Prop :=
  forall st st',
    index ∈ Glow.nodesToGlow st -> selectionOk es st -> run st = Done st' ->
    selectionOk es st' /\ Glow.nodesToGlow st ⊆ Glow.nodesToGlow st'.

(** ** Example inputs *)

(** The square 0-1, 1-2, 2-3, 3-0.  Each vertex lists its two neighbours in
    one of the two possible orders. *)
Definition neighbourOrder (flip : bool) (a b : nat) : list nat :=
  if flip then [b; a] else [a; b].

Definition squareVertices (f0 f1 f2 f3 : bool) : list Vertex.t :=
  [vertexOf (neighbourOrder f0 1 3); vertexOf (neighbourOrder f1 0 2);
   vertexOf (neighbourOrder f2 1 3); vertexOf (neighbourOrder f3 2 0)].

Definition squareEdges : list Edge.t :=
  [edgeOf 0 1; edgeOf 1 2; edgeOf 2 3; edgeOf 3 0].

(** A source whose draws all exceed the threshold of line 345. *)
Definition alwaysInclude (rand : RandomSource) : Prop :=
  forall k, (Glow.threshold < rand k)%Q.

Definition highDraws : RandomSource := fun _ => 9 # 10.

(** A run of the page: [sampleDraws] feeds the builder (200 draws), the
    pulse then draws 0 for the start vertex, 0 for the cap, and 0.9 for
    every neighbour. *)
Definition pulseDraws : RandomSource :=
  fun k => if k <? 200 then sampleDraws k else if k <? 202 then 0%Q else 9 # 10.

Definition builtCloud : option Cloud :=
  initializePointCloud (fun q => q) distanceToSquared pulseDraws true 0.

(** The claim of C1 as the specification words it: a neighbour that is not
    yet selected is skipped exactly when the draw exceeds 0.7. *)
Definition skippedWhenDrawExceeds : Prop :=
  forall (rand : RandomSource) (vs : list Vertex.t) (es : list Edge.t)
         (cap fuel index depth c : nat) (st st' : Glow.Sel),
    c ∉ Glow.nodesToGlow st ->
    Glow.forConnections rand es cap (Glow.addConnectedVertices rand vs es cap fuel)
      index depth [c] st = Done st' ->
    (c ∉ Glow.nodesToGlow st' <-> (Glow.threshold < rand (Glow.cursor st))%Q).

(** The complete graph on [n] vertices: every vertex lists all the others,
    and there is one edge per pair. *)
Definition completeVertices (n : nat) : list Vertex.t :=
  (fun i => vertexOf (List.filter (fun j => negb (j =? i)) (seq 0 n))) <$> seq 0 n.

Definition completeEdges (n : nat) : list Edge.t :=
  i ← seq 0 n; (fun j => edgeOf i j) <$> seq (S i) (n - S i).

(** What the builder maintains while it adds connections: adjacency is
    irreflexive and symmetric, every edge joins two different vertices that
    list each other, and no unordered pair has two edges. *)
Definition symmetricAdjacency (g : Cloud) : Prop :=
  forall i j, j ∈ neighbours g i -> j <> i /\ i ∈ neighbours g j.

Definition edgesRecorded (g : Cloud) : Prop :=
  forall e, e ∈ edges g ->
    Edge.from e <> Edge.to e
    /\ Edge.to e ∈ neighbours g (Edge.from e)
    /\ Edge.from e ∈ neighbours g (Edge.to e).

Definition edgesDistinct (es : list Edge.t) : Prop :=
  forall k1 k2 e1 e2,
    es !! k1 = Some e1 -> es !! k2 = Some e2 -> samePair e1 e2 -> k1 = k2.

Definition cloudOk (g : Cloud) : Prop :=
  symmetricAdjacency g /\ edgesRecorded g /\ edgesDistinct (edges g).

(** Assumptions on the rounding of doubles: it is monotone, and it leaves
    the listed dyadic constants unchanged. *)
Definition monotone (fl : Q -> Q) : Prop :=
  forall a b, (a <= b)%Q -> (fl a <= fl b)%Q.

Definition exact (fl : Q -> Q) (q : Q) : Prop := (fl q == q)%Q.

Definition roundsLikeDouble (fl : Q -> Q) : Prop :=
  monotone fl
  /\ exact fl (1 # 2) /\ exact fl (- (1 # 2))
  /\ exact fl (5 # 2) /\ exact fl (- (5 # 2))
  /\ exact fl (5 # 4) /\ exact fl (- (5 # 4)).

(** A vertex still holds the position it was created with. *)
Definition placedAt (fl : Q -> Q) (rand : RandomSource) (v : Vertex.t) : Prop :=
  exists k, Vertex.initialPosition v = randomPosition fl rand k
            /\ Vertex.position v = Vertex.initialPosition v
            /\ Vertex.targetPosition v = Vertex.initialPosition v.

(** The two colours of lines 40-41 with the channels of their hex codes,
    for examples. *)
Definition sampleMatt : Color.t := Color.mk (138 # 255) (155 # 255) (168 # 255).
Definition sampleGlow : Color.t := Color.mk 1 (215 # 255) 0.

(** A run of the lifecycle: first frame after 16 ms, first glow timer after
    3000 ms; the forming timer fires at 2000 ms and the tween of the last
    vertex completes at 17000 ms. *)
Definition afterForming : Lifecycle.World :=
  Lifecycle.run numVertices Lifecycle.formingTimeout 2000 0
    (Lifecycle.mkWorld 2000 Lifecycle.initializing
       [Lifecycle.mkTask 16 Lifecycle.animationFrame;
        Lifecycle.mkTask 3000 Lifecycle.glowTimeout] []).

Definition afterStable : Lifecycle.World :=
  Lifecycle.run numVertices (Lifecycle.positionComplete 49) 17000 0
    (Lifecycle.mkWorld 17000 (Lifecycle.stageRef afterForming)
       (removelast (Lifecycle.pending afterForming) ++ [])
       (Lifecycle.stageWrites afterForming)).

(** What holds of the tweens in flight on a vertex or edge: recorded start
    values and end values lie in [0, 1], a tween that clears the flag
    when it completes ends at 0, and a tween that starts the fade-out when
    it completes ends at 1. *)
Definition tweenOk (tw : Pulse.Tween) : Prop :=
  (forall s, Pulse.startValue tw = Some s -> (0 <= s)%Q /\ (s <= 1)%Q)
  /\ (0 <= Pulse.endValue tw)%Q /\ (Pulse.endValue tw <= 1)%Q
  /\ (Pulse.onComplete tw = Pulse.thenClearGlowing -> (Pulse.endValue tw == 0)%Q)
  /\ (Pulse.onComplete tw = Pulse.thenFadeOut -> (Pulse.endValue tw == 1)%Q).

Definition glowOk (o : Pulse.Obj) : Prop :=
  ((0 <= Pulse.glowIntensity o)%Q /\ (Pulse.glowIntensity o <= 1)%Q)
  /\ Forall tweenOk (Pulse.tweens o).

(** One pulse on a fresh object, rendered half-way through the fade-in, at
    its end, and half-way through the fade-out. *)
Definition samplePulse : list Pulse.Event :=
  [Pulse.reset; Pulse.select; Pulse.render 0 (1 # 2); Pulse.render 0 1;
   Pulse.render 0 (1 # 2)].

(** ** Glow propagator: the whole trigger (source lines 301-410) *)

(** Lines 306-309 and 311-314: the glow fields are cleared. *)
Definition resetVertex (v : Vertex.t) : Vertex.t :=
  Vertex.mk (Vertex.position v) (Vertex.targetPosition v) (Vertex.initialPosition v)
    (Vertex.connections v) false 0.

Definition resetEdge (e : Edge.t) : Edge.t :=
  Edge.mk (Edge.from e) (Edge.to e) false 0.

(** Lines 372 and 393: [vertex.glowing = true], [edge.glowing = true]. *)
Definition glowVertex (v : Vertex.t) : Vertex.t :=
  Vertex.mk (Vertex.position v) (Vertex.targetPosition v) (Vertex.initialPosition v)
    (Vertex.connections v) true (Vertex.glowIntensity v).

Definition glowEdge (e : Edge.t) : Edge.t :=
  Edge.mk (Edge.from e) (Edge.to e) true (Edge.glowIntensity e).

(** [indices.forEach(index => { const x = arr[index]; x.glowing = true; ... })]:
    [mark] is the write to the element; writing a field of [arr[index]]
    when it is [undefined] raises. *)
Fixpoint forEachIndex {A : Type} (mark : A -> A) (arr : list A) (indices : list nat)
    : outcome (list A) :=
  match indices with
  | [] => Done arr
  | index :: rest =>
      match arr !! index with
      | None => TypeError
      | Some x => forEachIndex mark (<[index := mark x]> arr) rest
      end
  end.

(** Lines 370-373: [nodesToGlow.forEach]. *)
Definition markVertices (vs : list Vertex.t) (nodes : list nat)
    : outcome (list Vertex.t) :=
  forEachIndex glowVertex vs nodes.

(** Lines 391-394: [edgesToGlow.forEach]. *)
Definition markEdges (es : list Edge.t) (marked : list nat) : outcome (list Edge.t) :=
  forEachIndex glowEdge es marked.

(** Lines 301-410 up to the start of the tweens: the arrays as the trigger
    leaves them, and the selection whose fade-ins it starts. *)
Definition startGlowingSection (fl : Q -> Q) (rand : RandomSource) (fuel cur : nat)
    (g : Cloud) : outcome (Cloud * Glow.Sel) :=
  let vs := resetVertex <$> vertices g in
  let es := resetEdge <$> edges g in
  match Glow.selectCluster fl rand vs es fuel cur with
  | Done st =>
      match markVertices vs (Glow.nodesToGlow st) with
      | Done vs' =>
          match markEdges es (Glow.edgesToGlow st) with
          | Done es' => Done (mkCloud vs' es', st)
          | TypeError => TypeError
          | OutOfFuel => OutOfFuel
          end
      | TypeError => TypeError
      | OutOfFuel => OutOfFuel
      end
  | TypeError => TypeError
  | OutOfFuel => OutOfFuel
  end.

(** Line 293: [Math.random() * 3000 + 2000], in milliseconds; the product
    and the sum are doubles, each rounded by [fl]. *)
Definition randomDelay (fl : Q -> Q) (r : Q) : Q :=
  fl (fl (r * 3000)%Q + 2000)%Q.

(** [v] is reached from [seed] by following [k] recorded connections. *)
Inductive hops (vs : list Vertex.t) (seed : nat) : nat -> nat -> Prop :=
| hops_seed : hops vs seed 0 seed
| hops_next k u vertex v :
    hops vs seed k u -> vs !! u = Some vertex -> v ∈ Vertex.connections vertex ->
    hops vs seed (S k) v.

Definition withinHops (vs : list Vertex.t) (seed k v : nat) : Prop :=
  exists j, j <= k /\ hops vs seed j v.

(** Every recorded connection has an edge in the edge array. *)
Definition everyConnectionHasEdge (vs : list Vertex.t) (es : list Edge.t) : Prop :=
  forall i vertex j,
    vs !! i = Some vertex -> j ∈ Vertex.connections vertex ->
    existsb (joins i j) es = true.

(** No vertex lists more than [d] neighbours. *)
Definition degreeAtMost (d : nat) (vs : list Vertex.t) : Prop :=
  forall v, v ∈ vs -> length (Vertex.connections v) <= d.

(** No draw exceeds the threshold of line 345. *)
Definition neverInclude (rand : RandomSource) : Prop :=
  forall k, (rand k <= Glow.threshold)%Q.

Definition lowDraws : RandomSource := fun _ => 1 # 10.

(** The number of connections vertex [i] has. *)
Definition degree (g : Cloud) (i : nat) : nat := length (neighbours g i).

(** ** Geometry projector: points (source lines 202-222) *)

Section PointProjector.
Variable fl : Q -> Q.
Variable fround : Q -> Q.
Variable mattColor : Color.t.
Variable glowColor : Color.t.

(** Lines 208-215: the body of [vertices.forEach((vertex, i) => ...)]. *)
Definition projectVertex (buffers : list Q * list Q) (i : nat) (vertex : Vertex.t)
    : list Q * list Q :=
  let positions := fst buffers in
  let colors := snd buffers in
  let positions := store fround positions (i * 3) (Vector3.x (Vertex.position vertex)) in
  let positions := store fround positions (i * 3 + 1) (Vector3.y (Vertex.position vertex)) in
  let positions := store fround positions (i * 3 + 2) (Vector3.z (Vertex.position vertex)) in
  let color := lerp fl mattColor glowColor (Vertex.glowIntensity vertex) in
  let colors := store fround colors (i * 3) (Color.r color) in
  let colors := store fround colors (i * 3 + 1) (Color.g color) in
  let colors := store fround colors (i * 3 + 2) (Color.b color) in
  (positions, colors).

Fixpoint forEachVertex (vs : list Vertex.t) (i : nat) (buffers : list Q * list Q)
    : list Q * list Q :=
  match vs with
  | [] => buffers
  | vertex :: vs' => forEachVertex vs' (S i) (projectVertex buffers i vertex)
  end.

(** Lines 202-216: the buffers handed to the geometry, positions first. *)
Definition updatePointGeometry (vs : list Vertex.t) : list Q * list Q :=
  let positions := replicate (length vs * 3) 0%Q in
  let colors := replicate (length vs * 3) 0%Q in
  forEachVertex vs 0 (positions, colors).

End PointProjector.

(** ** Simulation loop: per-frame motion (source lines 413-440) *)

Section Motion.
Variable fl : Q -> Q.
Variable rand : RandomSource.

(** [THREE.Vector3.lerp]: [this.x += (v.x - this.x) * alpha], and the same
    for y and z. *)
Definition lerpVector (this v : Vector3.t) (alpha : Q) : Vector3.t :=
  Vector3.mk
    (fl (Vector3.x this + fl (fl (Vector3.x v - Vector3.x this) * alpha)))
    (fl (Vector3.y this + fl (fl (Vector3.y v - Vector3.y this) * alpha)))
    (fl (Vector3.z this + fl (fl (Vector3.z v - Vector3.z this) * alpha))).

(** Lines 423-425 and 433-435: [position.x += (Math.random() - 0.5) * sxy]
    and likewise for y, and for z with [sz]; three draws from [cur] on. *)
Definition jitter (p : Vector3.t) (cur : nat) (sxy sz : Q) : Vector3.t :=
  Vector3.mk
    (fl (Vector3.x p + fl (fl (rand cur - (1 # 2)) * sxy)))
    (fl (Vector3.y p + fl (fl (rand (cur + 1) - (1 # 2)) * sxy)))
    (fl (Vector3.z p + fl (fl (rand (cur + 2) - (1 # 2)) * sz))).

Definition setPosition (v : Vertex.t) (p : Vector3.t) : Vertex.t :=
  Vertex.mk p (Vertex.targetPosition v) (Vertex.initialPosition v)
    (Vertex.connections v) (Vertex.glowing v) (Vertex.glowIntensity v).

(** Lines 422-429 and 432-439: what a frame does to one vertex. *)
Definition moveVertex (stage : Lifecycle.Stage) (cur : nat) (v : Vertex.t) : Vertex.t :=
  match stage with
  | Lifecycle.stable =>
      setPosition v
        (lerpVector (jitter (Vertex.position v) cur (5 # 1000) (2 # 1000))
           (Vertex.targetPosition v) (3 # 100))
  | Lifecycle.initializing =>
      setPosition v
        (lerpVector (jitter (Vertex.position v) cur (3 # 100) (1 # 100))
           (Vertex.initialPosition v) (2 # 100))
  | Lifecycle.forming => v
  end.

Definition drawsPerVertex (stage : Lifecycle.Stage) : nat :=
  match stage with
  | Lifecycle.forming => 0
  | _ => 3
  end.

(** [vertices.forEach] of lines 422 and 432, from cursor [cur]. *)
Fixpoint moveVertices (stage : Lifecycle.Stage) (cur : nat) (vs : list Vertex.t)
    : list Vertex.t * nat :=
  match vs with
  | [] => ([], cur)
  | v :: vs' =>
      let (moved, cur') := moveVertices stage (cur + drawsPerVertex stage) vs' in
      (moveVertex stage cur v :: moved, cur')
  end.

(** Lines 416-440 of [animate]: [refsReady] is the scene, the camera and
    the renderer all being set. *)
Definition animate (refsReady : bool) (stage : Lifecycle.Stage) (cur : nat)
    (vs : list Vertex.t) : list Vertex.t * nat :=
  if refsReady then moveVertices stage cur vs else (vs, cur).

(** [k] frames in a row in the same stage. *)
Fixpoint animateFrames (k : nat) (stage : Lifecycle.Stage) (cur : nat)
    (vs : list Vertex.t) : list Vertex.t * nat :=
  match k with
  | 0 => (vs, cur)
  | S k' =>
      let (vs', cur') := animate true stage cur vs in
      animateFrames k' stage cur' vs'
  end.

End Motion.

(** Each coordinate of [p] is within [bxy] (x and y) or [bz] (z) of the
    same coordinate of [q]. *)
Definition nearby (bxy bz : Q) (p q : Vector3.t) : Prop :=
  (Vector3.x q - bxy <= Vector3.x p)%Q /\ (Vector3.x p <= Vector3.x q + bxy)%Q
  /\ (Vector3.y q - bxy <= Vector3.y p)%Q /\ (Vector3.y p <= Vector3.y q + bxy)%Q
  /\ (Vector3.z q - bz <= Vector3.z p)%Q /\ (Vector3.z p <= Vector3.z q + bz)%Q.

(** Arithmetic without rounding. *)
Definition exactArithmetic (fl : Q -> Q) : Prop := forall q, fl q = q.

(** ** Lifecycle: the circle targets (source lines 262-273) *)

Section CircleTargets.
Variable fl : Q -> Q.
(** [Math.cos], [Math.sin] and [Math.PI]. *)
Variable cos : Q -> Q.
Variable sin : Q -> Q.
Variable PI : Q.
Variable rand : RandomSource.

(** Lines 267-270 for vertex [i] of [n], with the draw [r]. *)
Definition circleTarget (n i : nat) (r : Q) : Vector3.t :=
  let angle :=
    fl (fl (fl (inject_Z (Z.of_nat i) / inject_Z (Z.of_nat n)) * PI) * 2) in
  Vector3.mk (fl (cos angle * circleRadius)) (fl (sin angle * circleRadius))
    (fl (fl (r - (1 # 2)) * (1 # 2))).

Definition setTarget (v : Vertex.t) (p : Vector3.t) : Vertex.t :=
  Vertex.mk (Vertex.position v) p (Vertex.initialPosition v)
    (Vertex.connections v) (Vertex.glowing v) (Vertex.glowIntensity v).

(** Lines 265-273: the first [vertices.forEach] of [setCircleTargets], from
    index [i] and cursor [cur]; [n] is [vertices.length]. *)
Fixpoint assignTargetsFrom (n i cur : nat) (vs : list Vertex.t) : list Vertex.t :=
  match vs with
  | [] => []
  | v :: vs' =>
      setTarget v (circleTarget n i (rand cur)) :: assignTargetsFrom n (S i) (S cur) vs'
  end.

Definition assignCircleTargets (cur : nat) (vs : list Vertex.t) : list Vertex.t :=
  assignTargetsFrom (length vs) 0 cur vs.

End CircleTargets.

(** Assumptions on the rounding used for the circle targets. *)
Definition roundsCircle (fl : Q -> Q) : Prop :=
  monotone fl
  /\ exact fl 4 /\ exact fl (- 4)
  /\ exact fl (1 # 2) /\ exact fl (- (1 # 2))
  /\ exact fl (1 # 4) /\ exact fl (- (1 # 4)).

Definition unitRange (f : Q -> Q) : Prop :=
  forall a, (- 1 <= f a)%Q /\ (f a <= 1)%Q.

(** The sum of the degrees of all vertices. *)
Definition degreeSum (vs : list Vertex.t) : nat :=
  sum_list_with (fun v => length (Vertex.connections v)) vs.

(** More of what the builder maintains: no neighbour is listed twice,
    neighbours are indices of vertices, every connection has its edge, and
    the edges are counted twice by the degrees. *)
Definition cloudComplete (g : Cloud) : Prop :=
  (forall a, NoDup (neighbours g a))
  /\ (forall a b, b ∈ neighbours g a -> b < length (vertices g))
  /\ (forall a b, b ∈ neighbours g a -> existsb (joins a b) (edges g) = true)
  /\ degreeSum (vertices g) = 2 * length (edges g).

(** What the builder keeps while it runs on [n] vertices. *)
Definition building (n : nat) (g : Cloud) : Prop :=
  cloudOk g /\ cloudComplete g /\ length (vertices g) = n.

(** A stream of draws in [0, 1) with denominators 64. *)
Definition dyadicDraws : RandomSource :=
  fun k => (inject_Z (Z.of_nat ((k * 37 + 11) mod 64)) / 64)%Q.

(** The graph the builder produces from [dyadicDraws]. *)
Definition builtGraph : Cloud :=
  Eval vm_compute in
    match initializePointCloud (fun q => q) distanceToSquared dyadicDraws true 0 with
    | Some g => g
    | None => mkCloud [] []
    end.

(** Both endpoints of an edge are indices of vertices. *)
Definition endpointsInRange (vs : list Vertex.t) (edge : Edge.t) : Prop :=
  Edge.from edge < length vs /\ Edge.to edge < length vs.

(** [x] lies between [a] and [b], whichever is larger. *)
Definition liesBetween (x a b : Q) : Prop :=
  ((a <= x)%Q /\ (x <= b)%Q) \/ ((b <= x)%Q /\ (x <= a)%Q).

(** The three position slots and the three colour slots the projector of
    the points writes for a vertex, before they are stored. *)
Definition vertexSlots (fl : Q -> Q) (mattColor glowColor : Color.t) (vertex : Vertex.t)
    : list Q * list Q :=
  ([Vector3.x (Vertex.position vertex); Vector3.y (Vertex.position vertex);
    Vector3.z (Vertex.position vertex)],
   let color := lerp fl mattColor glowColor (Vertex.glowIntensity vertex) in
   [Color.r color; Color.g color; Color.b color]).

(** The world right after the view is unmounted at time [t] (the cleanup of
    lines 91-101). *)
Definition unmounted (t : Z) (w : Lifecycle.World) : Lifecycle.World :=
  Lifecycle.mkWorld t (Lifecycle.stageRef w)
    (List.filter (fun task => negb (Lifecycle.isGlowTimeout task)) (Lifecycle.pending w))
    (Lifecycle.stageWrites w).

(** * Properties *)

(** ** Array helpers *)

Lemma includes_spec (arr : list nat) (x : nat) :
  includes arr x = true <-> x ∈ arr.
Proof.
  induction arr as [|a arr IH]; simpl.
  - split; [discriminate | intros H; inversion H].
  - rewrite orb_true_iff, IH, Nat.eqb_eq, elem_of_cons. intuition congruence.
Qed.

Lemma includes_false (arr : list nat) (x : nat) :
  includes arr x = false <-> x ∉ arr.
Proof.
  rewrite <- includes_spec. destruct (includes arr x); intuition congruence.
Qed.

Lemma findIndex_Some {A : Type} (p : A -> bool) (arr : list A) (i : nat) :
  findIndex p arr = Some i -> exists a, arr !! i = Some a /\ p a = true.
Proof.
  revert i. induction arr as [|a arr IH]; simpl; intros i H; [discriminate|].
  destruct (p a) eqn:Hp.
  - inversion H; subst. exists a. auto.
  - destruct (findIndex p arr) as [k|]; simpl in H; [|discriminate].
    inversion H; subst. simpl. apply IH. reflexivity.
Qed.

Lemma joins_spec (a b : nat) (edge : Edge.t) :
  joins a b edge = true ->
  (Edge.from edge = a /\ Edge.to edge = b) \/ (Edge.from edge = b /\ Edge.to edge = a).
Proof.
  unfold joins. rewrite orb_true_iff, !andb_true_iff, !Nat.eqb_eq. tauto.
Qed.

Lemma gt_spec (a b : Q) : Math.gt a b = true <-> (b < a)%Q.
Proof.
  unfold Math.gt. rewrite negb_true_iff. split.
  - intros H. apply Qnot_le_lt. intros Hle. apply Qle_bool_iff in Hle. congruence.
  - intros H. destruct (Qle_bool a b) eqn:E; [|reflexivity].
    apply Qle_bool_iff in E. exfalso. exact (Qlt_not_le _ _ H E).
Qed.

Lemma gt_false (a b : Q) : Math.gt a b = false <-> (a <= b)%Q.
Proof.
  unfold Math.gt. rewrite negb_false_iff. apply Qle_bool_iff.
Qed.

Lemma lt_spec (a b : Q) : Math.lt a b = true <-> (a < b)%Q.
Proof. apply (gt_spec b a). Qed.

(** ** Glow propagator: termination of the expansion *)

Section TraversalFacts.
Variable rand : RandomSource.
Variable vs : list Vertex.t.
Variable es : list Edge.t.
Variable cap : nat.

Let acv := Glow.addConnectedVertices rand vs es cap.
Let loop := Glow.forConnections rand es cap.

Lemma forConnections_ext (rec1 rec2 : nat -> nat -> Glow.Sel -> outcome Glow.Sel)
    (index depth : nat) :
  (forall i st, rec1 i (depth + 1) st = rec2 i (depth + 1) st) ->
  forall conns st, loop rec1 index depth conns st = loop rec2 index depth conns st.
Proof.
  intros Hrec conns. induction conns as [|c rest IH]; intros st; simpl; [reflexivity|].
  destruct (includes (Glow.nodesToGlow st) c); [apply IH|].
  destruct (Math.gt (rand (Glow.cursor st)) Glow.threshold); [|apply IH].
  match goal with |- context [Nat.ltb ?a ?b] => destruct (Nat.ltb a b) end; [|apply IH].
  rewrite Hrec.
  match goal with |- context [rec2 ?a ?b ?c] => destruct (rec2 a b c) end;
    [apply IH | reflexivity | reflexivity].
Qed.

Lemma forConnections_fuelled (rec : nat -> nat -> Glow.Sel -> outcome Glow.Sel)
    (index depth : nat) :
  (forall i st, rec i (depth + 1) st <> OutOfFuel) ->
  forall conns st, loop rec index depth conns st <> OutOfFuel.
Proof.
  intros Hrec conns. induction conns as [|c rest IH]; intros st; simpl; [discriminate|].
  destruct (includes (Glow.nodesToGlow st) c); [apply IH|].
  destruct (Math.gt (rand (Glow.cursor st)) Glow.threshold); [|apply IH].
  match goal with |- context [Nat.ltb ?a ?b] => destruct (Nat.ltb a b) end; [|apply IH].
  match goal with |- context [rec ?a ?b ?c] =>
    pose proof (Hrec a c) as Hne; destruct (rec a b c) end;
    [apply IH | discriminate | congruence].
Qed.

(** A call at depth [d] nests at most [3 - d] further calls. *)
Lemma addConnectedVertices_fuel_irrelevant (f1 : nat) :
  forall f2 depth index st,
    3 - depth < f1 -> 3 - depth < f2 ->
    acv f1 index depth st = acv f2 index depth st.
Proof.
  induction f1 as [|f1 IH]; intros f2 depth index st H1 H2; [lia|].
  destruct f2 as [|f2]; [lia|]. simpl.
  destruct (2 <? depth) eqn:Hd; simpl; [reflexivity|].
  destruct (cap <=? length (Glow.nodesToGlow st)); [reflexivity|].
  destruct (vs !! index) as [vertex|]; [|reflexivity].
  apply Nat.ltb_ge in Hd.
  apply forConnections_ext. intros i st'. apply IH; lia.
Qed.

Lemma addConnectedVertices_fuelled (fuel : nat) :
  forall depth index st, 3 - depth < fuel -> acv fuel index depth st <> OutOfFuel.
Proof.
  induction fuel as [|fuel IH]; intros depth index st H; [lia|]. simpl.
  destruct (2 <? depth) eqn:Hd; simpl; [discriminate|].
  destruct (cap <=? length (Glow.nodesToGlow st)); [discriminate|].
  destruct (vs !! index) as [vertex|]; [|discriminate].
  apply Nat.ltb_ge in Hd.
  apply forConnections_fuelled. intros i st'. apply IH. lia.
Qed.

End TraversalFacts.


Section SelectionFacts.
Variable rand : RandomSource.
Variable vs : list Vertex.t.
Variable es : list Edge.t.
Variable cap : nat.

Let acv := Glow.addConnectedVertices rand vs es cap.
Let loop := Glow.forConnections rand es cap.

Lemma forConnections_total (rec : nat -> nat -> Glow.Sel -> outcome Glow.Sel)
    (index depth : nat) :
  (forall i st, i < length vs -> exists st', rec i (depth + 1) st = Done st') ->
  forall conns, (forall j, j ∈ conns -> j < length vs) ->
  forall st, exists st', loop rec index depth conns st = Done st'.
Proof.
  intros Hrec conns. induction conns as [|c rest IH]; intros Hrange st; simpl; [eauto|].
  assert (Hrest : forall j, j ∈ rest -> j < length vs)
    by (intros j Hj; apply Hrange; right; exact Hj).
  specialize (IH Hrest).
  destruct (includes (Glow.nodesToGlow st) c); [apply IH|].
  destruct (Math.gt (rand (Glow.cursor st)) Glow.threshold); [|apply IH].
  match goal with |- context [Nat.ltb ?a ?b] => destruct (Nat.ltb a b) end; [|apply IH].
  match goal with |- context [rec ?a ?b ?c] =>
    destruct (Hrec a c) as [st' Hst'] end.
  - apply Hrange. left.
  - rewrite Hst'. apply IH.
Qed.

Lemma addConnectedVertices_total (Hwf : adjacencyInRange vs) (fuel : nat) :
  forall depth index st,
    3 - depth < fuel -> index < length vs ->
    exists st', acv fuel index depth st = Done st'.
Proof.
  induction fuel as [|fuel IH]; intros depth index st H Hi; [lia|]. simpl.
  destruct (2 <? depth) eqn:Hd; simpl; [eauto|].
  destruct (cap <=? length (Glow.nodesToGlow st)); [eauto|].
  destruct (vs !! index) as [vertex|] eqn:Hv.
  - apply Nat.ltb_ge in Hd. apply forConnections_total.
    + intros i st' Hlt. apply IH; [lia | exact Hlt].
    + intros j Hj. exact (Hwf index vertex j Hv Hj).
  - apply lookup_ge_None in Hv. lia.
Qed.

Lemma selectionOk_random (st : Glow.Sel) :
  selectionOk es st -> selectionOk es (snd (Glow.random rand st)).
Proof. intros H. exact H. Qed.

Lemma selectionOk_markSelected (index c : nat) (st : Glow.Sel) :
  index ∈ Glow.nodesToGlow st -> c ∈ Glow.nodesToGlow st ->
  selectionOk es st ->
  selectionOk es (Glow.markSelected es index c st)
  /\ Glow.nodesToGlow (Glow.markSelected es index c st) = Glow.nodesToGlow st.
Proof.
  intros Hi Hc (Hn & He & Hends). unfold Glow.markSelected.
  destruct (findIndex (joins index c) es) as [e|] eqn:Hfind; [|repeat split; auto].
  destruct (includes (Glow.edgesToGlow st) e) eqn:Hin; [repeat split; auto|].
  apply includes_false in Hin.
  apply findIndex_Some in Hfind as (edge & Hedge & Hj).
  apply joins_spec in Hj.
  split; [|reflexivity]. repeat split; simpl.
  - exact Hn.
  - apply NoDup_app. repeat split; [exact He | | apply NoDup_singleton].
    intros y Hy Hy'. apply list_elem_of_singleton in Hy'. subst. contradiction.
  - intros e' He'. apply elem_of_app in He' as [He'|He'].
    + exact (Hends e' He').
    + apply list_elem_of_singleton in He'. subst e'. exists edge.
      split; [exact Hedge|]. destruct Hj as [[-> ->]|[-> ->]]; auto.
Qed.

Lemma selectionOk_includeNeighbor (index c : nat) (st : Glow.Sel) :
  index ∈ Glow.nodesToGlow st -> c ∉ Glow.nodesToGlow st ->
  selectionOk es st ->
  selectionOk es (Glow.includeNeighbor es index c st)
  /\ Glow.nodesToGlow (Glow.includeNeighbor es index c st) = Glow.nodesToGlow st ++ [c].
Proof.
  intros Hi Hc (Hn & He & Hends). unfold Glow.includeNeighbor.
  assert (Hn' : NoDup (Glow.nodesToGlow st ++ [c])).
  { apply NoDup_app. repeat split; [exact Hn | | apply NoDup_singleton].
    intros y Hy Hy'. apply list_elem_of_singleton in Hy'. subst. contradiction. }
  assert (Hends' : forall e, e ∈ Glow.edgesToGlow st ->
            exists edge, es !! e = Some edge
              /\ Edge.from edge ∈ Glow.nodesToGlow st ++ [c]
              /\ Edge.to edge ∈ Glow.nodesToGlow st ++ [c]).
  { intros e Hin. destruct (Hends e Hin) as (edge & ? & ? & ?).
    exists edge. rewrite !elem_of_app. auto. }
  destruct (findIndex (joins index c) es) as [e|] eqn:Hfind.
  2: { split; [|reflexivity]. repeat split; simpl; auto. }
  apply findIndex_Some in Hfind as (edge & Hedge & Hj).
  apply joins_spec in Hj.
  split; [|reflexivity]. repeat split; simpl.
  - exact Hn'.
  - apply NoDup_app. repeat split; [exact He | | apply NoDup_singleton].
    intros y Hy Hy'. apply list_elem_of_singleton in Hy'. subst y.
    destruct (Hends e Hy) as (edge' & Hedge' & Hf & Ht).
    rewrite Hedge in Hedge'. inversion Hedge'; subst edge'.
    destruct Hj as [[_ Hto]|[Hfrom _]]; subst c; contradiction.
  - intros e' He'. apply elem_of_app in He' as [He'|He'].
    + exact (Hends' e' He').
    + apply list_elem_of_singleton in He'. subst e'. exists edge.
      split; [exact Hedge|]. rewrite !elem_of_app, !list_elem_of_singleton.
      destruct Hj as [[-> ->]|[-> ->]]; auto.
Qed.


Lemma forConnections_preserves (rec : nat -> nat -> Glow.Sel -> outcome Glow.Sel)
    (index depth : nat) :
  (forall i, preserves es (rec i (depth + 1)) i) ->
  forall conns, preserves es (loop rec index depth conns) index.
Proof.
  intros Hrec conns. induction conns as [|c rest IH]; intros st st' Hi Hok Hrun.
  - simpl in Hrun. inversion Hrun; subst. split; [exact Hok | reflexivity].
  - simpl in Hrun. destruct (includes (Glow.nodesToGlow st) c) eqn:Hc.
    + apply includes_spec in Hc.
      destruct (selectionOk_markSelected index c st Hi Hc Hok) as [Hok1 Hnodes].
      destruct (IH _ st' ltac:(rewrite Hnodes; exact Hi) Hok1 Hrun) as [Hok' Hsub].
      split; [exact Hok'|]. rewrite <- Hnodes. exact Hsub.
    + apply includes_false in Hc.
      destruct (Math.gt (rand (Glow.cursor st)) Glow.threshold).
      2: { exact (IH (snd (Glow.random rand st)) st' Hi Hok Hrun). }
      destruct (selectionOk_includeNeighbor index c (snd (Glow.random rand st))
                  Hi Hc (selectionOk_random st Hok))
        as [Hok1 Hnodes0].
      change (snd (Glow.random rand st))
        with (Glow.mkSel (Glow.nodesToGlow st) (Glow.edgesToGlow st) (S (Glow.cursor st)))
        in Hok1, Hnodes0.
      set (st2 := Glow.includeNeighbor es index c _) in *.
      assert (Hnodes : Glow.nodesToGlow st2 = Glow.nodesToGlow st ++ [c]) by exact Hnodes0.
      clear Hnodes0.
      assert (Hi2 : index ∈ Glow.nodesToGlow st2)
        by (rewrite Hnodes, elem_of_app; auto).
      assert (Hsub2 : Glow.nodesToGlow st ⊆ Glow.nodesToGlow st2)
        by (rewrite Hnodes; intros y Hy; rewrite elem_of_app; auto).
      destruct (length (Glow.nodesToGlow st2) <? cap).
      * destruct (rec c (depth + 1) st2) as [st3| |] eqn:Hcall; try discriminate.
        assert (Hc2 : c ∈ Glow.nodesToGlow st2)
          by (rewrite Hnodes, elem_of_app, list_elem_of_singleton; auto).
        destruct (Hrec c st2 st3 Hc2 Hok1 Hcall) as [Hok3 Hsub3].
        destruct (IH st3 st' (Hsub3 _ Hi2) Hok3 Hrun) as [Hok' Hsub'].
        split; [exact Hok'|]. etransitivity; [exact Hsub2|]. etransitivity; eauto.
      * destruct (IH st2 st' Hi2 Hok1 Hrun) as [Hok' Hsub'].
        split; [exact Hok'|]. etransitivity; eauto.
Qed.

Lemma addConnectedVertices_preserves (fuel : nat) :
  forall depth index, preserves es (acv fuel index depth) index.
Proof.
  induction fuel as [|fuel IH]; intros depth index st st' Hi Hok Hrun;
    simpl in Hrun; [discriminate|].
  destruct ((2 <? depth) || (cap <=? length (Glow.nodesToGlow st))).
  - inversion Hrun; subst. split; [exact Hok | reflexivity].
  - destruct (vs !! index) as [vertex|]; [|discriminate].
    eapply forConnections_preserves; eauto.
Qed.

End SelectionFacts.

(** ** Glow propagator: the claims *)

Lemma forConnections_rand_ext (rand1 rand2 : RandomSource) (es : list Edge.t) (cap : nat)
    (rec1 rec2 : nat -> nat -> Glow.Sel -> outcome Glow.Sel) (index depth : nat) :
  (forall k, Math.gt (rand1 k) Glow.threshold = Math.gt (rand2 k) Glow.threshold) ->
  (forall i st, rec1 i (depth + 1) st = rec2 i (depth + 1) st) ->
  forall conns st,
    Glow.forConnections rand1 es cap rec1 index depth conns st
    = Glow.forConnections rand2 es cap rec2 index depth conns st.
Proof.
  intros Hrand Hrec conns. induction conns as [|c rest IH]; intros st; simpl; [reflexivity|].
  destruct (includes (Glow.nodesToGlow st) c); [apply IH|].
  rewrite Hrand.
  destruct (Math.gt (rand2 (Glow.cursor st)) Glow.threshold); [|apply IH].
  match goal with |- context [Nat.ltb ?a ?b] => destruct (Nat.ltb a b) end; [|apply IH].
  rewrite Hrec.
  match goal with |- context [rec2 ?a ?b ?c] => destruct (rec2 a b c) end;
    [apply IH | reflexivity | reflexivity].
Qed.

Lemma addConnectedVertices_rand_ext (rand1 rand2 : RandomSource)
    (vs : list Vertex.t) (es : list Edge.t) (cap : nat) :
  (forall k, Math.gt (rand1 k) Glow.threshold = Math.gt (rand2 k) Glow.threshold) ->
  forall fuel index depth st,
    Glow.addConnectedVertices rand1 vs es cap fuel index depth st
    = Glow.addConnectedVertices rand2 vs es cap fuel index depth st.
Proof.
  intros Hrand fuel. induction fuel as [|fuel IH]; intros index depth st; simpl; [reflexivity|].
  destruct ((2 <? depth) || (cap <=? length (Glow.nodesToGlow st))); [reflexivity|].
  destruct (vs !! index) as [vertex|]; [|reflexivity].
  apply forConnections_rand_ext; [exact Hrand | intros; apply IH].
Qed.

Lemma forConnections_grows (rand : RandomSource) (es : list Edge.t) (cap : nat)
    (rec : nat -> nat -> Glow.Sel -> outcome Glow.Sel) (index depth : nat) :
  (forall i st st', rec i (depth + 1) st = Done st' ->
     Glow.nodesToGlow st ⊆ Glow.nodesToGlow st') ->
  forall conns st st',
    Glow.forConnections rand es cap rec index depth conns st = Done st' ->
    Glow.nodesToGlow st ⊆ Glow.nodesToGlow st'.
Proof.
  intros Hrec conns. induction conns as [|c rest IH]; intros st st' Hrun; simpl in Hrun.
  - inversion Hrun. reflexivity.
  - destruct (includes (Glow.nodesToGlow st) c).
    + apply IH in Hrun. unfold Glow.markSelected in Hrun.
      destruct (findIndex (joins index c) es) as [e|]; [|exact Hrun].
      destruct (includes (Glow.edgesToGlow st) e); exact Hrun.
    + destruct (Math.gt (rand (Glow.cursor st)) Glow.threshold); [|exact (IH _ _ Hrun)].
      assert (Hsub : Glow.nodesToGlow st ⊆
                Glow.nodesToGlow (Glow.includeNeighbor es index c (snd (Glow.random rand st)))).
      { unfold Glow.includeNeighbor.
        destruct (findIndex (joins index c) es); simpl;
          intros y Hy; rewrite elem_of_app; auto. }
      match type of Hrun with context [Nat.ltb ?a ?b] => destruct (Nat.ltb a b) end.
      * match type of Hrun with context [rec ?a ?b ?c] =>
          destruct (rec a b c) as [st3| |] eqn:Hcall end; try discriminate.
        apply Hrec in Hcall. apply IH in Hrun.
        etransitivity; [exact Hsub|]. etransitivity; eauto.
      * apply IH in Hrun. etransitivity; eauto.
Qed.

Lemma addConnectedVertices_grows (rand : RandomSource) (vs : list Vertex.t)
    (es : list Edge.t) (cap : nat) (fuel : nat) :
  forall index depth st st',
    Glow.addConnectedVertices rand vs es cap fuel index depth st = Done st' ->
    Glow.nodesToGlow st ⊆ Glow.nodesToGlow st'.
Proof.
  induction fuel as [|fuel IH]; intros index depth st st' Hrun; simpl in Hrun; [discriminate|].
  destruct ((2 <? depth) || (cap <=? length (Glow.nodesToGlow st))).
  - inversion Hrun. reflexivity.
  - destruct (vs !! index) as [vertex|]; [|discriminate].
    eapply forConnections_grows; [|exact Hrun]. intros i s s'. apply IH.
Qed.

(** C1, as stated, fails: on the square seeded at vertex 0, neighbour 1 is
    processed with the draw 0.9, which exceeds 0.7, and it is included. *)
Lemma skip_condition_counterexample : ~ skippedWhenDrawExceeds.
Proof.
  intros H.
  specialize (H highDraws (squareVertices false false false false) squareEdges
                5 3 0 0 1 (Glow.mkSel [0] [] 0) (Glow.mkSel [0; 1; 2; 3] [0; 1; 2] 3)).
  destruct H as [_ H].
  - intros Hin. apply includes_spec in Hin. discriminate.
  - reflexivity.
  - apply H; [reflexivity|]. apply includes_spec. reflexivity.
Qed.

(** C1 (amended): a neighbour that is not yet selected is included exactly
    when the draw exceeds 0.7 (it is then part of the selection the loop
    returns) and skipped exactly when the draw is at most 0.7 (the loop
    goes on to the next neighbour with the selection unchanged); of the
    unit interval the draws come from, the including draws (0.7, 1) take a
    length of 0.3 and the skipping draws [0, 0.7] a length of 0.7. *)
Theorem neighbor_included_iff_draw_exceeds
    (rand : RandomSource) (vs : list Vertex.t) (es : list Edge.t)
    (cap fuel index depth c : nat) (rest : list nat) (st : Glow.Sel) :
  c ∉ Glow.nodesToGlow st ->
  let loop :=
    Glow.forConnections rand es cap (Glow.addConnectedVertices rand vs es cap fuel)
      index depth in
  let r := rand (Glow.cursor st) in
  let st1 := snd (Glow.random rand st) in
  ((Glow.threshold < r)%Q ->
     forall st', loop (c :: rest) st = Done st' -> c ∈ Glow.nodesToGlow st')
  /\ ((r <= Glow.threshold)%Q ->
        loop (c :: rest) st = loop rest st1
        /\ Glow.nodesToGlow st1 = Glow.nodesToGlow st
        /\ Glow.edgesToGlow st1 = Glow.edgesToGlow st)
  /\ (1 - Glow.threshold == 3 # 10)%Q /\ (Glow.threshold - 0 == 7 # 10)%Q.
Proof.
  intros Hc loop r st1. apply includes_false in Hc.
  split; [|split; [|split; reflexivity]].
  - intros Hgt st' Hrun. apply gt_spec in Hgt.
    unfold loop in Hrun. simpl in Hrun. fold r in Hrun. rewrite Hc, Hgt in Hrun.
    assert (Hin : c ∈ Glow.nodesToGlow
              (Glow.includeNeighbor es index c (snd (Glow.random rand st)))).
    { unfold Glow.includeNeighbor.
      destruct (findIndex (joins index c) es); simpl;
        rewrite elem_of_app, list_elem_of_singleton; auto. }
    assert (Hloop : forall s s',
              Glow.forConnections rand es cap
                (Glow.addConnectedVertices rand vs es cap fuel) index depth rest s = Done s' ->
              Glow.nodesToGlow s ⊆ Glow.nodesToGlow s').
    { apply forConnections_grows. intros i s s'. apply addConnectedVertices_grows. }
    match type of Hrun with context [Nat.ltb ?a ?b] => destruct (Nat.ltb a b) end.
    + match type of Hrun with context [Glow.addConnectedVertices ?r ?v ?e ?m ?f ?a ?b ?c] =>
        destruct (Glow.addConnectedVertices r v e m f a b c) as [st3| |] eqn:Hcall end;
        try discriminate.
      apply (Hloop _ _ Hrun). exact (addConnectedVertices_grows _ _ _ _ _ _ _ _ _ Hcall _ Hin).
    + exact (Hloop _ _ Hrun _ Hin).
  - intros Hle. apply gt_false in Hle.
    split; [|split; reflexivity].
    unfold loop. simpl. fold r. rewrite Hc, Hle. reflexivity.
Qed.

Lemma neighbor_included_iff_draw_exceeds_witness :
  1 ∈ [0; 1; 2; 3]
  /\ (1 - Glow.threshold == 3 # 10)%Q /\ (Glow.threshold - 0 == 7 # 10)%Q.
Proof.
  assert (Hfresh : 1 ∉ Glow.nodesToGlow (Glow.mkSel [0] [] 0)).
  { intros Hin. apply includes_spec in Hin. discriminate. }
  destruct (neighbor_included_iff_draw_exceeds highDraws
              (squareVertices false false false false) squareEdges 5 3 0 0 1 [3]
              (Glow.mkSel [0] [] 0) Hfresh) as (Hinc & _ & Hlen).
  split; [|exact Hlen].
  apply (Hinc ltac:(reflexivity) (Glow.mkSel [0; 1; 2; 3] [0; 1; 2; 3] 3)).
  reflexivity.
Defined.

Lemma Qfloor_below (q : Q) (n : Z) : (q < inject_Z n)%Q -> (Qfloor q < n)%Z.
Proof.
  intros H. rewrite Zlt_Qlt. eapply Qle_lt_trans; [apply Qfloor_le | exact H].
Qed.

Lemma Qfloor_nonneg (q : Q) : (0 <= q)%Q -> (0 <= Qfloor q)%Z.
Proof.
  intros H. change 0%Z with (Qfloor 0). apply Qfloor_resp_le. exact H.
Qed.

(** ** Rounding to a nearest double *)

Lemma representable_int (m : Z) : (Z.abs m < 2 ^ 53)%Z -> representable (inject_Z m).
Proof.
  intros H. exists m, 0%Z. split; [exact H|]. split; [lia|]. simpl. ring.
Qed.

Lemma finite_small (x : Q) :
  (0 <= x)%Q -> (x <= inject_Z (2 ^ 53))%Q -> (Qabs x <= inject_Z (2 ^ 1023))%Q.
Proof.
  intros H0 H1. rewrite Qabs_pos by exact H0.
  eapply Qle_trans; [exact H1|]. rewrite <- Zle_Qle.
  apply Z.pow_le_mono_r; lia.
Qed.

(** A rounding to nearest keeps a number between two doubles between them. *)
Lemma rounded_between (fl : Q -> Q) (a b x : Q) :
  roundsToNearest fl -> representable a -> representable b ->
  (0 <= a)%Q -> (b <= inject_Z (2 ^ 53))%Q ->
  (a <= x)%Q -> (x <= b)%Q -> (a <= fl x)%Q /\ (fl x <= b)%Q.
Proof.
  intros Hfl Ha Hb Ha0 Hb1 Hax Hxb.
  assert (Hfin : (Qabs x <= inject_Z (2 ^ 1023))%Q) by (apply finite_small; lra).
  pose proof (Hfl x a Hfin Ha) as H1. pose proof (Hfl x b Hfin Hb) as H2.
  rewrite (Qabs_neg (a - x)) in H1 by lra. rewrite (Qabs_pos (b - x)) in H2 by lra.
  apply Qabs_Qle_condition in H1. apply Qabs_Qle_condition in H2. split; lra.
Qed.

(** Between [n] and its half there is a power of two. *)
Lemma power_between (n : Z) :
  (0 < n <= 2 ^ 53)%Z -> exists k, (0 <= k <= 53)%Z /\ (n <= 2 ^ k < 2 * n)%Z.
Proof.
  intros [Hn0 Hn1].
  destruct (Z.log2_spec n Hn0) as [Hlo Hhi].
  pose proof (Z.log2_nonneg n) as Hk.
  set (k := Z.log2 n) in *.
  destruct (Z.eq_dec n (2 ^ k)%Z) as [Heq|Hne].
  - exists k. split; [|lia]. split; [lia|].
    destruct (Z_le_gt_dec k 53) as [|Hgt]; [assumption|].
    assert (2 ^ 54 <= 2 ^ k)%Z by (apply Z.pow_le_mono_r; lia).
    assert (2 ^ 53 < 2 ^ 54)%Z by (apply Z.pow_lt_mono_r; lia). lia.
  - exists (Z.succ k). rewrite Z.pow_succ_r in * by lia. split; [|lia]. split; [lia|].
    destruct (Z_le_gt_dec (Z.succ k) 53) as [|Hgt]; [assumption|].
    assert (2 ^ 53 <= 2 ^ k)%Z by (apply Z.pow_le_mono_r; lia). lia.
Qed.

(** The product of a draw and a whole number [n] rounds to less than
    [n]: the double [n - 2^(k-53)], for [2^k] between [n] and [2 n], is
    nearer to the product than [n] is. *)
Lemma rounded_product_below (fl : Q -> Q) (r : Q) (n : Z) :
  roundsToNearest fl -> (0 <= r)%Q -> (r <= belowOne)%Q -> (0 < n <= 2 ^ 53)%Z ->
  (0 <= fl (r * inject_Z n))%Q /\ (fl (r * inject_Z n) < inject_Z n)%Q.
Proof.
  intros Hfl Hr0 Hr1 Hn.
  destruct (power_between n Hn) as (k & Hk & Hpow).
  set (s := (2 ^ (53 - k))%Z).
  assert (Hs : (0 < s)%Z) by (apply Z.pow_pos_nonneg; lia).
  assert (Hks : (2 ^ k * s = 2 ^ 53)%Z).
  { unfold s. rewrite <- Z.pow_add_r by lia. f_equal. lia. }
  assert (HN : (0 < inject_Z n)%Q) by (change 0%Q with (inject_Z 0); rewrite <- Zlt_Qlt; lia).
  assert (HS : (0 < inject_Z s)%Q) by (change 0%Q with (inject_Z 0); rewrite <- Zlt_Qlt; lia).
  assert (Hns1 : (inject_Z n * inject_Z s <= inject_Z (2 ^ 53))%Q).
  { rewrite <- inject_Z_mult, <- Zle_Qle. nia. }
  assert (Hns2 : (inject_Z (2 ^ 53) < 2 * (inject_Z n * inject_Z s))%Q).
  { change 2%Q with (inject_Z 2). rewrite <- !inject_Z_mult, <- Zlt_Qlt. nia. }
  assert (Hn53 : (inject_Z n <= inject_Z (2 ^ 53))%Q) by (rewrite <- Zle_Qle; lia).
  set (x := (r * inject_Z n)%Q).
  assert (Hx0 : (0 <= x)%Q) by (unfold x; nra).
  assert (Hx1 : (x <= inject_Z n - inject_Z n * (1 # 9007199254740992))%Q).
  { unfold x, belowOne in *. nra. }
  assert (Hfin : (Qabs x <= inject_Z (2 ^ 1023))%Q) by (apply finite_small; nra).
  set (d := (inject_Z (n * s - 1) * 2 ^ (- (53 - k)))%Q).
  assert (Hd : representable d).
  { exists (n * s - 1)%Z, (- (53 - k))%Z. split; [|split; [lia | reflexivity]].
    rewrite Z.abs_eq by nia. nia. }
  assert (Hdv : (d * inject_Z s == inject_Z n * inject_Z s - 1)%Q).
  { unfold d. rewrite Qpower_opp. change 2%Q with (inject_Z 2).
    rewrite <- Zpower_Qpower by lia. fold s.
    replace (n * s - 1)%Z with (n * s + - (1))%Z by lia.
    rewrite inject_Z_plus, inject_Z_mult, inject_Z_opp. change (inject_Z 1) with 1%Q.
    field. lra. }
  split.
  - pose proof (Hfl x 0%Q Hfin (representable_int 0 ltac:(reflexivity))) as H0.
    rewrite (Qabs_neg (0 - x)) in H0 by lra.
    apply Qabs_Qle_condition in H0. lra.
  - pose proof (Hfl x d Hfin Hd) as H1.
    assert (H2 : (Qabs (d - x) < inject_Z n - x)%Q).
    { change (inject_Z (2 ^ 53)) with 9007199254740992%Q in *.
      apply Qabs_case; intros _; nra. }
    pose proof (Qle_Qabs (fl x - x)). lra.
Qed.

Lemma pow2_pos (k : Z) : (0 < 2 ^ k)%Q.
Proof. apply Qpower_0_lt. reflexivity. Qed.

Lemma pow2_add (a b : Z) : (2 ^ (a + b) == 2 ^ a * 2 ^ b)%Q.
Proof. apply Qpower_plus. discriminate. Qed.

Lemma pow2_Z (k : Z) : (0 <= k)%Z -> (2 ^ k == inject_Z (2 ^ k))%Q.
Proof. intros Hk. rewrite Zpower_Qpower by exact Hk. reflexivity. Qed.

Lemma binade_spec (a : Q) :
  (0 < a)%Q -> (2 ^ binade a <= a)%Q /\ (a < 2 ^ (binade a + 1))%Q.
Proof.
  intros Ha. unfold binade.
  destruct a as [p q]. assert (Hp : (0 < p)%Z).
  { unfold Qlt in Ha. simpl in Ha. lia. }
  simpl Qnum. simpl Qden.
  destruct (Z.log2_spec p Hp) as [Hp1 Hp2].
  destruct (Z.log2_spec (Z.pos q) ltac:(lia)) as [Hq1 Hq2].
  pose proof (Z.log2_nonneg p) as Hi. pose proof (Z.log2_nonneg (Z.pos q)) as Hj.
  set (i := Z.log2 p) in *. set (j := Z.log2 (Z.pos q)) in *.
  set (e := (i - j)%Z).
  pose proof (pow2_pos e) as HE.
  assert (HEJ : (2 ^ e * inject_Z (2 ^ j) == inject_Z (2 ^ i))%Q).
  { rewrite <- (pow2_Z j), <- (pow2_Z i) by lia. rewrite <- pow2_add.
    replace (e + j)%Z with i by (unfold e; lia). reflexivity. }
  assert (Hup : (2 ^ (e + 1) == 2 * 2 ^ e)%Q).
  { rewrite pow2_add. change (2 ^ 1)%Q with 2%Q. ring. }
  assert (Hdown : (2 * 2 ^ (e - 1) == 2 ^ e)%Q).
  { replace e with ((e - 1) + 1)%Z at 2 by lia. rewrite pow2_add.
    change (2 ^ 1)%Q with 2%Q. ring. }
  assert (Haq : ((p # q) * inject_Z (Z.pos q) == inject_Z p)%Q).
  { unfold Qeq, Qmult, inject_Z. simpl. lia. }
  rewrite Z.pow_succ_r in Hp2, Hq2 by lia.
  rewrite Zle_Qle in Hp1, Hq1. rewrite Zlt_Qlt in Hp2, Hq2.
  rewrite inject_Z_mult in Hp2, Hq2. change (inject_Z 2) with 2%Q in Hp2, Hq2.
  assert (HQ : (0 < inject_Z (Z.pos q))%Q) by reflexivity.
  set (a := (p # q)%Q) in *. set (E := (2 ^ e)%Q) in *.
  set (I := inject_Z (2 ^ i)) in *. set (J := inject_Z (2 ^ j)) in *.
  set (P := inject_Z p) in *. set (Q0 := inject_Z (Z.pos q)) in *.
  assert (HJ : (0 < J)%Q).
  { unfold J. change 0%Q with (inject_Z 0). rewrite <- Zlt_Qlt.
    apply Z.pow_pos_nonneg; lia. }
  assert (Hlt : (a < 2 * E)%Q).
  { destruct (Qlt_le_dec a (2 * E)) as [|Hge]; [assumption|]. exfalso.
    assert (0 <= (a - 2 * E) * Q0)%Q by nra.
    assert (0 <= E * (Q0 - J))%Q by nra. nra. }
  assert (Hgt : (E <= 2 * a)%Q).
  { destruct (Qlt_le_dec (2 * a) E) as [Hl|]; [|assumption]. exfalso.
    assert (0 < (E - 2 * a) * Q0)%Q by nra.
    assert (0 < E * (2 * J - Q0))%Q by nra. nra. }
  destruct (Qle_bool E a) eqn:Hb.
  - apply Qle_bool_iff in Hb. split; [exact Hb|]. fold e. rewrite Hup. exact Hlt.
  - assert (Hn : ~ (E <= a)%Q).
    { intros H. apply Qle_bool_iff in H. congruence. }
    apply Qnot_le_lt in Hn. fold e.
    replace (e - 1 + 1)%Z with e by lia. fold E. split; [|exact Hn].
    set (E' := (2 ^ (e - 1))%Q) in *. lra.
Qed.

Lemma roundHalfEven_nearest (t : Q) (j : Z) :
  (Qabs (inject_Z (roundHalfEven t) - t) <= Qabs (inject_Z j - t))%Q.
Proof.
  unfold roundHalfEven.
  pose proof (Qfloor_le t) as Hlo. pose proof (Qlt_floor t) as Hhi.
  set (f := Qfloor t) in *.
  rewrite inject_Z_plus in Hhi. change (inject_Z 1) with 1%Q in Hhi.
  assert (Hj : (inject_Z j <= inject_Z f)%Q \/ (inject_Z f + 1 <= inject_Z j)%Q).
  { destruct (Z_le_gt_dec j f) as [H|H].
    - left. rewrite <- Zle_Qle. exact H.
    - right. change 1%Q with (inject_Z 1). rewrite <- inject_Z_plus, <- Zle_Qle. lia. }
  destruct (t - inject_Z f ?= 1 # 2)%Q eqn:Hc.
  - apply Qeq_alt in Hc.
    destruct (Z.even f); [|rewrite inject_Z_plus; change (inject_Z 1) with 1%Q];
      apply Qabs_case; intros; apply Qabs_case; intros; destruct Hj; lra.
  - apply Qlt_alt in Hc.
    apply Qabs_case; intros; apply Qabs_case; intros; destruct Hj; lra.
  - apply Qgt_alt in Hc. rewrite inject_Z_plus. change (inject_Z 1) with 1%Q.
    apply Qabs_case; intros; apply Qabs_case; intros; destruct Hj; lra.
Qed.

Lemma roundPositive_nearest (a d : Q) :
  (0 < a)%Q -> representable d -> (Qabs (roundPositive a - a) <= Qabs (d - a))%Q.
Proof.
  intros Ha (m' & e' & Hm' & _ & Hd). unfold roundPositive.
  destruct (binade_spec a Ha) as [Hlo _].
  set (e := binade a) in *.
  pose proof (pow2_pos (e - 52)) as Hu.
  assert (Hlow : (2 ^ e == inject_Z (2 ^ 52) * 2 ^ (e - 52))%Q).
  { rewrite <- pow2_Z by lia. rewrite <- pow2_add. replace (52 + (e - 52))%Z with e by lia.
    reflexivity. }
  set (u := (2 ^ (e - 52))%Q) in *.
  set (t := (a / u)%Q).
  assert (Hat : (a == t * u)%Q) by (unfold t; field; lra).
  assert (Hscale : forall j : Z,
            (Qabs (inject_Z (roundHalfEven t) * u - a) <= Qabs (inject_Z j * u - a))%Q).
  { intros j.
    assert (H1 : (inject_Z (roundHalfEven t) * u - a
                  == (inject_Z (roundHalfEven t) - t) * u)%Q) by (rewrite Hat at 1; ring).
    assert (H2 : (inject_Z j * u - a == (inject_Z j - t) * u)%Q) by (rewrite Hat at 1; ring).
    rewrite H1, H2, !Qabs_Qmult, (Qabs_pos u) by lra.
    apply Qmult_le_compat_r; [apply roundHalfEven_nearest | lra]. }
  destruct (Z_le_gt_dec (e - 52) e') as [Hex|Hex].
  - assert (Hdj : (d == inject_Z (m' * 2 ^ (e' - (e - 52))) * u)%Q).
    { rewrite Hd, inject_Z_mult, <- pow2_Z by lia. unfold u.
      rewrite <- Qmult_assoc, <- pow2_add.
      replace (e' - (e - 52) + (e - 52))%Z with e' by lia. reflexivity. }
    rewrite Hdj. apply Hscale.
  - pose proof (Hscale (2 ^ 52)%Z) as Hnear.
    assert (Hpos : (0 <= a - inject_Z (2 ^ 52) * u)%Q) by lra.
    assert (Hneg : (Qabs (inject_Z (2 ^ 52) * u - a) == a - inject_Z (2 ^ 52) * u)%Q).
    { rewrite Qabs_neg by lra. ring. }
    rewrite Hneg in Hnear.
    assert (Hsmall : (d < inject_Z (2 ^ 52) * u)%Q).
    { assert (Hpw : (2 ^ e' <= 2 ^ (e - 53))%Q)
        by (apply Qpower_le_compat_l; [lia | discriminate]).
      assert (Hhalf : (2 * 2 ^ (e - 53) == u)%Q).
      { unfold u. replace (e - 52)%Z with (1 + (e - 53))%Z by lia.
        rewrite pow2_add. reflexivity. }
      assert (Hm2 : (inject_Z m' < inject_Z (2 ^ 53))%Q) by (rewrite <- Zlt_Qlt; lia).
      pose proof (pow2_pos e') as He'. pose proof (pow2_pos (e - 53)) as He53.
      rewrite Hd.
      change (inject_Z (2 ^ 53)) with 9007199254740992%Q in Hm2.
      change (inject_Z (2 ^ 52)) with 4503599627370496%Q.
      set (A := (2 ^ e')%Q) in *. set (B := (2 ^ (e - 53))%Q) in *.
      assert (inject_Z m' * A < 9007199254740992 * A)%Q by nra.
      nra. }
    eapply Qle_trans; [exact Hnear|].
    rewrite Qabs_neg by lra. lra.
Qed.

Lemma representable_opp (d : Q) : representable d -> representable (- d).
Proof.
  intros (m & e & Hm & He & Hd). exists (- m)%Z, e.
  split; [lia|]. split; [exact He|]. rewrite Hd, inject_Z_opp. ring.
Qed.

Lemma roundsToNearest_roundDouble : roundsToNearest roundDouble.
Proof.
  intros x d _ Hd. unfold roundDouble. destruct x as [p q]. destruct p as [|p|p]; simpl Qnum.
  - assert (H : (0 - (0 # q) == 0)%Q) by reflexivity.
    rewrite H. change (Qabs 0) with 0%Q. apply Qabs_nonneg.
  - apply roundPositive_nearest; [reflexivity | exact Hd].
  - set (x := (Z.neg p # q)%Q).
    assert (Hx : (0 < - x)%Q) by reflexivity.
    pose proof (roundPositive_nearest (- x) (- d) Hx (representable_opp d Hd)) as H.
    assert (H1 : (- roundPositive (- x) - x == - (roundPositive (- x) - - x))%Q) by ring.
    assert (H2 : (d - x == - (- d - - x))%Q) by ring.
    rewrite H1, H2, !Qabs_opp. exact H.
Qed.

Lemma roundsToNearest_id : roundsToNearest (fun q => q).
Proof.
  intros x d _ _. assert (H : (x - x == 0)%Q) by ring.
  rewrite H. change (Qabs 0) with 0%Q. apply Qabs_nonneg.
Qed.

Lemma doubleDraws_unit (rand : RandomSource) : doubleDraws rand -> unitDraws rand.
Proof.
  intros H k. destruct (H k) as [H0 H1]. unfold belowOne in H1. split; lra.
Qed.

Lemma pickCap_range (fl : Q -> Q) (r : Q) :
  roundsToNearest fl -> (0 <= r)%Q -> (r <= belowOne)%Q -> 5 <= Glow.pickCap fl r <= 14.
Proof.
  intros Hfl H0 H1. unfold Glow.pickCap, Math.floor.
  destruct (rounded_product_below fl r 10 Hfl H0 H1 ltac:(lia)) as [Hlo Hhi].
  change (inject_Z 10) with 10%Q in Hlo, Hhi.
  apply Qfloor_nonneg in Hlo. apply Qfloor_below in Hhi.
  lia.
Qed.

(** C2 (the code exceeds its cap): on the graph the builder produces from
    [pulseDraws], the pulse seeded at vertex 0 draws the cap 5 and, with
    every neighbour drawn above the threshold, selects more than 5 vertices:
    the loop of lines 329-362 pushes a neighbour without looking at the cap
    again. *)
Theorem cap_exceeded_on_built_graph :
  exists g st,
    builtCloud = Some g
    /\ Glow.pickStart roundDouble (pulseDraws 200) (length (vertices g)) = 0
    /\ Glow.pickCap roundDouble (pulseDraws 201) = 5
    /\ Glow.selectCluster roundDouble pulseDraws (vertices g) (edges g) 4 200 = Done st
    /\ Glow.nodesToGlow st = [0; 10; 20; 9; 30; 40; 41; 21; 31]
    /\ Glow.pickCap roundDouble (pulseDraws 201) < length (Glow.nodesToGlow st).
Proof.
  eexists. eexists.
  split; [vm_compute; reflexivity|].
  split; [vm_compute; reflexivity|].
  split; [vm_compute; reflexivity|].
  split; [vm_compute; reflexivity|].
  split; [vm_compute; reflexivity|].
  vm_compute. lia.
Qed.

Lemma alwaysInclude_highDraws (rand : RandomSource) :
  alwaysInclude rand ->
  forall k, Math.gt (rand k) Glow.threshold = Math.gt (highDraws k) Glow.threshold.
Proof.
  intros H k. transitivity true; [|reflexivity]. apply gt_spec. apply H.
Qed.

(** C3: on the square 0-1, 1-2, 2-3, 3-0 (whatever order each vertex lists
    its two neighbours in), the expansion seeded at vertex 0 with a source
    that always includes and cap 4 returns with exactly the four vertices
    selected and exactly the four edges marked. *)
Theorem square_pulse_selects_everything
    (rand : RandomSource) (f0 f1 f2 f3 : bool) (cur : nat) :
  alwaysInclude rand ->
  exists st,
    Glow.expand rand (squareVertices f0 f1 f2 f3) squareEdges 4 4 0 cur = Done st
    /\ length (Glow.nodesToGlow st) = 4
    /\ (forall i, i < 4 -> i ∈ Glow.nodesToGlow st)
    /\ length (Glow.edgesToGlow st) = 4
    /\ (forall e, e < length squareEdges -> e ∈ Glow.edgesToGlow st).
Proof.
  intros Hrand. unfold Glow.expand.
  rewrite (addConnectedVertices_rand_ext rand highDraws _ _ _
             (alwaysInclude_highDraws rand Hrand)).
  assert (Hall : forall l : list nat,
            forallb (includes l) [0; 1; 2; 3] = true -> forall i, i < 4 -> i ∈ l).
  { intros l Hl i Hi. simpl in Hl. rewrite !andb_true_iff in Hl.
    destruct Hl as (H0 & H1 & H2 & H3 & _).
    destruct i as [|[|[|[|i]]]]; try lia; apply includes_spec; assumption. }
  destruct f0, f1, f2, f3;
    (eexists; split; [reflexivity|];
     repeat split; try reflexivity; apply Hall; reflexivity).
Qed.

Lemma square_pulse_selects_everything_witness :
  exists st,
    Glow.expand highDraws (squareVertices false false false false) squareEdges 4 4 0 0
      = Done st
    /\ length (Glow.nodesToGlow st) = 4
    /\ (forall i, i < 4 -> i ∈ Glow.nodesToGlow st)
    /\ length (Glow.edgesToGlow st) = 4
    /\ (forall e, e < length squareEdges -> e ∈ Glow.edgesToGlow st).
Proof.
  apply (square_pulse_selects_everything highDraws false false false false 0).
  intros k. unfold Glow.threshold, highDraws. reflexivity.
Defined.

(** C9: the expansion terminates on every graph, whatever the seed, the cap
    and the draws: a nesting budget of 4 calls is never exhausted, a larger
    budget changes nothing, and on a graph whose neighbour lists name
    existing vertices the expansion returns a selection. *)
Theorem expansion_terminates
    (rand : RandomSource) (vs : list Vertex.t) (es : list Edge.t)
    (cap seed cur fuel : nat) :
  4 <= fuel ->
  Glow.expand rand vs es cap fuel seed cur <> OutOfFuel
  /\ Glow.expand rand vs es cap fuel seed cur = Glow.expand rand vs es cap 4 seed cur
  /\ (adjacencyInRange vs -> seed < length vs ->
      exists st, Glow.expand rand vs es cap fuel seed cur = Done st).
Proof.
  intros Hfuel. unfold Glow.expand. repeat split.
  - apply addConnectedVertices_fuelled. lia.
  - apply addConnectedVertices_fuel_irrelevant; lia.
  - intros Hwf Hseed. apply addConnectedVertices_total; [exact Hwf | lia | exact Hseed].
Qed.

Lemma expansion_terminates_witness :
  Glow.expand highDraws (completeVertices 8) (completeEdges 8) 14 9 0 0 <> OutOfFuel
  /\ Glow.expand highDraws (completeVertices 8) (completeEdges 8) 14 9 0 0
     = Glow.expand highDraws (completeVertices 8) (completeEdges 8) 14 4 0 0
  /\ (adjacencyInRange (completeVertices 8) -> 0 < length (completeVertices 8) ->
      exists st, Glow.expand highDraws (completeVertices 8) (completeEdges 8) 14 9 0 0
                 = Done st).
Proof.
  apply (expansion_terminates highDraws (completeVertices 8) (completeEdges 8) 14 0 0 9).
  lia.
Defined.

(** C10: within one pulse no vertex index is selected twice and no edge
    index is marked twice, so the fade-in tweens the pulse starts have
    pairwise different targets. *)
Theorem pulse_selection_has_no_duplicates
    (rand : RandomSource) (vs : list Vertex.t) (es : list Edge.t)
    (cap fuel seed cur : nat) (st : Glow.Sel) :
  Glow.expand rand vs es cap fuel seed cur = Done st ->
  NoDup (Glow.nodesToGlow st) /\ NoDup (Glow.edgesToGlow st)
  /\ NoDup (startedFadeIns st).
Proof.
  intros Hrun. unfold Glow.expand in Hrun.
  apply addConnectedVertices_preserves in Hrun as [(Hn & He & _) _].
  - repeat split; [exact Hn | exact He |].
    unfold startedFadeIns. apply NoDup_app. repeat split.
    + apply NoDup_fmap; [intros a b H; inversion H; reflexivity | exact Hn].
    + intros t Ht Ht'. apply list_elem_of_fmap in Ht as (a & -> & _).
      apply list_elem_of_fmap in Ht' as (b & Hb & _). discriminate.
    + apply NoDup_fmap; [intros a b H; inversion H; reflexivity | exact He].
  - simpl. left.
  - repeat split; simpl.
    + apply NoDup_singleton.
    + apply NoDup_nil_2.
    + intros e H. inversion H.
Qed.

Lemma pulse_selection_has_no_duplicates_witness :
  NoDup [0; 1; 2; 3; 4; 5; 6; 7]
  /\ NoDup [0; 7; 1; 13; 14; 15; 16; 17; 8; 9; 10; 11; 12; 2; 3; 4; 5; 6]
  /\ NoDup (startedFadeIns
              (Glow.mkSel [0; 1; 2; 3; 4; 5; 6; 7]
                 [0; 7; 1; 13; 14; 15; 16; 17; 8; 9; 10; 11; 12; 2; 3; 4; 5; 6] 7)).
Proof.
  apply (pulse_selection_has_no_duplicates highDraws (completeVertices 8)
           (completeEdges 8) 14 4 0 0
           (Glow.mkSel [0; 1; 2; 3; 4; 5; 6; 7]
              [0; 7; 1; 13; 14; 15; 16; 17; 8; 9; 10; 11; 12; 2; 3; 4; 5; 6] 7)).
  reflexivity.
Defined.

(** ** Graph builder *)

Section BuilderFacts.
Variable fl : Q -> Q.
Variable distanceTo : Vector3.t -> Vector3.t -> Q.
Variable rand : RandomSource.

Lemma createVertices_length (n cur : nat) (acc : list Vertex.t) :
  length (fst (createVertices fl rand n cur acc)) = length acc + n.
Proof.
  revert cur acc. induction n as [|n IH]; intros cur acc; simpl; [lia|].
  rewrite IH, length_app. simpl. lia.
Qed.

Lemma createVertices_fresh (n cur : nat) (acc : list Vertex.t) (P : Vertex.t -> Prop) :
  (forall k, P (newVertex (randomPosition fl rand k))) ->
  Forall P acc -> Forall P (fst (createVertices fl rand n cur acc)).
Proof.
  intros Hnew. revert cur acc. induction n as [|n IH]; intros cur acc Hacc; simpl.
  - exact Hacc.
  - apply IH. apply Forall_app. split; [exact Hacc|]. repeat constructor. apply Hnew.
Qed.

(** The search only returns a vertex other than [i] that [i] does not
    list yet. *)
Lemma findNearest_spec (vs : list Vertex.t) (i j : nat) :
  findNearest distanceTo vs i = Some j ->
  j < length vs /\ j <> i /\ j ∉ connectionsAt vs i.
Proof.
  unfold findNearest.
  assert (Hfold : forall l acc,
            (forall a, a ∈ l -> a < length vs) ->
            (forall a, fst acc = Some a ->
               a < length vs /\ a <> i /\ a ∉ connectionsAt vs i) ->
            forall a, fst (foldl (nearestStep distanceTo vs i) acc l) = Some a ->
               a < length vs /\ a <> i /\ a ∉ connectionsAt vs i).
  { intros l. induction l as [|b l IH]; intros acc Hl Hacc; simpl; [exact Hacc|].
    apply IH.
    - intros a Ha. apply Hl. right. exact Ha.
    - unfold nearestStep.
      destruct (i =? b) eqn:Hib; simpl; [exact Hacc|].
      destruct (includes (connectionsAt vs i) b) eqn:Hinc; [exact Hacc|].
      destruct (closer _ _); [|exact Hacc].
      simpl. intros a Ha. inversion Ha; subst a.
      apply Nat.eqb_neq in Hib. apply includes_false in Hinc.
      repeat split; [apply Hl; left | congruence | exact Hinc]. }
  apply Hfold.
  - intros a Ha. apply elem_of_seq in Ha. lia.
  - simpl. discriminate.
Qed.

Lemma connectionsAt_connected (vs : list Vertex.t) (i j a : nat) :
  i < length vs -> j < length vs -> i <> j ->
  forall b,
    b ∈ connectionsAt (alter (addConnection i) j (alter (addConnection j) i vs)) a
    <-> b ∈ connectionsAt vs a \/ (a = i /\ b = j) \/ (a = j /\ b = i).
Proof.
  intros Hi Hj Hij b. unfold connectionsAt.
  destruct (decide (a = j)) as [->|Haj].
  - rewrite list_lookup_alter_eq, list_lookup_alter_ne by exact Hij.
    destruct (lookup_lt_is_Some_2 vs j Hj) as [v ->]. simpl.
    rewrite elem_of_app, list_elem_of_singleton. intuition congruence.
  - rewrite list_lookup_alter_ne by congruence.
    destruct (decide (a = i)) as [->|Hai].
    + rewrite list_lookup_alter_eq.
      destruct (lookup_lt_is_Some_2 vs i Hi) as [v ->]. simpl.
      rewrite elem_of_app, list_elem_of_singleton. intuition congruence.
    + rewrite list_lookup_alter_ne by congruence. intuition congruence.
Qed.

Lemma existsb_joins_false (es : list Edge.t) (i j : nat) (e : Edge.t) :
  existsb (joins i j) es = false -> e ∈ es -> joins i j e = false.
Proof.
  intros Hex He. destruct (joins i j e) eqn:Hj; [|reflexivity].
  assert (existsb (joins i j) es = true); [|congruence].
  apply existsb_exists. exists e. split; [apply list_elem_of_In; exact He | exact Hj].
Qed.

Lemma joins_samePair (i j : nat) (e : Edge.t) :
  samePair e (Edge.mk i j false 0) -> joins i j e = true.
Proof.
  unfold samePair, joins. simpl. intros [[-> ->]|[-> ->]];
    rewrite !Nat.eqb_refl; simpl; auto using orb_true_r.
Qed.

Lemma samePair_sym (e1 e2 : Edge.t) : samePair e1 e2 -> samePair e2 e1.
Proof. unfold samePair. intuition congruence. Qed.

Lemma connectOnce_length (i : nat) (g : Cloud) :
  length (vertices (connectOnce distanceTo i g)) = length (vertices g).
Proof.
  unfold connectOnce. destruct (findNearest distanceTo (vertices g) i); [|reflexivity].
  simpl. rewrite !length_alter. reflexivity.
Qed.

Lemma connectOnce_ok (i : nat) (g : Cloud) :
  i < length (vertices g) -> cloudOk g -> cloudOk (connectOnce distanceTo i g).
Proof.
  intros Hi (Hsym & Hrec & Hdist). unfold connectOnce.
  destruct (findNearest distanceTo (vertices g) i) as [j|] eqn:Hfind;
    [|exact (conj Hsym (conj Hrec Hdist))].
  apply findNearest_spec in Hfind as (Hj & Hji & Hfresh).
  assert (Hmem := connectionsAt_connected (vertices g) i j).
  set (vs' := alter (addConnection i) j (alter (addConnection j) i (vertices g))) in *.
  assert (Hmem' : forall es a b,
            b ∈ neighbours (mkCloud vs' es) a
            <-> b ∈ neighbours g a \/ (a = i /\ b = j) \/ (a = j /\ b = i)).
  { intros es a b. apply Hmem; auto. }
  assert (Hsym' : forall es, symmetricAdjacency (mkCloud vs' es)).
  { intros es a b Hb. apply Hmem' in Hb. rewrite Hmem'.
    destruct Hb as [Hb|[[-> ->]|[-> ->]]]; [|auto|auto].
    destruct (Hsym a b Hb). auto. }
  assert (Hold : forall es e, e ∈ edges g ->
            Edge.from e <> Edge.to e
            /\ Edge.to e ∈ neighbours (mkCloud vs' es) (Edge.from e)
            /\ Edge.from e ∈ neighbours (mkCloud vs' es) (Edge.to e)).
  { intros es e He. destruct (Hrec e He) as (? & ? & ?). rewrite !Hmem'. auto. }
  destruct (existsb (joins i j) (edges g)) eqn:Hex.
  - split; [apply Hsym' | split; [|exact Hdist]]. intros e He. apply Hold. exact He.
  - split; [apply Hsym' | split].
    + intros e He. simpl in He. apply elem_of_app in He as [He|He]; [apply Hold; exact He|].
      apply list_elem_of_singleton in He. subst e. simpl. rewrite !Hmem'.
      split; [congruence | split; auto].
    + intros k1 k2 e1 e2 H1 H2 Hsame. simpl in H1, H2.
      apply lookup_snoc_Some in H1, H2.
      destruct H1 as [[Hk1 H1]|[Hk1 H1]], H2 as [[Hk2 H2]|[Hk2 H2]]; subst.
      * exact (Hdist k1 k2 e1 e2 H1 H2 Hsame).
      * apply joins_samePair in Hsame.
        rewrite (existsb_joins_false _ _ _ e1 Hex) in Hsame; [discriminate|].
        eapply list_elem_of_lookup_2; eauto.
      * apply samePair_sym, joins_samePair in Hsame.
        rewrite (existsb_joins_false _ _ _ e2 Hex) in Hsame; [discriminate|].
        eapply list_elem_of_lookup_2; eauto.
      * reflexivity.
Qed.

Lemma connectVertex_ok (cur i : nat) (g : Cloud) :
  i < length (vertices g) -> cloudOk g ->
  cloudOk (connectVertex distanceTo rand cur g i)
  /\ length (vertices (connectVertex distanceTo rand cur g i)) = length (vertices g).
Proof.
  intros Hi Hok. unfold connectVertex.
  induction (connectionsNeeded (rand (cur + i))) as [|n [IHok IHlen]]; simpl; [auto|].
  split.
  - apply connectOnce_ok; [lia | exact IHok].
  - rewrite connectOnce_length. exact IHlen.
Qed.

Lemma createEdges_ok (cur : nat) (vs : list Vertex.t) :
  (forall v, v ∈ vs -> Vertex.connections v = []) ->
  cloudOk (createEdges distanceTo rand cur vs)
  /\ length (vertices (createEdges distanceTo rand cur vs)) = length vs.
Proof.
  intros Hempty. unfold createEdges.
  assert (Hfold : forall l g,
            (forall i, i ∈ l -> i < length (vertices g)) -> cloudOk g ->
            cloudOk (foldl (connectVertex distanceTo rand cur) g l)
            /\ length (vertices (foldl (connectVertex distanceTo rand cur) g l))
               = length (vertices g)).
  { intros l. induction l as [|i l IH]; intros g Hl Hok; simpl; [auto|].
    destruct (connectVertex_ok cur i g) as [Hok' Hlen']; [apply Hl; left | exact Hok |].
    destruct (IH (connectVertex distanceTo rand cur g i)) as [Hok'' Hlen''].
    - intros a Ha. rewrite Hlen'. apply Hl. right. exact Ha.
    - exact Hok'.
    - split; [exact Hok'' | congruence]. }
  apply (Hfold _ (mkCloud vs [])).
  - intros i Hi. apply elem_of_seq in Hi. simpl. lia.
  - split; [|split].
    + intros i j H. exfalso. unfold neighbours, connectionsAt in H. simpl in H.
      destruct (vs !! i) as [v|] eqn:Hv; simpl in H; [|inversion H].
      rewrite (Hempty v) in H by (eapply list_elem_of_lookup_2; eauto). inversion H.
    + intros e H. inversion H.
    + intros k1 k2 e1 e2 H1. simpl in H1. discriminate.
Qed.

Lemma connectOnce_Forall (P : Vertex.t -> Prop) (i : nat) (g : Cloud) :
  (forall j v, P v -> P (addConnection j v)) ->
  Forall P (vertices g) -> Forall P (vertices (connectOnce distanceTo i g)).
Proof.
  intros Hadd HP. unfold connectOnce.
  destruct (findNearest distanceTo (vertices g) i); [|exact HP].
  simpl. apply Forall_alter; [apply Forall_alter; [exact HP|]|]; intros; apply Hadd; auto.
Qed.

Lemma createEdges_Forall (P : Vertex.t -> Prop) (cur : nat) (vs : list Vertex.t) :
  (forall j v, P v -> P (addConnection j v)) ->
  Forall P vs -> Forall P (vertices (createEdges distanceTo rand cur vs)).
Proof.
  intros Hadd HP. unfold createEdges.
  assert (Hfold : forall l g, Forall P (vertices g) ->
            Forall P (vertices (foldl (connectVertex distanceTo rand cur) g l))).
  { intros l. induction l as [|i l IH]; intros g Hg; simpl; [exact Hg|].
    apply IH. unfold connectVertex.
    induction (connectionsNeeded (rand (cur + i))) as [|n IHn]; simpl; [exact Hg|].
    apply connectOnce_Forall; assumption. }
  apply Hfold. exact HP.
Qed.

Lemma spread_bounds (r : Q) :
  roundsLikeDouble fl -> (0 <= r)%Q -> (r < 1)%Q ->
  (- (5 # 2) <= spread fl r)%Q /\ (spread fl r <= 5 # 2)%Q
  /\ (- (5 # 4) <= spreadZ fl r)%Q /\ (spreadZ fl r <= 5 # 4)%Q.
Proof.
  intros (Hmono & Hh & Hnh & Hf & Hnf & Hq & Hnq) H0 H1.
  unfold exact in *.
  assert (Hlo1 : (- (1 # 2) <= fl (r - (1 # 2)))%Q).
  { pose proof (Hmono (- (1 # 2)) (r - (1 # 2)))%Q ltac:(lra). lra. }
  assert (Hhi1 : (fl (r - (1 # 2)) <= 1 # 2)%Q).
  { pose proof (Hmono (r - (1 # 2)) (1 # 2))%Q ltac:(lra). lra. }
  assert (Hlo2 : (- (5 # 2) <= spread fl r)%Q).
  { unfold spread, cloudRadius.
    pose proof (Hmono (- (5 # 2)) (fl (r - (1 # 2)) * 5))%Q ltac:(lra). lra. }
  assert (Hhi2 : (spread fl r <= 5 # 2)%Q).
  { unfold spread, cloudRadius.
    pose proof (Hmono (fl (r - (1 # 2)) * 5) (5 # 2))%Q ltac:(lra). lra. }
  repeat split; [exact Hlo2 | exact Hhi2 | |].
  - unfold spreadZ.
    pose proof (Hmono (- (5 # 4)) (spread fl r * (1 # 2)))%Q ltac:(lra). lra.
  - unfold spreadZ.
    pose proof (Hmono (spread fl r * (1 # 2)) (5 # 4))%Q ltac:(lra). lra.
Qed.

End BuilderFacts.

(** C4: every graph the builder produces has 50 vertices, no edge from a
    vertex to itself, no two edges on the same unordered pair, a symmetric
    adjacency, and for every edge each endpoint lists the other. *)
Theorem built_graph_invariants
    (fl : Q -> Q) (distanceTo : Vector3.t -> Vector3.t -> Q) (rand : RandomSource)
    (sceneReady : bool) (cur : nat) (g : Cloud) :
  initializePointCloud fl distanceTo rand sceneReady cur = Some g ->
  length (vertices g) = 50
  /\ (forall e, e ∈ edges g -> Edge.from e <> Edge.to e)
  /\ (forall k1 k2 e1 e2,
        edges g !! k1 = Some e1 -> edges g !! k2 = Some e2 -> samePair e1 e2 -> k1 = k2)
  /\ (forall i j vi vj,
        vertices g !! i = Some vi -> vertices g !! j = Some vj ->
        (j ∈ Vertex.connections vi <-> i ∈ Vertex.connections vj))
  /\ (forall e, e ∈ edges g ->
        exists vf vt,
          vertices g !! Edge.from e = Some vf /\ vertices g !! Edge.to e = Some vt
          /\ Edge.to e ∈ Vertex.connections vf /\ Edge.from e ∈ Vertex.connections vt).
Proof.
  unfold initializePointCloud. destruct sceneReady; [|discriminate].
  destruct (createVertices fl rand numVertices cur []) as [vs cur1] eqn:Hcreate.
  intros Hg. inversion Hg; subst g. clear Hg.
  assert (Hvs : vs = fst (createVertices fl rand numVertices cur []))
    by (rewrite Hcreate; reflexivity).
  assert (Hlen : length vs = 50) by (rewrite Hvs, createVertices_length; reflexivity).
  assert (Hempty : forall v, v ∈ vs -> Vertex.connections v = []).
  { apply Forall_forall. rewrite Hvs. apply createVertices_fresh; [reflexivity | constructor]. }
  destruct (createEdges_ok distanceTo rand cur1 vs Hempty) as [(Hsym & Hrec & Hdist) Hlen'].
  set (g := createEdges distanceTo rand cur1 vs) in *.
  assert (Hnb : forall i v, vertices g !! i = Some v -> neighbours g i = Vertex.connections v).
  { intros i v Hv. unfold neighbours, connectionsAt. rewrite Hv. reflexivity. }
  assert (Hlookup : forall i j, j ∈ neighbours g i ->
            exists v, vertices g !! i = Some v /\ j ∈ Vertex.connections v).
  { intros i j Hj. unfold neighbours, connectionsAt in Hj.
    destruct (vertices g !! i) as [v|]; simpl in Hj; [eauto | inversion Hj]. }
  split; [congruence|]. split; [|split; [exact Hdist|split]].
  - intros e He. apply (Hrec e He).
  - intros i j vi vj Hi Hj. rewrite <- (Hnb i vi Hi), <- (Hnb j vj Hj).
    split; intros H; apply Hsym in H; tauto.
  - intros e He. destruct (Hrec e He) as (_ & Hto & Hfrom).
    destruct (Hlookup _ _ Hto) as (vf & Hvf & Hin1).
    destruct (Hlookup _ _ Hfrom) as (vt & Hvt & Hin2).
    exists vf, vt. auto.
Qed.

(** C7: every vertex the builder creates lies inside the ellipsoid with
    semi-axes R, R and R/2 (R the cloud radius): its coordinates stay within
    R/2, R/2 and R/4 of the centre. *)
Theorem built_positions_inside_ellipsoid
    (fl : Q -> Q) (distanceTo : Vector3.t -> Vector3.t -> Q) (rand : RandomSource)
    (sceneReady : bool) (cur : nat) (g : Cloud) (i : nat) (v : Vertex.t) :
  roundsLikeDouble fl -> unitDraws rand ->
  initializePointCloud fl distanceTo rand sceneReady cur = Some g ->
  vertices g !! i = Some v ->
  insideEllipsoid cloudRadius (cloudRadius / 2) (Vertex.initialPosition v)
  /\ Vertex.position v = Vertex.initialPosition v.
Proof.
  intros Hfl Hrand. unfold initializePointCloud. destruct sceneReady; [|discriminate].
  destruct (createVertices fl rand numVertices cur []) as [vs cur1] eqn:Hcreate.
  intros Hg Hv. inversion Hg; subst g. clear Hg.
  assert (Hplaced : Forall (placedAt fl rand) vs).
  { replace vs with (fst (createVertices fl rand numVertices cur []))
      by (rewrite Hcreate; reflexivity).
    apply createVertices_fresh; [|constructor].
    intros k. exists k. simpl. auto. }
  apply (createEdges_Forall distanceTo rand _ cur1) in Hplaced.
  2: { intros j u (k & H1 & H2 & H3). exists k. simpl. auto. }
  destruct (Forall_lookup_1 _ _ _ _ Hplaced Hv) as (k & Hpos & Hcur & _).
  split; [|exact Hcur]. rewrite Hpos. unfold insideEllipsoid, randomPosition. simpl.
  destruct (spread_bounds fl (rand k) Hfl) as (Hx1 & Hx2 & _); [apply Hrand | apply Hrand|].
  destruct (spread_bounds fl (rand (k + 1)) Hfl) as (Hy1 & Hy2 & _);
    [apply Hrand | apply Hrand|].
  destruct (spread_bounds fl (rand (k + 2)) Hfl) as (_ & _ & Hz1 & Hz2);
    [apply Hrand | apply Hrand|].
  unfold cloudRadius.
  set (X := spread fl (rand k)) in *. set (Y := spread fl (rand (k + 1))) in *.
  set (Z := spreadZ fl (rand (k + 2))) in *.
  assert (Hsq : forall t c : Q,
            (0 < c)%Q -> (- ((1 # 2) * c) <= t)%Q -> (t <= (1 # 2) * c)%Q ->
            (t / c * (t / c) <= 1 # 4)%Q).
  { intros t c Hc Hlo Hhi.
    assert (H1 : (- (1 # 2) <= t / c)%Q) by (apply Qle_shift_div_l; [exact Hc | lra]).
    assert (H2 : (t / c <= 1 # 2)%Q) by (apply Qle_shift_div_r; [exact Hc | lra]).
    nra. }
  assert (HX := Hsq X 5%Q ltac:(lra) ltac:(lra) ltac:(lra)).
  assert (HY := Hsq Y 5%Q ltac:(lra) ltac:(lra) ltac:(lra)).
  change (5 / 2)%Q with (5 # 2)%Q.
  assert (HZ := Hsq Z (5 # 2)%Q ltac:(lra) ltac:(lra) ltac:(lra)).
  lra.
Qed.

Lemma unitDraws_sampleDraws : unitDraws sampleDraws.
Proof.
  intros k. unfold sampleDraws.
  set (m := Z.of_nat ((k * 37 + 11) mod 101)).
  assert (Hm : (0 <= m < 101)%Z).
  { subst m. pose proof (Nat.mod_upper_bound (k * 37 + 11) 101). lia. }
  split.
  - apply Qle_shift_div_l; [reflexivity|].
    rewrite Qmult_0_l. change 0%Q with (inject_Z 0). rewrite <- Zle_Qle. lia.
  - apply Qlt_shift_div_r; [reflexivity|].
    rewrite Qmult_1_l. change 101%Q with (inject_Z 101). rewrite <- Zlt_Qlt. lia.
Qed.

Lemma unitDraws_pulseDraws : unitDraws pulseDraws.
Proof.
  intros k. unfold pulseDraws.
  destruct (k <? 200); [apply unitDraws_sampleDraws|].
  destruct (k <? 202); split; reflexivity || discriminate.
Qed.

Lemma roundsLikeDouble_id : roundsLikeDouble (fun q => q).
Proof.
  unfold roundsLikeDouble, monotone, exact. repeat split; auto; reflexivity.
Qed.

Lemma built_graph_invariants_witness :
  exists g,
    builtCloud = Some g
    /\ length (vertices g) = 50
    /\ (forall e, e ∈ edges g -> Edge.from e <> Edge.to e)
    /\ (forall k1 k2 e1 e2,
          edges g !! k1 = Some e1 -> edges g !! k2 = Some e2 -> samePair e1 e2 -> k1 = k2)
    /\ (forall i j vi vj,
          vertices g !! i = Some vi -> vertices g !! j = Some vj ->
          (j ∈ Vertex.connections vi <-> i ∈ Vertex.connections vj))
    /\ (forall e, e ∈ edges g ->
          exists vf vt,
            vertices g !! Edge.from e = Some vf /\ vertices g !! Edge.to e = Some vt
            /\ Edge.to e ∈ Vertex.connections vf /\ Edge.from e ∈ Vertex.connections vt).
Proof.
  eexists. split; [vm_compute; reflexivity|].
  apply (built_graph_invariants (fun q => q) distanceToSquared pulseDraws true 0).
  vm_compute. reflexivity.
Defined.

Lemma built_positions_inside_ellipsoid_witness :
  exists g v,
    builtCloud = Some g /\ vertices g !! 7 = Some v
    /\ insideEllipsoid cloudRadius (cloudRadius / 2) (Vertex.initialPosition v)
    /\ Vertex.position v = Vertex.initialPosition v.
Proof.
  eexists. eexists. split; [vm_compute; reflexivity|].
  split; [vm_compute; reflexivity|].
  eapply (built_positions_inside_ellipsoid (fun q => q) distanceToSquared pulseDraws true 0
            _ 7).
  - exact roundsLikeDouble_id.
  - exact unitDraws_pulseDraws.
  - vm_compute. reflexivity.
  - vm_compute. reflexivity.
Defined.

(** ** Geometry projector *)

Section ProjectorFacts.
Variable fl : Q -> Q.
Variable fround : Q -> Q.
Variable mattColor : Color.t.
Variable glowColor : Color.t.

Let project := projectEdge fl fround mattColor glowColor.
Let colorsOf := endpointColors fl mattColor glowColor.

Ltac stored :=
  unfold store;
  repeat (rewrite list_lookup_insert_ne by lia);
  first [ reflexivity
        | rewrite list_lookup_insert_eq by (rewrite ?length_insert; lia); reflexivity ].

(** Six consecutive stores fill exactly the six slots from [base] on. *)
Lemma store_six (buffer : list Q) (base : nat) (v0 v1 v2 v3 v4 v5 : Q) :
  base + 5 < length buffer ->
  let buffer' :=
    store fround (store fround (store fround (store fround (store fround
      (store fround buffer base v0) (base + 1) v1) (base + 2) v2) (base + 3) v3)
      (base + 4) v4) (base + 5) v5 in
  (forall k, k < base \/ base + 6 <= k -> buffer' !! k = buffer !! k)
  /\ (forall m, m < 6 ->
        buffer' !! (base + m) = fround <$> ([v0; v1; v2; v3; v4; v5] !! m)).
Proof.
  intros Hlen. split.
  - intros k Hk. stored.
  - intros m Hm.
    destruct m as [|[|[|[|[|[|m]]]]]]; try lia;
      rewrite ?Nat.add_0_r; simpl; stored.
Qed.

Lemma store_length (buffer : list Q) (i : nat) (v : Q) :
  length (store fround buffer i v) = length buffer.
Proof. apply length_insert. Qed.

Lemma projectEdge_colors (vs : list Vertex.t) (buffers buffers' : list Q * list Q)
    (i : nat) (edge : Edge.t) :
  project vs buffers i edge = Done buffers' ->
  length (snd buffers') = length (snd buffers)
  /\ (forall k, k < i * 6 \/ i * 6 + 6 <= k -> snd buffers' !! k = snd buffers !! k)
  /\ exists vertexFrom vertexTo,
       vs !! Edge.from edge = Some vertexFrom /\ vs !! Edge.to edge = Some vertexTo
       /\ (i * 6 + 5 < length (snd buffers) ->
           forall m, m < 6 ->
             snd buffers' !! (i * 6 + m)
             = fround <$> (colorsOf vertexFrom vertexTo edge !! m)).
Proof.
  unfold project, projectEdge.
  destruct (vs !! Edge.from edge) as [vertexFrom|]; [|discriminate].
  destruct (vs !! Edge.to edge) as [vertexTo|]; [|discriminate].
  intros H. inversion H; subst buffers'. clear H. simpl.
  split; [rewrite !store_length; reflexivity|].
  split.
  - intros k Hk. unfold store. repeat (rewrite list_lookup_insert_ne by lia). reflexivity.
  - exists vertexFrom, vertexTo. split; [reflexivity|]. split; [reflexivity|].
    intros Hlen m Hm.
    pose proof (store_six (snd buffers) (i * 6)) as Hsix.
    specialize (Hsix (Color.r (lerp fl mattColor glowColor (endpointFactor vertexFrom edge)))
                     (Color.g (lerp fl mattColor glowColor (endpointFactor vertexFrom edge)))
                     (Color.b (lerp fl mattColor glowColor (endpointFactor vertexFrom edge)))
                     (Color.r (lerp fl mattColor glowColor (endpointFactor vertexTo edge)))
                     (Color.g (lerp fl mattColor glowColor (endpointFactor vertexTo edge)))
                     (Color.b (lerp fl mattColor glowColor (endpointFactor vertexTo edge)))
                     Hlen).
    destruct Hsix as [_ Hsix]. exact (Hsix m Hm).
Qed.

Lemma forEachEdge_colors (vs : list Vertex.t) (es : list Edge.t) :
  forall (i : nat) (buffers buffers' : list Q * list Q),
    forEachEdge fl fround mattColor glowColor vs es i buffers = Done buffers' ->
    length (snd buffers') = length (snd buffers)
    /\ (forall k, k < i * 6 -> snd buffers' !! k = snd buffers !! k)
    /\ (forall j edge,
          es !! j = Some edge -> (i + j) * 6 + 5 < length (snd buffers) ->
          exists vertexFrom vertexTo,
            vs !! Edge.from edge = Some vertexFrom /\ vs !! Edge.to edge = Some vertexTo
            /\ forall m, m < 6 ->
                 snd buffers' !! ((i + j) * 6 + m)
                 = fround <$> (colorsOf vertexFrom vertexTo edge !! m)).
Proof.
  induction es as [|edge es IH]; intros i buffers buffers' Hrun; simpl in Hrun.
  - inversion Hrun; subst. split; [reflexivity|]. split; [reflexivity|].
    intros j e He. discriminate.
  - destruct (projectEdge fl fround mattColor glowColor vs buffers i edge)
      as [b1| |] eqn:Hedge; try discriminate.
    apply projectEdge_colors in Hedge as (Hlen1 & Hframe1 & vf & vt & Hvf & Hvt & Hslots).
    apply IH in Hrun as (Hlen2 & Hframe2 & Hrest).
    split; [congruence|]. split.
    + intros k Hk. rewrite Hframe2 by lia. apply Hframe1. lia.
    + intros j e He Hj. destruct j as [|j]; simpl in He.
      * inversion He; subst e. exists vf, vt. split; [exact Hvf|]. split; [exact Hvt|].
        intros m Hm. rewrite Nat.add_0_r in *.
        rewrite Hframe2 by lia. apply Hslots; [exact Hj | exact Hm].
      * replace (i + S j) with (S i + j) in * by lia.
        apply (Hrest j e He). rewrite Hlen1. exact Hj.
Qed.

End ProjectorFacts.

Lemma max_bounds (a b : Q) : (a <= Math.max a b)%Q /\ (b <= Math.max a b)%Q.
Proof. unfold Math.max. split; [apply Q.le_max_l | apply Q.le_max_r]. Qed.

(** C8: in the buffers the projector produces, the three colour slots of
    each endpoint of each edge hold the interpolation from the matte colour
    to the glow colour by the larger of that endpoint's glow intensity and
    the edge's own; that factor is at least either of the two. *)
Theorem edge_endpoint_colors
    (fl fround : Q -> Q) (mattColor glowColor : Color.t)
    (vs : list Vertex.t) (es : list Edge.t) (positions colors : list Q)
    (i : nat) (edge : Edge.t) (vertexFrom vertexTo : Vertex.t) :
  updateLineGeometry fl fround mattColor glowColor vs es = Done (positions, colors) ->
  es !! i = Some edge ->
  vs !! Edge.from edge = Some vertexFrom ->
  vs !! Edge.to edge = Some vertexTo ->
  let fromFactor := Math.max (Vertex.glowIntensity vertexFrom) (Edge.glowIntensity edge) in
  let toFactor := Math.max (Vertex.glowIntensity vertexTo) (Edge.glowIntensity edge) in
  let fromColor := lerp fl mattColor glowColor fromFactor in
  let toColor := lerp fl mattColor glowColor toFactor in
  (colors !! (i * 6) = Some (fround (Color.r fromColor))
   /\ colors !! (i * 6 + 1) = Some (fround (Color.g fromColor))
   /\ colors !! (i * 6 + 2) = Some (fround (Color.b fromColor))
   /\ colors !! (i * 6 + 3) = Some (fround (Color.r toColor))
   /\ colors !! (i * 6 + 4) = Some (fround (Color.g toColor))
   /\ colors !! (i * 6 + 5) = Some (fround (Color.b toColor)))
  /\ (Edge.glowIntensity edge <= fromFactor)%Q
  /\ (Vertex.glowIntensity vertexFrom <= fromFactor)%Q
  /\ (Edge.glowIntensity edge <= toFactor)%Q
  /\ (Vertex.glowIntensity vertexTo <= toFactor)%Q.
Proof.
  intros Hrun Hedge Hfrom Hto. unfold updateLineGeometry in Hrun.
  apply forEachEdge_colors in Hrun as (_ & _ & Hslots). simpl in Hslots.
  destruct (Hslots i edge Hedge) as (vf & vt & Hvf & Hvt & Hcol).
  { rewrite length_replicate. apply lookup_lt_Some in Hedge. lia. }
  rewrite Hfrom in Hvf. rewrite Hto in Hvt. inversion Hvf; inversion Hvt; subst vf vt.
  simpl. split.
  - pose proof (Hcol 0 ltac:(lia)) as H0. pose proof (Hcol 1 ltac:(lia)) as H1.
    pose proof (Hcol 2 ltac:(lia)) as H2. pose proof (Hcol 3 ltac:(lia)) as H3.
    pose proof (Hcol 4 ltac:(lia)) as H4. pose proof (Hcol 5 ltac:(lia)) as H5.
    rewrite Nat.add_0_r in H0. repeat split; assumption.
  - pose proof (max_bounds (Vertex.glowIntensity vertexFrom) (Edge.glowIntensity edge)).
    pose proof (max_bounds (Vertex.glowIntensity vertexTo) (Edge.glowIntensity edge)).
    tauto.
Qed.

Lemma edge_endpoint_colors_witness :
  exists positions colors,
    updateLineGeometry (fun q => q) (fun q => q) sampleMatt sampleGlow
      [Vertex.mk origin origin origin [1] true (1 # 2);
       Vertex.mk origin origin origin [0] false 0]
      [Edge.mk 0 1 true (1 # 4)] = Done (positions, colors)
    /\ (colors !! 0 = Some (Color.r (lerp (fun q => q) sampleMatt sampleGlow
                                       (Math.max (1 # 2) (1 # 4))))
        /\ colors !! 3 = Some (Color.r (lerp (fun q => q) sampleMatt sampleGlow
                                          (Math.max 0 (1 # 4)))))
    /\ (1 # 4 <= Math.max (1 # 2) (1 # 4))%Q /\ (1 # 2 <= Math.max (1 # 2) (1 # 4))%Q.
Proof.
  eexists. eexists. split; [reflexivity|].
  pose proof (edge_endpoint_colors (fun q => q) (fun q => q) sampleMatt sampleGlow
    [Vertex.mk origin origin origin [1] true (1 # 2);
     Vertex.mk origin origin origin [0] false 0]
    [Edge.mk 0 1 true (1 # 4)] _ _ 0 (Edge.mk 0 1 true (1 # 4))
    (Vertex.mk origin origin origin [1] true (1 # 2))
    (Vertex.mk origin origin origin [0] false 0)
    eq_refl eq_refl eq_refl eq_refl) as H.
  simpl in H. destruct H as ((H0 & _ & _ & H3 & _) & He & Hv & _).
  split; [split; [exact H0 | exact H3] | split; [exact He | exact Hv]].
Defined.

(** ** Lifecycle state machine *)

Section LifecycleFacts.
Import Lifecycle.
Variable n : nat.

Lemma countPending_app (cb : Callback) (l1 l2 : list Task) :
  countPending cb (l1 ++ l2) = countPending cb l1 + countPending cb l2.
Proof.
  unfold countPending. induction l1 as [|a l1 IH]; simpl; [reflexivity|].
  destruct (sameCallback cb a); simpl; rewrite IH; reflexivity.
Qed.

Lemma countPending_cons (cb : Callback) (a : Task) (l : list Task) :
  countPending cb (a :: l) = (if sameCallback cb a then 1 else 0) + countPending cb l.
Proof. unfold countPending. simpl. destruct (sameCallback cb a); reflexivity. Qed.

Lemma countPending_split (cb : Callback) (before after : list Task) (task : Task) :
  countPending cb (before ++ task :: after)
  = (if sameCallback cb task then 1 else 0) + countPending cb (before ++ after).
Proof. rewrite !countPending_app, countPending_cons. lia. Qed.

Lemma countPending_none (cb : Callback) (l : list Task) :
  (forall task, task ∈ l -> sameCallback cb task = false) -> countPending cb l = 0.
Proof.
  induction l as [|a l IH]; intros H; [reflexivity|].
  rewrite countPending_cons, (H a) by left. apply IH. intros t Ht. apply H. right. exact Ht.
Qed.

Lemma countPending_zero (cb : Callback) (l : list Task) (task : Task) :
  countPending cb l = 0 -> task ∈ l -> sameCallback cb task = false.
Proof.
  induction l as [|a l IH]; intros H Hin; [inversion Hin|].
  rewrite countPending_cons in H. apply elem_of_cons in Hin as [->|Hin].
  - destruct (sameCallback cb a); [lia | reflexivity].
  - apply IH; [lia | exact Hin].
Qed.

Lemma countPending_unmount (cb : Callback) (l : list Task) :
  cb <> glowTimeout ->
  countPending cb (List.filter (fun task => negb (isGlowTimeout task)) l)
  = countPending cb l.
Proof.
  intros Hcb. induction l as [|a l IH]; [reflexivity|]. simpl.
  rewrite countPending_cons, <- IH.
  destruct (isGlowTimeout a) eqn:Hg; simpl.
  - unfold isGlowTimeout in Hg. unfold sameCallback.
    destruct cb, (callback a); try discriminate; try reflexivity. congruence.
  - rewrite countPending_cons. reflexivity.
Qed.

Lemma sameCallback_spec (cb : Callback) (task : Task) :
  sameCallback cb task = true <-> callback task = cb.
Proof.
  unfold sameCallback. destruct cb, (callback task);
    try (split; [discriminate | congruence]); try (split; reflexivity).
  rewrite Nat.eqb_eq. split; congruence.
Qed.

Lemma sameCallback_other (cb : Callback) (task : Task) :
  callback task <> cb -> sameCallback cb task = false.
Proof.
  intros H. destruct (sameCallback cb task) eqn:E; [|reflexivity].
  apply sameCallback_spec in E. contradiction.
Qed.

(** The tweens [setCircleTargets] starts. *)
Lemma setCircleTargets_spec (m : nat) (t : Z) (w : World) :
  setCircleTargets m t w
  = mkWorld (now w) (stageRef w)
      (pending w ++ ((fun i => mkTask (t + formingMs) (positionComplete i)) <$> seq 0 m))
      (stageWrites w).
Proof.
  unfold setCircleTargets. generalize 0 as a. revert w.
  induction m as [|m IH]; intros w a; simpl.
  - rewrite app_nil_r. destruct w; reflexivity.
  - rewrite IH. simpl. rewrite <- app_assoc. reflexivity.
Qed.

Lemma count_tweens (t : Z) (k a m : nat) :
  countPending (positionComplete k)
    ((fun i => mkTask (t + formingMs) (positionComplete i)) <$> seq a m)
  = if (a <=? k) && (k <? a + m) then 1 else 0.
Proof.
  revert a. induction m as [|m IH]; intros a.
  - unfold countPending. simpl.
    destruct (Nat.leb_spec a k), (Nat.ltb_spec k (a + 0)); simpl; lia.
  - change (seq a (S m)) with (a :: seq (S a) m). rewrite fmap_cons.
    rewrite countPending_cons, IH.
    change (sameCallback (positionComplete k)
              (mkTask (t + formingMs) (positionComplete a))) with (k =? a).
    destruct (Nat.eqb_spec k a), (Nat.leb_spec (S a) k), (Nat.ltb_spec k (S a + m)),
             (Nat.leb_spec a k), (Nat.ltb_spec k (a + S m)); simpl; lia.
Qed.

Lemma elem_of_removed (before after : list Task) (task x : Task) :
  x ∈ before ++ after -> x ∈ before ++ task :: after.
Proof. rewrite !elem_of_app, elem_of_cons. tauto. Qed.

Lemma elem_of_unmount (l : list Task) (x : Task) :
  x ∈ List.filter (fun task => negb (isGlowTimeout task)) l -> x ∈ l.
Proof.
  rewrite !list_elem_of_In, filter_In. tauto.
Qed.

End LifecycleFacts.

Section LifecycleSteps.
Import Lifecycle.
Variable n : nat.

(** The phase only depends on which stage-writing callbacks are pending. *)
Lemma phase_shrink (w : World) (t : Z) (tasks : list Task) :
  phase n w ->
  (forall task, task ∈ tasks -> task ∈ pending w) ->
  countPending formingTimeout tasks = countPending formingTimeout (pending w) ->
  countPending (positionComplete (n - 1)) tasks
    = countPending (positionComplete (n - 1)) (pending w) ->
  phase n (mkWorld t (stageRef w) tasks (stageWrites w)).
Proof.
  intros [A|[B|C]] Hsub Hf Hl.
  - left. destruct A as (Hs & Hw & Hc & Hdue & Hno).
    unfold phaseInitializing. simpl. repeat split; eauto; congruence.
  - right. left. destruct B as (t1 & Ht1 & Hs & Hw & Hc & Hlast & Hdue).
    exists t1. simpl. repeat split; eauto; congruence.
  - right. right. destruct C as (t1 & t2 & Ht1 & Ht2 & Hs & Hw & Hc & Hlast).
    exists t1, t2. simpl. repeat split; auto; congruence.
Qed.

Lemma phase_grow (w : World) (task : Task) :
  phase n w ->
  callback task <> formingTimeout ->
  (forall i, callback task <> positionComplete i) ->
  phase n (schedule task w).
Proof.
  intros Hphase Hf Hp.
  assert (Hcount : forall cb, callback task <> cb ->
            countPending cb (pending w ++ [task]) = countPending cb (pending w)).
  { intros cb Hcb. rewrite countPending_app, countPending_cons.
    rewrite (sameCallback_other cb task Hcb). unfold countPending. simpl. lia. }
  destruct Hphase as [A|[B|C]].
  - left. destruct A as (Hs & Hw & Hc & Hdue & Hno).
    unfold phaseInitializing, schedule. simpl.
    rewrite Hcount by exact Hf. repeat split; auto.
    + intros x Hx Hcb. apply elem_of_app in Hx as [Hx|Hx]; [auto|].
      apply list_elem_of_singleton in Hx. subst x. contradiction.
    + intros x i Hx. apply elem_of_app in Hx as [Hx|Hx]; [apply Hno; exact Hx|].
      apply list_elem_of_singleton in Hx. subst x. apply Hp.
  - right. left. destruct B as (t1 & Ht1 & Hs & Hw & Hc & Hlast & Hdue).
    exists t1. unfold schedule. simpl.
    rewrite !Hcount by auto. repeat split; auto.
    intros x i Hx Hcb. apply elem_of_app in Hx as [Hx|Hx]; [eapply Hdue; eauto|].
    apply list_elem_of_singleton in Hx. subst x. destruct (Hp i Hcb).
  - right. right. destruct C as (t1 & t2 & Ht1 & Ht2 & Hs & Hw & Hc & Hlast).
    exists t1, t2. unfold schedule. simpl.
    rewrite !Hcount by auto. repeat split; auto.
Qed.

Lemma phase_mount (dFrame dGlow : Z) : phase n (mount dFrame dGlow).
Proof.
  left. unfold phaseInitializing, mount. simpl. repeat split.
  - intros task Hin Hcb. repeat (apply elem_of_cons in Hin as [->|Hin]);
      try discriminate; try reflexivity. inversion Hin.
  - intros task i Hin. repeat (apply elem_of_cons in Hin as [->|Hin]);
      try discriminate. inversion Hin.
Qed.

Lemma step_phase (w w' : World) :
  0 < n -> phase n w -> step n w w' -> phase n w'.
Proof.
  intros n_positive Hphase Hstep. destruct Hstep as [w task t d before after Hpend Hnow Hdue Hd| |].
  - assert (Hin : task ∈ pending w).
    { rewrite Hpend, elem_of_app, elem_of_cons. auto. }
    assert (Hsub : forall x, x ∈ before ++ after -> x ∈ pending w).
    { intros x Hx. rewrite Hpend. eapply elem_of_removed. exact Hx. }
    assert (Hcount : forall cb,
              countPending cb (pending w)
              = (if sameCallback cb task then 1 else 0) + countPending cb (before ++ after)).
    { intros cb. rewrite Hpend. apply countPending_split. }
    set (w0 := mkWorld t (stageRef w) (before ++ after) (stageWrites w)).
    destruct (callback task) as [|i| |] eqn:Hcb; simpl.
    + (* the forming timer fires *)
      destruct Hphase as [A|[B|C]].
      * destruct A as (Hs & Hw & Hc & Hdue0 & Hno).
        right. left. exists t. rewrite setCircleTargets_spec. simpl.
        rewrite (Hdue0 task Hin Hcb) in Hdue.
        rewrite Hcount in Hc. rewrite (proj2 (sameCallback_spec formingTimeout task) Hcb) in Hc.
        rewrite Hw, !(countPending_app _ (before ++ after)).
        rewrite (countPending_none (positionComplete (n - 1)) (before ++ after)).
        2: { intros x Hx. apply sameCallback_other. intros E. exact (Hno x _ (Hsub x Hx) E). }
        rewrite count_tweens.
        rewrite (countPending_none formingTimeout (_ <$> _)).
        2: { intros x Hx. apply list_elem_of_fmap in Hx as (k & -> & _). reflexivity. }
        replace ((0 <=? n - 1) && (n - 1 <? 0 + n)) with true.
        2: { symmetry. apply andb_true_iff. split; [apply Nat.leb_le | apply Nat.ltb_lt]; lia. }
        repeat split; auto; try lia.
        intros x k Hx Hk. apply elem_of_app in Hx as [Hx|Hx].
        -- destruct (Hno x k (Hsub x Hx) Hk).
        -- apply list_elem_of_fmap in Hx as (j & -> & _). reflexivity.
      * destruct B as (t1 & _ & _ & _ & Hc & _).
        pose proof (countPending_zero _ _ task Hc Hin) as E.
        rewrite (proj2 (sameCallback_spec formingTimeout task) Hcb) in E. discriminate.
      * destruct C as (t1 & t2 & _ & _ & _ & _ & Hc & _).
        pose proof (countPending_zero _ _ task Hc Hin) as E.
        rewrite (proj2 (sameCallback_spec formingTimeout task) Hcb) in E. discriminate.
    + (* the tween of vertex i completes *)
      destruct (Z.of_nat i =? Z.of_nat n - 1)%Z eqn:Hi.
      * apply Z.eqb_eq in Hi. assert (i = n - 1) by lia. subst i. clear Hi.
        assert (Hsame := proj2 (sameCallback_spec (positionComplete (n - 1)) task) Hcb).
        destruct Hphase as [A|[B|C]].
        -- destruct A as (_ & _ & _ & _ & Hno). destruct (Hno task _ Hin Hcb).
        -- destruct B as (t1 & Ht1 & Hs & Hw & Hc & Hlast & Hdue1).
           right. right. exists t1, t. simpl.
           rewrite (Hdue1 task _ Hin Hcb) in Hdue.
           rewrite Hcount, Hsame in Hlast. rewrite Hcount in Hc.
           rewrite (sameCallback_other formingTimeout task) in Hc by congruence.
           rewrite Hw. repeat split; auto; lia.
        -- destruct C as (t1 & t2 & _ & _ & _ & _ & _ & Hlast).
           pose proof (countPending_zero _ _ task Hlast Hin) as E. congruence.
      * apply Z.eqb_neq in Hi. assert (i <> n - 1) by lia.
        apply (phase_shrink w t (before ++ after) Hphase Hsub).
        -- rewrite Hcount, sameCallback_other by congruence. reflexivity.
        -- rewrite Hcount, sameCallback_other by congruence. reflexivity.
    + (* the glow timer fires *)
      apply phase_grow; [|discriminate|discriminate].
      apply (phase_shrink w t (before ++ after) Hphase Hsub);
        rewrite Hcount, sameCallback_other by congruence; reflexivity.
    + (* a frame is presented *)
      apply phase_grow; [|discriminate|discriminate].
      apply (phase_shrink w t (before ++ after) Hphase Hsub);
        rewrite Hcount, sameCallback_other by congruence; reflexivity.
  - apply phase_shrink; auto.
  - apply phase_shrink; auto using elem_of_unmount;
      apply countPending_unmount; discriminate.
Qed.

End LifecycleSteps.

(** C5: from activation on, whatever the host does, the stage has been
    written either never (initializing, the 2000 ms timer still pending
    once), or once (forming, written by that timer no earlier than 2000 ms,
    the completion of the last-indexed vertex still pending once), or twice
    (stable, written by the completion callback of vertex 49 no earlier than
    15 s later); no stage-writing callback is pending after that, so the
    stage never goes back. *)
Theorem lifecycle_transitions (dFrame dGlow : Z) (w : Lifecycle.World) :
  rtc (Lifecycle.step numVertices) (Lifecycle.mount dFrame dGlow) w ->
  (Lifecycle.stageRef w = Lifecycle.initializing
   /\ Lifecycle.stageWrites w = []
   /\ Lifecycle.countPending Lifecycle.formingTimeout (Lifecycle.pending w) = 1
   /\ (forall task, task ∈ Lifecycle.pending w ->
         Lifecycle.callback task = Lifecycle.formingTimeout ->
         Lifecycle.due task = 2000%Z))
  \/ (exists t1 : Z,
        (2000 <= t1)%Z
        /\ Lifecycle.stageRef w = Lifecycle.forming
        /\ Lifecycle.stageWrites w = [(t1, Lifecycle.formingTimeout, Lifecycle.forming)]
        /\ Lifecycle.countPending Lifecycle.formingTimeout (Lifecycle.pending w) = 0
        /\ Lifecycle.countPending (Lifecycle.positionComplete 49) (Lifecycle.pending w) = 1
        /\ (forall task, task ∈ Lifecycle.pending w ->
              Lifecycle.callback task = Lifecycle.positionComplete 49 ->
              Lifecycle.due task = (t1 + 15000)%Z))
  \/ (exists t1 t2 : Z,
        (2000 <= t1)%Z /\ (t1 + 15000 <= t2)%Z
        /\ Lifecycle.stageRef w = Lifecycle.stable
        /\ Lifecycle.stageWrites w =
             [(t1, Lifecycle.formingTimeout, Lifecycle.forming);
              (t2, Lifecycle.positionComplete 49, Lifecycle.stable)]
        /\ Lifecycle.countPending Lifecycle.formingTimeout (Lifecycle.pending w) = 0
        /\ Lifecycle.countPending (Lifecycle.positionComplete 49) (Lifecycle.pending w) = 0).
Proof.
  intros Hreach.
  assert (Hphase : Lifecycle.phase numVertices w).
  { revert w Hreach. apply rtc_ind_r.
    - apply phase_mount.
    - intros y z _ Hstep Hy. apply (step_phase numVertices y z); [unfold numVertices; lia | exact Hy | exact Hstep]. }
  change (numVertices - 1) with 49 in *.
  destruct Hphase as [A|[B|C]].
  - left. destruct A as (Hs & Hw & Hc & Hdue & _). auto.
  - right. left. destruct B as (t1 & Ht1 & Hs & Hw & Hc & Hlast & Hdue).
    exists t1. change (numVertices - 1) with 49 in *.
    change Lifecycle.formingMs with 15000%Z in Hdue. repeat split; eauto.
  - right. right. destruct C as (t1 & t2 & Ht1 & Ht2 & Hs & Hw & Hc & Hlast).
    exists t1, t2. change (numVertices - 1) with 49 in *.
    change Lifecycle.formingMs with 15000%Z in Ht2. repeat split; auto.
Qed.

(** A run in which both transitions happen at their due times. *)
Lemma sampleRun_reachable :
  rtc (Lifecycle.step numVertices) (Lifecycle.mount 16 3000) afterStable.
Proof.
  eapply rtc_l; [|eapply rtc_l; [|apply rtc_refl]].
  - apply (Lifecycle.step_fire numVertices (Lifecycle.mount 16 3000)
             (Lifecycle.mkTask 2000 Lifecycle.formingTimeout) 2000 0
             [Lifecycle.mkTask 16 Lifecycle.animationFrame]
             [Lifecycle.mkTask 3000 Lifecycle.glowTimeout]);
      [reflexivity | simpl; lia | simpl; lia | exact I].
  - apply (Lifecycle.step_fire numVertices afterForming
             (Lifecycle.mkTask 17000 (Lifecycle.positionComplete 49)) 17000 0
             (removelast (Lifecycle.pending afterForming)) []);
      [vm_compute; reflexivity | vm_compute; discriminate | simpl; lia | exact I].
Qed.

Lemma lifecycle_transitions_witness :
  exists t1 t2 : Z,
    (2000 <= t1)%Z /\ (t1 + 15000 <= t2)%Z
    /\ Lifecycle.stageRef afterStable = Lifecycle.stable
    /\ Lifecycle.stageWrites afterStable =
         [(t1, Lifecycle.formingTimeout, Lifecycle.forming);
          (t2, Lifecycle.positionComplete 49, Lifecycle.stable)].
Proof.
  destruct (lifecycle_transitions 16 3000 afterStable sampleRun_reachable)
    as [(Hs & _)|[(t1 & _ & Hs & _)|(t1 & t2 & H1 & H2 & Hs & Hw & _)]].
  - vm_compute in Hs. discriminate.
  - vm_compute in Hs. discriminate.
  - exists t1, t2. auto.
Defined.

(** ** Glow pulse on one object *)

Lemma ratio_unit (e : Pulse.Ease) (p : Q) :
  (0 <= p)%Q -> (p <= 1)%Q -> (0 <= Pulse.ratio e p)%Q /\ (Pulse.ratio e p <= 1)%Q.
Proof.
  intros H0 H1.
  assert (Hp : (0 <= p * p)%Q /\ (p * p <= 1)%Q) by (split; nra).
  assert (Hq : (0 <= (1 - p) * (1 - p))%Q /\ ((1 - p) * (1 - p) <= 1)%Q) by (split; nra).
  destruct e; simpl; split; nra.
Qed.

Lemma ratio_end (e : Pulse.Ease) (p : Q) : (p == 1)%Q -> (Pulse.ratio e p == 1)%Q.
Proof. intros Hp. destruct e; simpl; rewrite Hp; reflexivity. Qed.

Lemma blend_unit (s e r : Q) :
  (0 <= s)%Q -> (s <= 1)%Q -> (0 <= e)%Q -> (e <= 1)%Q -> (0 <= r)%Q -> (r <= 1)%Q ->
  (0 <= s + (e - s) * r)%Q /\ (s + (e - s) * r <= 1)%Q.
Proof. intros. split; nra. Qed.

Lemma tweenOk_fadeIn : tweenOk Pulse.fadeIn.
Proof.
  unfold tweenOk, Pulse.fadeIn. simpl.
  split; [discriminate|]. split; [lra|]. split; [lra|].
  split; [discriminate | reflexivity].
Qed.

Lemma tweenOk_fadeOut : tweenOk Pulse.fadeOut.
Proof.
  unfold tweenOk, Pulse.fadeOut. simpl.
  split; [discriminate|]. split; [lra|]. split; [lra|].
  split; [reflexivity | discriminate].
Qed.

Lemma glowOk_complete (c : Pulse.Completion) (o : Pulse.Obj) :
  glowOk o -> glowOk (Pulse.complete c o).
Proof.
  intros [Hi Ht]. destruct c; split; simpl; try assumption.
  apply Forall_app. split; [exact Ht|].
  constructor; [apply tweenOk_fadeOut | constructor].
Qed.

Lemma glowOk_step (o : Pulse.Obj) (ev : Pulse.Event) :
  Pulse.legal ev -> glowOk o -> glowOk (Pulse.step o ev).
Proof.
  intros Hev [Hi Ht]. destruct ev as [| |k p]; simpl.
  - split; [split; simpl; lra | exact Ht].
  - split; [exact Hi|]. simpl. apply Forall_app. split; [exact Ht|].
    constructor; [apply tweenOk_fadeIn | constructor].
  - destruct (Pulse.tweens o !! k) as [tw|] eqn:Hk; [|split; assumption].
    destruct (Forall_lookup_1 _ _ _ _ Ht Hk) as (Hstart & He0 & He1 & Hclear & Hfade).
    assert (Hs : (0 <= default (Pulse.glowIntensity o) (Pulse.startValue tw))%Q
                 /\ (default (Pulse.glowIntensity o) (Pulse.startValue tw) <= 1)%Q).
    { destruct (Pulse.startValue tw) as [s|]; simpl; [apply Hstart; reflexivity | exact Hi]. }
    destruct Hev as [Hp0 Hp1].
    destruct (ratio_unit (Pulse.ease tw) p Hp0 Hp1) as [Hr0 Hr1].
    assert (Hv := blend_unit _ (Pulse.endValue tw) _
                    (proj1 Hs) (proj2 Hs) He0 He1 Hr0 Hr1).
    destruct (Qeq_bool p 1).
    + apply glowOk_complete. split; [exact Hv|]. simpl. apply Forall_delete. exact Ht.
    + split; [exact Hv|]. simpl. apply Forall_insert; [exact Ht|].
      unfold tweenOk. simpl.
      split; [|split; [exact He0 | split; [exact He1 | split; [exact Hclear | exact Hfade]]]].
      intros s E. inversion E; subst. exact Hs.
Qed.

Lemma glowOk_run (evs : list Pulse.Event) :
  forall o, glowOk o -> Forall Pulse.legal evs -> glowOk (foldl Pulse.step o evs).
Proof.
  induction evs as [|ev evs IH]; intros o Ho Hevs; simpl; [exact Ho|].
  inversion Hevs; subst. apply IH; [apply glowOk_step|]; assumption.
Qed.

(** C6: whatever pulses are triggered on a vertex or edge and however their
    tweens progress, its glow intensity stays within [0, 1]; when a
    fade-out tween completes, the object has glowing = false and glow
    intensity 0; when a fade-in tween completes, the glow intensity is 1
    and the fade-out is started; and in a pulse on its own the fade-in
    takes the intensity from 0 to 1 along [power2.out] and the fade-out
    from 1 to 0 along [power2.in]. *)
Theorem glow_intensity_bounded (evs : list Pulse.Event) :
  Forall Pulse.legal evs ->
  let o := Pulse.runEvents evs in
  ((0 <= Pulse.glowIntensity o)%Q /\ (Pulse.glowIntensity o <= 1)%Q)
  /\ (forall k tw p,
       Pulse.tweens o !! k = Some tw ->
       Pulse.onComplete tw = Pulse.thenClearGlowing ->
       (p == 1)%Q ->
       Pulse.glowing (Pulse.step o (Pulse.render k p)) = false
       /\ (Pulse.glowIntensity (Pulse.step o (Pulse.render k p)) == 0)%Q)
  /\ (forall k tw p,
       Pulse.tweens o !! k = Some tw ->
       Pulse.onComplete tw = Pulse.thenFadeOut ->
       (p == 1)%Q ->
       (Pulse.glowIntensity (Pulse.step o (Pulse.render k p)) == 1)%Q
       /\ Pulse.tweens (Pulse.step o (Pulse.render k p))
          = delete k (Pulse.tweens o) ++ [Pulse.fadeOut])
  /\ (forall p,
       (Pulse.glowIntensity
          (Pulse.runEvents [Pulse.reset; Pulse.select; Pulse.render 0 p])
        == 1 - (1 - p) * (1 - p) * (1 - p))%Q
       /\ (Pulse.glowIntensity
            (Pulse.runEvents [Pulse.reset; Pulse.select; Pulse.render 0 1;
                              Pulse.render 0 p])
          == 1 - p * p * p)%Q).
Proof.
  intros Hevs o.
  assert (Hok : glowOk o).
  { apply glowOk_run; [|exact Hevs]. split; [split; simpl; lra | constructor]. }
  destruct Hok as [Hi Ht]. split; [exact Hi|]. split; [|split].
  - intros k tw p Hk Hclear Hp. simpl. rewrite Hk.
    destruct (Forall_lookup_1 _ _ _ _ Ht Hk) as (_ & _ & _ & Hend & _).
    specialize (Hend Hclear).
    assert (Hb : Qeq_bool p 1 = true) by (apply Qeq_bool_iff; exact Hp).
    rewrite Hb, Hclear. simpl. split; [reflexivity|].
    rewrite (ratio_end _ _ Hp), Hend. ring.
  - intros k tw p Hk Hfade Hp. simpl. rewrite Hk.
    destruct (Forall_lookup_1 _ _ _ _ Ht Hk) as (_ & _ & _ & _ & Hend).
    specialize (Hend Hfade).
    assert (Hb : Qeq_bool p 1 = true) by (apply Qeq_bool_iff; exact Hp).
    rewrite Hb, Hfade. simpl. split; [|reflexivity].
    rewrite (ratio_end _ _ Hp), Hend. ring.
  - intros p. split.
    + unfold Pulse.runEvents. simpl. destruct (Qeq_bool p 1); simpl; ring.
    + unfold Pulse.runEvents. simpl. destruct (Qeq_bool p 1); simpl; ring.
Qed.

Lemma glow_intensity_bounded_witness :
  ((0 <= Pulse.glowIntensity (Pulse.runEvents samplePulse))%Q
   /\ (Pulse.glowIntensity (Pulse.runEvents samplePulse) <= 1)%Q)
  /\ Pulse.glowing
       (Pulse.step (Pulse.runEvents samplePulse) (Pulse.render 0 1)) = false
  /\ (Pulse.glowIntensity
        (Pulse.step (Pulse.runEvents samplePulse) (Pulse.render 0 1)) == 0)%Q.
Proof.
  assert (Hlegal : Forall Pulse.legal samplePulse).
  { unfold samplePulse. repeat constructor; simpl; discriminate. }
  destruct (glow_intensity_bounded samplePulse Hlegal) as (Hbound & Hdone & _).
  split; [exact Hbound|].
  eapply (Hdone 0 _ 1%Q); [vm_compute; reflexivity | reflexivity | reflexivity].
Defined.

Example samplePulse_values :
  (Pulse.glowIntensity (Pulse.runEvents [Pulse.reset; Pulse.select]) == 0)%Q
  /\ (Pulse.glowIntensity
        (Pulse.runEvents [Pulse.reset; Pulse.select; Pulse.render 0 (1 # 2)]) == 7 # 8)%Q
  /\ (Pulse.glowIntensity
        (Pulse.runEvents [Pulse.reset; Pulse.select; Pulse.render 0 (1 # 2);
                          Pulse.render 0 1]) == 1)%Q
  /\ (Pulse.glowIntensity (Pulse.runEvents samplePulse) == 7 # 8)%Q
  /\ Pulse.glowing (Pulse.runEvents samplePulse) = true.
Proof. repeat split; vm_compute; reflexivity. Qed.

(** * Further properties *)

(** ** Glow propagator *)

(** X1: when the product is rounded to a nearest double, the cap of a
    pulse lies between 5 and 14, for every draw. *)
Theorem cap_between_5_and_14 (fl : Q -> Q) (r : Q) :
  roundsToNearest fl -> (0 <= r)%Q -> (r <= belowOne)%Q ->
  5 <= Glow.pickCap fl r /\ Glow.pickCap fl r <= 14.
Proof. intros Hfl H0 H1. pose proof (pickCap_range fl r Hfl H0 H1). lia. Qed.

Lemma cap_between_5_and_14_witness :
  5 <= Glow.pickCap roundDouble double07 /\ Glow.pickCap roundDouble double07 <= 14.
Proof.
  apply cap_between_5_and_14;
    [exact roundsToNearest_roundDouble | | ]; unfold double07, belowOne; lra.
Defined.

Lemma start_vertex_in_range_aux (fl : Q -> Q) (r : Q) (n : nat) :
  roundsToNearest fl -> (0 <= r)%Q -> (r <= belowOne)%Q ->
  0 < n -> (Z.of_nat n <= 2 ^ 53)%Z ->
  Glow.pickStart fl r n < n.
Proof.
  intros Hfl H0 H1 Hn Hmax. unfold Glow.pickStart, Math.floor.
  destruct (rounded_product_below fl r (Z.of_nat n) Hfl H0 H1 ltac:(lia)) as [Hlo Hhi].
  apply Qfloor_nonneg in Hlo. apply Qfloor_below in Hhi.
  lia.
Qed.

(** X2: when the product is rounded to a nearest double, the start vertex
    drawn for a pulse is an index of the vertex array, provided the array
    is not empty (and has at most 2^53 elements, as every array has): the
    product of the largest draw and the length rounds to less than the
    length. *)
Theorem start_vertex_in_range (fl : Q -> Q) (r : Q) (n : nat) :
  roundsToNearest fl -> (0 <= r)%Q -> (r <= belowOne)%Q ->
  0 < n -> (Z.of_nat n <= 2 ^ 53)%Z ->
  Glow.pickStart fl r n < n.
Proof. apply start_vertex_in_range_aux. Qed.

Lemma start_vertex_in_range_witness : Glow.pickStart roundDouble belowOne 50 < 50.
Proof.
  apply start_vertex_in_range;
    [exact roundsToNearest_roundDouble | unfold belowOne; lra | unfold belowOne; lra
    | lia | lia].
Defined.

(** At the double 0.7 the rounded products are 35 and 7, where the exact
    ones are just below: the start vertex is 35 and the cap 12. *)
Example rounded_picks :
  Glow.pickStart roundDouble double07 50 = 35
  /\ Glow.pickCap roundDouble double07 = 12
  /\ Glow.pickStart (fun q => q) double07 50 = 34
  /\ Glow.pickCap (fun q => q) double07 = 11.
Proof. repeat split; vm_compute; reflexivity. Qed.

Section TraversalInvariant.
Variable rand : RandomSource.
Variable vs : list Vertex.t.
Variable es : list Edge.t.
Variable cap : nat.
(** What is known of the vertex a call is made on, and of the accumulators. *)
Variable I : nat -> nat -> Prop.
Variable P : Glow.Sel -> Prop.

Hypothesis P_random : forall st, P st -> P (snd (Glow.random rand st)).
Hypothesis P_mark :
  forall index depth vertex c st,
    I index depth -> vs !! index = Some vertex -> c ∈ Vertex.connections vertex ->
    c ∈ Glow.nodesToGlow st -> P st -> P (Glow.markSelected es index c st).
Hypothesis P_include :
  forall index depth vertex c st,
    I index depth -> depth <= 2 -> vs !! index = Some vertex ->
    c ∈ Vertex.connections vertex -> c ∉ Glow.nodesToGlow st ->
    Math.gt (rand (Glow.cursor st)) Glow.threshold = true -> P st ->
    P (Glow.includeNeighbor es index c (snd (Glow.random rand st)))
    /\ I c (depth + 1).

Lemma forConnections_invariant (rec : nat -> nat -> Glow.Sel -> outcome Glow.Sel)
    (index depth : nat) (vertex : Vertex.t) :
  I index depth -> depth <= 2 -> vs !! index = Some vertex ->
  (forall i st st', I i (depth + 1) -> P st -> rec i (depth + 1) st = Done st' -> P st') ->
  forall conns st st',
    (forall c, c ∈ conns -> c ∈ Vertex.connections vertex) ->
    P st ->
    Glow.forConnections rand es cap rec index depth conns st = Done st' -> P st'.
Proof using P_random P_mark P_include.
  intros HI Hd Hv Hrec conns.
  induction conns as [|c rest IH]; intros st st' Hsub HP Hrun; simpl in Hrun.
  - inversion Hrun; subst. exact HP.
  - assert (Hc : c ∈ Vertex.connections vertex) by (apply Hsub; left).
    assert (Hrest : forall a, a ∈ rest -> a ∈ Vertex.connections vertex)
      by (intros a Ha; apply Hsub; right; exact Ha).
    destruct (includes (Glow.nodesToGlow st) c) eqn:Hin.
    + apply includes_spec in Hin.
      apply (IH _ _ Hrest (P_mark index depth vertex c st HI Hv Hc Hin HP) Hrun).
    + apply includes_false in Hin.
      destruct (Math.gt (rand (Glow.cursor st)) Glow.threshold) eqn:Hgt.
      2: { exact (IH _ _ Hrest (P_random st HP) Hrun). }
      destruct (P_include index depth vertex c st HI Hd Hv Hc Hin Hgt HP) as [HP2 HI2].
      match type of Hrun with context [Nat.ltb ?a ?b] => destruct (Nat.ltb a b) end.
      * match type of Hrun with context [rec ?a ?b ?c] =>
          destruct (rec a b c) as [st3| |] eqn:Hcall end; try discriminate.
        exact (IH _ _ Hrest (Hrec _ _ _ HI2 HP2 Hcall) Hrun).
      * exact (IH _ _ Hrest HP2 Hrun).
Qed.

Lemma addConnectedVertices_invariant (fuel : nat) :
  forall index depth st st',
    I index depth -> P st ->
    Glow.addConnectedVertices rand vs es cap fuel index depth st = Done st' -> P st'.
Proof using P_random P_mark P_include.
  induction fuel as [|fuel IH]; intros index depth st st' HI HP Hrun;
    simpl in Hrun; [discriminate|].
  destruct (2 <? depth) eqn:Hd; simpl in Hrun.
  { inversion Hrun; subst. exact HP. }
  destruct (cap <=? length (Glow.nodesToGlow st)).
  { inversion Hrun; subst. exact HP. }
  destruct (vs !! index) as [vertex|] eqn:Hv; [|discriminate].
  apply Nat.ltb_ge in Hd.
  eapply (forConnections_invariant _ index depth vertex); eauto.
Qed.

End TraversalInvariant.

Lemma includeNeighbor_nodes (es : list Edge.t) (index c : nat) (st : Glow.Sel) :
  Glow.nodesToGlow (Glow.includeNeighbor es index c st) = Glow.nodesToGlow st ++ [c].
Proof. unfold Glow.includeNeighbor. destruct (findIndex _ es); reflexivity. Qed.

Lemma markSelected_nodes (es : list Edge.t) (index c : nat) (st : Glow.Sel) :
  Glow.nodesToGlow (Glow.markSelected es index c st) = Glow.nodesToGlow st.
Proof.
  unfold Glow.markSelected. destruct (findIndex _ es) as [e|]; [|reflexivity].
  destruct (includes _ e); reflexivity.
Qed.

Lemma includeNeighbor_edges (es : list Edge.t) (index c : nat) (st : Glow.Sel) (e : nat) :
  e ∈ Glow.edgesToGlow (Glow.includeNeighbor es index c st) ->
  e ∈ Glow.edgesToGlow st \/ findIndex (joins index c) es = Some e.
Proof.
  unfold Glow.includeNeighbor. destruct (findIndex _ es) as [k|]; simpl; [|auto].
  rewrite elem_of_app, list_elem_of_singleton. intros [H| ->]; auto.
Qed.

Lemma markSelected_edges (es : list Edge.t) (index c : nat) (st : Glow.Sel) (e : nat) :
  e ∈ Glow.edgesToGlow (Glow.markSelected es index c st) ->
  e ∈ Glow.edgesToGlow st \/ findIndex (joins index c) es = Some e.
Proof.
  unfold Glow.markSelected. destruct (findIndex _ es) as [k|]; simpl; [|auto].
  destruct (includes _ k); simpl; [auto|].
  rewrite elem_of_app, list_elem_of_singleton. intros [H| ->]; auto.
Qed.

Lemma findIndex_lt {A : Type} (p : A -> bool) (arr : list A) (i : nat) :
  findIndex p arr = Some i -> i < length arr.
Proof.
  intros H. apply findIndex_Some in H as (a & Ha & _). eapply lookup_lt_Some; eauto.
Qed.

Lemma existsb_findIndex {A : Type} (p : A -> bool) (arr : list A) :
  existsb p arr = true -> exists i, findIndex p arr = Some i.
Proof.
  induction arr as [|a arr IH]; simpl; [discriminate|].
  destruct (p a); [eauto|]. simpl. intros H. destruct (IH H) as [i ->]. simpl. eauto.
Qed.

(** Indices stay in range during the expansion. *)
Lemma expansion_in_range (rand : RandomSource) (vs : list Vertex.t) (es : list Edge.t)
    (cap fuel seed cur : nat) (st : Glow.Sel) :
  adjacencyInRange vs -> seed < length vs ->
  Glow.expand rand vs es cap fuel seed cur = Done st ->
  (forall i, i ∈ Glow.nodesToGlow st -> i < length vs)
  /\ (forall e, e ∈ Glow.edgesToGlow st -> e < length es).
Proof.
  intros Hwf Hseed Hrun. unfold Glow.expand in Hrun.
  apply (addConnectedVertices_invariant rand vs es cap
           (fun i _ => i < length vs)
           (fun s => (forall i, i ∈ Glow.nodesToGlow s -> i < length vs)
                     /\ (forall e, e ∈ Glow.edgesToGlow s -> e < length es)))
    in Hrun; auto.
  - intros index depth vertex c s Hi Hv Hc Hsel [Hn He]. split.
    + rewrite markSelected_nodes. exact Hn.
    + intros e Hin. apply markSelected_edges in Hin as [Hin|Hin]; [auto|].
      eapply findIndex_lt; eauto.
  - intros index depth vertex c s Hi Hd Hv Hc Hfresh Hgt [Hn He].
    assert (Hcr : c < length vs) by (eapply Hwf; eauto).
    split; [split|exact Hcr].
    + rewrite includeNeighbor_nodes. intros i Hin.
      apply elem_of_app in Hin as [Hin|Hin]; [auto|].
      apply list_elem_of_singleton in Hin. subst. exact Hcr.
    + intros e Hin. apply includeNeighbor_edges in Hin as [Hin|Hin]; [auto|].
      eapply findIndex_lt; eauto.
  - simpl. split.
    + intros i Hin. apply list_elem_of_singleton in Hin. subst. exact Hseed.
    + intros e Hin. inversion Hin.
Qed.

Lemma pulse_selection_in_range_aux (fl : Q -> Q) (rand : RandomSource)
    (vs : list Vertex.t) (es : list Edge.t) (fuel cur : nat) :
  roundsToNearest fl -> doubleDraws rand -> adjacencyInRange vs ->
  0 < length vs -> (Z.of_nat (length vs) <= 2 ^ 53)%Z -> 4 <= fuel ->
  exists st,
    Glow.selectCluster fl rand vs es fuel cur = Done st
    /\ (forall i, i ∈ Glow.nodesToGlow st -> i < length vs)
    /\ (forall e, e ∈ Glow.edgesToGlow st -> e < length es)
    /\ (forall e, e ∈ Glow.edgesToGlow st ->
          exists edge, es !! e = Some edge
            /\ Edge.from edge ∈ Glow.nodesToGlow st /\ Edge.to edge ∈ Glow.nodesToGlow st).
Proof.
  intros Hfl Hrand Hwf Hne Hmax Hfuel. unfold Glow.selectCluster.
  set (seed := Glow.pickStart fl (rand cur) (length vs)).
  assert (Hseed : seed < length vs).
  { apply start_vertex_in_range_aux;
      [exact Hfl | apply Hrand | apply Hrand | exact Hne | exact Hmax]. }
  destruct (addConnectedVertices_total rand vs es (Glow.pickCap fl (rand (S cur))) Hwf fuel
              0 seed (Glow.mkSel [seed] [] (S (S cur))) ltac:(lia) Hseed) as [st Hst].
  exists st. split; [exact Hst|].
  destruct (expansion_in_range rand vs es _ fuel seed _ st Hwf Hseed Hst) as [Hn He].
  split; [exact Hn|]. split; [exact He|].
  apply addConnectedVertices_preserves in Hst as [(_ & _ & Hends) _].
  - exact Hends.
  - simpl. left.
  - split; [apply NoDup_singleton|]. split; [apply NoDup_nil_2|].
    intros e' H. inversion H.
Qed.

(** X3: when the arithmetic rounds to a nearest double, on a non-empty
    graph whose neighbour lists name existing vertices the selection of a
    pulse returns (it raises nothing), the start vertex is selected, every
    selected index is the index of a vertex and every marked index is the
    index of an edge. *)
Theorem pulse_selection_in_range (fl : Q -> Q) (rand : RandomSource)
    (vs : list Vertex.t) (es : list Edge.t) (fuel cur : nat) :
  roundsToNearest fl -> doubleDraws rand -> adjacencyInRange vs ->
  0 < length vs -> (Z.of_nat (length vs) <= 2 ^ 53)%Z -> 4 <= fuel ->
  exists st,
    Glow.selectCluster fl rand vs es fuel cur = Done st
    /\ Glow.pickStart fl (rand cur) (length vs) ∈ Glow.nodesToGlow st
    /\ (forall i, i ∈ Glow.nodesToGlow st -> i < length vs)
    /\ (forall e, e ∈ Glow.edgesToGlow st -> e < length es).
Proof.
  intros Hfl Hrand Hwf Hne Hmax Hfuel. unfold Glow.selectCluster.
  set (seed := Glow.pickStart fl (rand cur) (length vs)).
  assert (Hseed : seed < length vs).
  { apply start_vertex_in_range_aux;
      [exact Hfl | apply Hrand | apply Hrand | exact Hne | exact Hmax]. }
  destruct (addConnectedVertices_total rand vs es (Glow.pickCap fl (rand (S cur))) Hwf fuel
              0 seed (Glow.mkSel [seed] [] (S (S cur))) ltac:(lia) Hseed) as [st Hst].
  exists st. split; [exact Hst|]. split.
  - apply (addConnectedVertices_grows _ _ _ _ _ _ _ _ _ Hst). simpl. left.
  - eapply expansion_in_range; eauto.
Qed.

Lemma pulse_selection_in_range_witness :
  exists st,
    Glow.selectCluster roundDouble highDraws (completeVertices 8) (completeEdges 8) 4 0
      = Done st
    /\ Glow.pickStart roundDouble (highDraws 0) (length (completeVertices 8))
       ∈ Glow.nodesToGlow st
    /\ (forall i, i ∈ Glow.nodesToGlow st -> i < length (completeVertices 8))
    /\ (forall e, e ∈ Glow.edgesToGlow st -> e < length (completeEdges 8)).
Proof.
  apply (pulse_selection_in_range roundDouble highDraws (completeVertices 8)
           (completeEdges 8) 4 0).
  - exact roundsToNearest_roundDouble.
  - intros k. unfold highDraws, belowOne. split; lra.
  - intros i v j Hv Hj.
    destruct i as [|[|[|[|[|[|[|[|i]]]]]]]]; try discriminate;
      inversion Hv; subst v; simpl in Hj;
      repeat (apply elem_of_cons in Hj as [->|Hj]; [simpl; lia|]); inversion Hj.
  - simpl. lia.
  - simpl. lia.
  - lia.
Defined.

(** X4: every edge a pulse marks joins two vertices the pulse selected. *)
Theorem marked_edge_joins_selected (rand : RandomSource) (vs : list Vertex.t)
    (es : list Edge.t) (cap fuel seed cur : nat) (st : Glow.Sel) (e : nat) :
  Glow.expand rand vs es cap fuel seed cur = Done st ->
  e ∈ Glow.edgesToGlow st ->
  exists edge,
    es !! e = Some edge
    /\ Edge.from edge ∈ Glow.nodesToGlow st /\ Edge.to edge ∈ Glow.nodesToGlow st.
Proof.
  intros Hrun He. unfold Glow.expand in Hrun.
  apply addConnectedVertices_preserves in Hrun as [(_ & _ & Hends) _].
  - exact (Hends e He).
  - simpl. left.
  - split; [apply NoDup_singleton|]. split; [apply NoDup_nil_2|].
    intros e' H. inversion H.
Qed.

Lemma marked_edge_joins_selected_witness :
  exists edge,
    squareEdges !! 3 = Some edge
    /\ Edge.from edge ∈ [0; 1; 2; 3] /\ Edge.to edge ∈ [0; 1; 2; 3].
Proof.
  apply (marked_edge_joins_selected highDraws (squareVertices false false false false)
           squareEdges 4 4 0 0 (Glow.mkSel [0; 1; 2; 3] [0; 1; 2; 3] 3) 3).
  - reflexivity.
  - apply includes_spec. reflexivity.
Defined.

(** X5: every vertex a pulse selects is reached from the start vertex by
    following at most three recorded connections. *)
Theorem selection_within_three_hops (rand : RandomSource) (vs : list Vertex.t)
    (es : list Edge.t) (cap fuel seed cur : nat) (st : Glow.Sel) (v : nat) :
  Glow.expand rand vs es cap fuel seed cur = Done st ->
  v ∈ Glow.nodesToGlow st ->
  withinHops vs seed 3 v.
Proof.
  intros Hrun Hv. unfold Glow.expand in Hrun. revert v Hv.
  refine (addConnectedVertices_invariant rand vs es cap
            (fun i d => withinHops vs seed d i)
            (fun s => forall u, u ∈ Glow.nodesToGlow s -> withinHops vs seed 3 u)
            _ _ _ fuel seed 0 _ st _ _ Hrun).
  - auto.
  - intros index depth vertex c s _ _ _ _ HP. rewrite markSelected_nodes. exact HP.
  - intros index depth vertex c s (j & Hj & Hhops) Hd Hvx Hc _ _ HP.
    assert (Hnew : hops vs seed (S j) c) by (eapply hops_next; eauto).
    split.
    + rewrite includeNeighbor_nodes. intros u Hu.
      apply elem_of_app in Hu as [Hu|Hu]; [auto|].
      apply list_elem_of_singleton in Hu. subst u. exists (S j). split; [lia | exact Hnew].
    + exists (S j). split; [lia | exact Hnew].
  - exists 0. split; [lia | constructor].
  - simpl. intros u Hu. apply list_elem_of_singleton in Hu. subst u.
    exists 0. split; [lia | constructor].
Qed.

Lemma selection_within_three_hops_witness :
  withinHops (squareVertices false false false false) 0 3 3.
Proof.
  apply (selection_within_three_hops highDraws (squareVertices false false false false)
           squareEdges 4 4 0 0 (Glow.mkSel [0; 1; 2; 3] [0; 1; 2; 3] 3) 3).
  - reflexivity.
  - apply includes_spec. reflexivity.
Defined.

(** How far the selection can grow past the cap: every call that is still
    running may push the rest of its neighbour list. *)
Lemma forConnections_size (rand : RandomSource) (es : list Edge.t) (cap : nat)
    (rec : nat -> nat -> Glow.Sel -> outcome Glow.Sel) (index depth extra : nat) :
  (forall i st st', rec i (depth + 1) st = Done st' ->
     length (Glow.nodesToGlow st') <= Nat.max (length (Glow.nodesToGlow st)) cap + extra) ->
  forall conns st st',
    Glow.forConnections rand es cap rec index depth conns st = Done st' ->
    (cap <= length (Glow.nodesToGlow st) ->
       length (Glow.nodesToGlow st') <= length (Glow.nodesToGlow st) + length conns)
    /\ (length (Glow.nodesToGlow st) < cap ->
          length (Glow.nodesToGlow st') <= cap + length conns + extra).
Proof.
  intros Hrec conns. induction conns as [|c rest IH]; intros st st' Hrun; simpl in Hrun.
  - inversion Hrun; subst. simpl. lia.
  - destruct (includes (Glow.nodesToGlow st) c).
    { apply IH in Hrun. rewrite markSelected_nodes in Hrun. simpl. lia. }
    destruct (Math.gt (rand (Glow.cursor st)) Glow.threshold).
    2: { apply IH in Hrun. simpl in *. lia. }
    pose proof (includeNeighbor_nodes es index c (snd (Glow.random rand st))) as Hlen.
    apply (f_equal length) in Hlen. rewrite length_app in Hlen.
    change (snd (Glow.random rand st))
      with (Glow.mkSel (Glow.nodesToGlow st) (Glow.edgesToGlow st) (S (Glow.cursor st)))
      in Hlen.
    set (st2 := Glow.includeNeighbor es index c _) in *.
    change (length (Glow.nodesToGlow st2) = length (Glow.nodesToGlow st) + 1) in Hlen.
    destruct (length (Glow.nodesToGlow st2) <? cap) eqn:Hcap.
    + apply Nat.ltb_lt in Hcap.
      destruct (rec c (depth + 1) st2) as [st3| |] eqn:Hcall; try discriminate.
      apply Hrec in Hcall. apply IH in Hrun. simpl. lia.
    + apply Nat.ltb_ge in Hcap. apply IH in Hrun. simpl. lia.
Qed.

Lemma addConnectedVertices_size (rand : RandomSource) (vs : list Vertex.t)
    (es : list Edge.t) (cap d : nat) :
  degreeAtMost d vs ->
  forall fuel index depth st st',
    Glow.addConnectedVertices rand vs es cap fuel index depth st = Done st' ->
    length (Glow.nodesToGlow st')
    <= Nat.max (length (Glow.nodesToGlow st)) cap + (3 - depth) * d.
Proof.
  intros Hdeg fuel. induction fuel as [|fuel IH]; intros index depth st st' Hrun;
    simpl in Hrun; [discriminate|].
  assert (Hsame : length (Glow.nodesToGlow st)
                  <= Nat.max (length (Glow.nodesToGlow st)) cap + (3 - depth) * d).
  { etransitivity; [apply Nat.le_max_l | apply Nat.le_add_r]. }
  destruct (2 <? depth) eqn:Hd; simpl in Hrun.
  { inversion Hrun; subst. exact Hsame. }
  destruct (cap <=? length (Glow.nodesToGlow st)) eqn:Hcap.
  { inversion Hrun; subst. exact Hsame. }
  destruct (vs !! index) as [vertex|] eqn:Hv; [|discriminate].
  apply Nat.ltb_ge in Hd. apply Nat.leb_gt in Hcap.
  assert (Hlen : length (Vertex.connections vertex) <= d).
  { apply Hdeg. eapply list_elem_of_lookup_2; eauto. }
  apply (forConnections_size rand es cap _ index depth ((3 - (depth + 1)) * d)) in Hrun.
  - destruct Hrun as [_ Hrun]. specialize (Hrun Hcap).
    replace ((3 - depth) * d) with (d + (3 - (depth + 1)) * d) by nia. lia.
  - intros i s s' Hcall. apply IH in Hcall. exact Hcall.
Qed.

(** X6: what bounds a pulse instead of the cap: on a graph in which no
    vertex has more than [d] neighbours, a pulse selects at most
    max(cap, 1) + 3 d vertices. *)
Theorem selection_size_bound (rand : RandomSource) (vs : list Vertex.t)
    (es : list Edge.t) (cap d fuel seed cur : nat) (st : Glow.Sel) :
  degreeAtMost d vs ->
  Glow.expand rand vs es cap fuel seed cur = Done st ->
  length (Glow.nodesToGlow st) <= Nat.max cap 1 + 3 * d.
Proof.
  intros Hdeg Hrun. unfold Glow.expand in Hrun.
  apply (addConnectedVertices_size rand vs es cap d Hdeg) in Hrun. simpl in Hrun. lia.
Qed.

Lemma selection_size_bound_witness :
  length [0; 1; 2; 3; 4; 5; 6; 7] <= Nat.max 5 1 + 3 * 7.
Proof.
  apply (selection_size_bound highDraws (completeVertices 8) (completeEdges 8) 5 7 4 0 0
           (Glow.mkSel [0; 1; 2; 3; 4; 5; 6; 7]
              [0; 7; 1; 13; 14; 15; 16; 17; 8; 9; 10; 11; 12; 2; 3; 4; 5; 6] 7)).
  - intros v Hv. unfold completeVertices in Hv.
    repeat (apply elem_of_cons in Hv as [->|Hv]; [simpl; lia|]). inversion Hv.
  - reflexivity.
Defined.

(** X7: when no draw exceeds 0.7 the pulse selects the start vertex alone,
    and marks no edge unless the start vertex lists itself. *)
Theorem quiet_pulse_selects_seed_only (rand : RandomSource) (vs : list Vertex.t)
    (es : list Edge.t) (cap fuel seed cur : nat) (st : Glow.Sel) :
  neverInclude rand ->
  Glow.expand rand vs es cap fuel seed cur = Done st ->
  Glow.nodesToGlow st = [seed]
  /\ forall e, e ∈ Glow.edgesToGlow st ->
       exists edge, es !! e = Some edge /\ Edge.from edge = seed /\ Edge.to edge = seed.
Proof.
  intros Hquiet Hrun. unfold Glow.expand in Hrun.
  refine (addConnectedVertices_invariant rand vs es cap
            (fun i _ => i = seed)
            (fun s => Glow.nodesToGlow s = [seed]
                      /\ forall e, e ∈ Glow.edgesToGlow s ->
                           exists edge, es !! e = Some edge
                             /\ Edge.from edge = seed /\ Edge.to edge = seed)
            _ _ _ fuel seed 0 _ st _ _ Hrun).
  - auto.
  - intros index depth vertex c s -> _ _ Hc [Hn He]. split.
    + rewrite markSelected_nodes. exact Hn.
    + rewrite Hn in Hc. apply list_elem_of_singleton in Hc. subst c.
      intros e Hin. apply markSelected_edges in Hin as [Hin|Hin]; [auto|].
      apply findIndex_Some in Hin as (edge & Hedge & Hj).
      apply joins_spec in Hj. exists edge. intuition.
  - intros index depth vertex c s _ _ _ _ _ Hgt _.
    apply gt_spec in Hgt. exfalso. exact (Qlt_not_le _ _ Hgt (Hquiet _)).
  - reflexivity.
  - simpl. split; [reflexivity|]. intros e Hin. inversion Hin.
Qed.

Lemma quiet_pulse_selects_seed_only_witness :
  [2] = [2]
  /\ forall e, e ∈ [] ->
       exists edge, completeEdges 8 !! e = Some edge
                    /\ Edge.from edge = 2 /\ Edge.to edge = 2.
Proof.
  apply (quiet_pulse_selects_seed_only lowDraws (completeVertices 8) (completeEdges 8)
           9 4 2 0 (Glow.mkSel [2] [] 7)).
  - intros k. unfold lowDraws, Glow.threshold. lra.
  - reflexivity.
Defined.

Lemma expansion_marks_edges (rand : RandomSource) (vs : list Vertex.t)
    (es : list Edge.t) (cap fuel seed cur : nat) (st : Glow.Sel) :
  everyConnectionHasEdge vs es ->
  Glow.expand rand vs es cap fuel seed cur = Done st ->
  length (Glow.nodesToGlow st) <= length (Glow.edgesToGlow st) + 1.
Proof.
  intros Hedges Hrun. unfold Glow.expand in Hrun.
  refine (addConnectedVertices_invariant rand vs es cap
            (fun _ _ => True)
            (fun s => length (Glow.nodesToGlow s) <= length (Glow.edgesToGlow s) + 1)
            _ _ _ fuel seed 0 _ st _ _ Hrun).
  - auto.
  - intros index depth vertex c s _ _ _ _ HP. rewrite markSelected_nodes.
    unfold Glow.markSelected. destruct (findIndex _ es) as [e|]; [|exact HP].
    destruct (includes _ e); [exact HP|]. simpl. rewrite length_app. simpl. lia.
  - intros index depth vertex c s _ _ Hv Hc _ _ HP. split; [|exact I].
    destruct (existsb_findIndex _ _ (Hedges index vertex c Hv Hc)) as [e He].
    unfold Glow.includeNeighbor. rewrite He. simpl. rewrite !length_app. simpl.
    simpl in HP. lia.
  - exact I.
  - simpl. lia.
Qed.

(** X8: on a graph in which every recorded connection has an edge, each
    vertex a pulse adds brings the edge it was reached by: the pulse marks
    at least one edge less than it selects vertices. *)
Theorem pulse_marks_connecting_edges (rand : RandomSource) (vs : list Vertex.t)
    (es : list Edge.t) (cap fuel seed cur : nat) (st : Glow.Sel) :
  everyConnectionHasEdge vs es ->
  Glow.expand rand vs es cap fuel seed cur = Done st ->
  length (Glow.nodesToGlow st) <= length (Glow.edgesToGlow st) + 1.
Proof. apply expansion_marks_edges. Qed.

Lemma squareEdges_complete (f0 f1 f2 f3 : bool) :
  everyConnectionHasEdge (squareVertices f0 f1 f2 f3) squareEdges.
Proof.
  intros i v j Hv Hj.
  destruct i as [|[|[|[|i]]]]; try discriminate; inversion Hv; subst v;
    destruct f0, f1, f2, f3; simpl in Hj;
    repeat (apply elem_of_cons in Hj as [->|Hj]; [reflexivity|]); inversion Hj.
Qed.

Lemma pulse_marks_connecting_edges_witness :
  length [0; 1; 2; 3] <= length [0; 1; 2; 3] + 1.
Proof.
  apply (pulse_marks_connecting_edges highDraws (squareVertices false false false false)
           squareEdges 4 4 0 0 (Glow.mkSel [0; 1; 2; 3] [0; 1; 2; 3] 3)).
  - apply squareEdges_complete.
  - reflexivity.
Defined.

(** ** Glow propagator: the flags a trigger leaves *)

Lemma forEachIndex_spec {A : Type} (mark : A -> A) (indices : list nat) :
  (forall x, mark (mark x) = mark x) ->
  forall arr : list A,
    (forall i, i ∈ indices -> i < length arr) ->
    exists arr',
      forEachIndex mark arr indices = Done arr'
      /\ length arr' = length arr
      /\ forall i x, arr !! i = Some x ->
           (i ∈ indices -> arr' !! i = Some (mark x))
           /\ (i ∉ indices -> arr' !! i = Some x).
Proof.
  intros Hidem. induction indices as [|k rest IH]; intros arr Hrange; simpl.
  - exists arr. split; [reflexivity|]. split; [reflexivity|].
    intros i x Hx. split; [intros H; inversion H | auto].
  - destruct (lookup_lt_is_Some_2 arr k) as [y Hy]; [apply Hrange; left|].
    rewrite Hy.
    destruct (IH (<[k := mark y]> arr)) as (arr' & Hrun & Hlen & Hspec).
    { intros i Hi. rewrite length_insert. apply Hrange. right. exact Hi. }
    exists arr'. split; [exact Hrun|]. split; [rewrite Hlen; apply length_insert|].
    intros i x Hx. destruct (decide (i = k)) as [->|Hik].
    + assert (x = y) by congruence. subst y.
      assert (Hk : <[k := mark x]> arr !! k = Some (mark x)).
      { apply list_lookup_insert_eq. eapply lookup_lt_Some; eauto. }
      destruct (Hspec k (mark x) Hk) as [Hin Hout].
      split; [|intros Hno; exfalso; apply Hno; left].
      intros _. destruct (decide (k ∈ rest)) as [Hr|Hr].
      * rewrite (Hin Hr), Hidem. reflexivity.
      * exact (Hout Hr).
    + assert (Hi : <[k := mark y]> arr !! i = Some x).
      { rewrite list_lookup_insert_ne by congruence. exact Hx. }
      destruct (Hspec i x Hi) as [Hin Hout]. split.
      * intros H. apply elem_of_cons in H as [H|H]; [congruence | auto].
      * intros H. apply Hout. intros Hr. apply H. right. exact Hr.
Qed.

Lemma adjacencyInRange_reset (vs : list Vertex.t) :
  adjacencyInRange vs -> adjacencyInRange (resetVertex <$> vs).
Proof.
  intros Hwf i v j Hv Hj. rewrite length_fmap.
  rewrite list_lookup_fmap in Hv. destruct (vs !! i) as [u|] eqn:Hu; [|discriminate].
  inversion Hv; subst v. simpl in Hj. eapply Hwf; eauto.
Qed.

(** X9: when the arithmetic rounds to a nearest double, triggering a pulse
    on a non-empty graph whose neighbour lists name existing vertices
    raises nothing and leaves the arrays with their lengths, every glow
    intensity at 0, a vertex flagged as glowing exactly when the pulse
    selected it, an edge flagged exactly when the pulse marked it, and
    every flagged edge between two flagged vertices. *)
Theorem pulse_trigger_flags (fl : Q -> Q) (rand : RandomSource) (fuel cur : nat)
    (g : Cloud) :
  roundsToNearest fl -> doubleDraws rand -> adjacencyInRange (vertices g) ->
  0 < length (vertices g) -> (Z.of_nat (length (vertices g)) <= 2 ^ 53)%Z ->
  4 <= fuel ->
  exists g' st,
    startGlowingSection fl rand fuel cur g = Done (g', st)
    /\ length (vertices g') = length (vertices g)
    /\ length (edges g') = length (edges g)
    /\ (forall i v', vertices g' !! i = Some v' ->
          Vertex.glowIntensity v' = 0%Q
          /\ (Vertex.glowing v' = true <-> i ∈ Glow.nodesToGlow st)
          /\ exists v, vertices g !! i = Some v
               /\ Vertex.connections v' = Vertex.connections v
               /\ Vertex.position v' = Vertex.position v)
    /\ (forall e edge', edges g' !! e = Some edge' ->
          Edge.glowIntensity edge' = 0%Q
          /\ (Edge.glowing edge' = true <-> e ∈ Glow.edgesToGlow st)
          /\ (Edge.glowing edge' = true ->
              exists vf vt,
                vertices g' !! Edge.from edge' = Some vf
                /\ vertices g' !! Edge.to edge' = Some vt
                /\ Vertex.glowing vf = true /\ Vertex.glowing vt = true)).
Proof.
  intros Hfl Hrand Hwf Hne Hmax Hfuel. unfold startGlowingSection.
  set (vs := resetVertex <$> vertices g). set (es := resetEdge <$> edges g).
  assert (Hwf' : adjacencyInRange vs) by (apply adjacencyInRange_reset; exact Hwf).
  assert (Hne' : 0 < length vs) by (unfold vs; rewrite length_fmap; exact Hne).
  assert (Hmax' : (Z.of_nat (length vs) <= 2 ^ 53)%Z)
    by (unfold vs; rewrite length_fmap; exact Hmax).
  destruct (pulse_selection_in_range_aux fl rand vs es fuel cur Hfl Hrand Hwf' Hne' Hmax'
              Hfuel)
    as (st & Hsel & Hnodes & Hedges & Hjoin).
  rewrite Hsel.
  destruct (forEachIndex_spec glowVertex (Glow.nodesToGlow st) ltac:(reflexivity) vs Hnodes)
    as (vs' & Hmv & Hlv & Hv').
  destruct (forEachIndex_spec glowEdge (Glow.edgesToGlow st) ltac:(reflexivity) es Hedges)
    as (es' & Hme & Hle & He').
  unfold markVertices, markEdges. rewrite Hmv, Hme.
  exists (mkCloud vs' es'), st. simpl.
  assert (Hvertex : forall i v', vs' !! i = Some v' ->
            exists v, vertices g !! i = Some v
              /\ ((i ∈ Glow.nodesToGlow st /\ v' = glowVertex (resetVertex v))
                  \/ ((i ∉ Glow.nodesToGlow st) /\ v' = resetVertex v))).
  { intros i v' Hi.
    assert (Hlt : i < length (vertices g)).
    { apply lookup_lt_Some in Hi. rewrite Hlv in Hi. unfold vs in Hi.
      rewrite length_fmap in Hi. exact Hi. }
    destruct (lookup_lt_is_Some_2 _ _ Hlt) as [v Hv]. exists v. split; [exact Hv|].
    assert (Hr : vs !! i = Some (resetVertex v)).
    { unfold vs. rewrite list_lookup_fmap, Hv. reflexivity. }
    destruct (Hv' i _ Hr) as [Hin Hout].
    destruct (decide (i ∈ Glow.nodesToGlow st)) as [H|H].
    - left. split; [exact H|]. rewrite (Hin H) in Hi. congruence.
    - right. split; [exact H|]. rewrite (Hout H) in Hi. congruence. }
  assert (Hedge : forall e edge', es' !! e = Some edge' ->
            exists edge, edges g !! e = Some edge
              /\ ((e ∈ Glow.edgesToGlow st /\ edge' = glowEdge (resetEdge edge))
                  \/ ((e ∉ Glow.edgesToGlow st) /\ edge' = resetEdge edge))).
  { intros e edge' Hi.
    assert (Hlt : e < length (edges g)).
    { apply lookup_lt_Some in Hi. rewrite Hle in Hi. unfold es in Hi.
      rewrite length_fmap in Hi. exact Hi. }
    destruct (lookup_lt_is_Some_2 _ _ Hlt) as [edge Hedge]. exists edge.
    split; [exact Hedge|].
    assert (Hr : es !! e = Some (resetEdge edge)).
    { unfold es. rewrite list_lookup_fmap, Hedge. reflexivity. }
    destruct (He' e _ Hr) as [Hin Hout].
    destruct (decide (e ∈ Glow.edgesToGlow st)) as [H|H].
    - left. split; [exact H|]. rewrite (Hin H) in Hi. congruence.
    - right. split; [exact H|]. rewrite (Hout H) in Hi. congruence. }
  assert (Hglowing : forall i, i ∈ Glow.nodesToGlow st ->
            exists v', vs' !! i = Some v' /\ Vertex.glowing v' = true).
  { intros i Hi. destruct (lookup_lt_is_Some_2 vs i (Hnodes i Hi)) as [v Hv].
    exists (glowVertex v). split; [apply (Hv' i v Hv); exact Hi | reflexivity]. }
  split; [reflexivity|].
  split; [rewrite Hlv; unfold vs; apply length_fmap|].
  split; [rewrite Hle; unfold es; apply length_fmap|]. split.
  - intros i v' Hi. destruct (Hvertex i v' Hi) as (v & Hv & [[Hin ->]|[Hout ->]]); simpl.
    + split; [reflexivity|]. split; [tauto|]. exists v. auto.
    + split; [reflexivity|]. split; [split; [discriminate | contradiction]|].
      exists v. auto.
  - intros e edge' Hi.
    destruct (Hedge e edge' Hi) as (edge & Hed & [[Hin ->]|[Hout ->]]); simpl.
    + split; [reflexivity|]. split; [tauto|]. intros _.
      destruct (Hjoin e Hin) as (edge0 & Hedge0 & Hf & Ht).
      unfold es in Hedge0. rewrite list_lookup_fmap, Hed in Hedge0.
      inversion Hedge0; subst edge0. simpl in Hf, Ht.
      destruct (Hglowing _ Hf) as (vf & Hvf & Hgf).
      destruct (Hglowing _ Ht) as (vt & Hvt & Hgt).
      exists vf, vt. auto.
    + split; [reflexivity|]. split; [split; [discriminate | contradiction]|].
      discriminate.
Qed.

Lemma doubleDraws_highDraws : doubleDraws highDraws.
Proof. intros k. unfold highDraws, belowOne. split; lra. Qed.

Lemma squareVertices_in_range (f0 f1 f2 f3 : bool) :
  adjacencyInRange (squareVertices f0 f1 f2 f3).
Proof.
  intros i v j Hv Hj.
  destruct i as [|[|[|[|i]]]]; try discriminate; inversion Hv; subst v;
    destruct f0, f1, f2, f3; simpl in Hj;
    repeat (apply elem_of_cons in Hj as [->|Hj]; [simpl; lia|]); inversion Hj.
Qed.

Lemma pulse_trigger_flags_witness :
  exists g' st,
    startGlowingSection roundDouble highDraws 4 0
      (mkCloud (squareVertices false false false false) squareEdges) = Done (g', st)
    /\ length (vertices g') = 4
    /\ length (edges g') = 4.
Proof.
  destruct (pulse_trigger_flags roundDouble highDraws 4 0
              (mkCloud (squareVertices false false false false) squareEdges)
              roundsToNearest_roundDouble doubleDraws_highDraws
              (squareVertices_in_range false false false false)
              ltac:(simpl; lia) ltac:(simpl; lia) ltac:(lia))
    as (g' & st & Hrun & Hlv & Hle & _).
  exists g', st. auto.
Defined.

(** ** Graph builder: degrees and edges *)

Section BuilderDegrees.
Variable distanceTo : Vector3.t -> Vector3.t -> Q.
Variable rand : RandomSource.

Lemma connectionsAt_after (vs : list Vertex.t) (i j a : nat) :
  i < length vs -> j < length vs -> i <> j ->
  connectionsAt (alter (addConnection i) j (alter (addConnection j) i vs)) a
  = connectionsAt vs a
    ++ (if decide (a = i) then [j] else []) ++ (if decide (a = j) then [i] else []).
Proof.
  intros Hi Hj Hij. unfold connectionsAt.
  destruct (decide (a = j)) as [->|Haj].
  - rewrite list_lookup_alter_eq, list_lookup_alter_ne by exact Hij.
    destruct (lookup_lt_is_Some_2 vs j Hj) as [v ->]. simpl.
    destruct (decide (j = i)); [congruence | reflexivity].
  - rewrite list_lookup_alter_ne by congruence.
    destruct (decide (a = i)) as [->|Hai].
    + rewrite list_lookup_alter_eq.
      destruct (lookup_lt_is_Some_2 vs i Hi) as [v ->]. reflexivity.
    + rewrite list_lookup_alter_ne by congruence. simpl. rewrite app_nil_r. reflexivity.
Qed.

Lemma degreeSum_alter (vs : list Vertex.t) (k j : nat) :
  k < length vs -> degreeSum (alter (addConnection j) k vs) = S (degreeSum vs).
Proof.
  unfold degreeSum. revert k. induction vs as [|v vs IH]; intros k Hk; simpl in Hk; [lia|].
  destruct k as [|k].
  - change (alter (addConnection j) 0 (v :: vs)) with (addConnection j v :: vs).
    simpl. rewrite length_app. simpl. lia.
  - change (alter (addConnection j) (S k) (v :: vs))
      with (v :: alter (addConnection j) k vs).
    simpl. rewrite IH by lia. lia.
Qed.

Lemma existsb_joins_true (es : list Edge.t) (a b : nat) :
  existsb (joins a b) es = true ->
  exists e, e ∈ es /\ ((Edge.from e = a /\ Edge.to e = b) \/ (Edge.from e = b /\ Edge.to e = a)).
Proof.
  intros H. apply existsb_exists in H as (e & Hin & Hj).
  exists e. split; [apply list_elem_of_In; exact Hin | apply joins_spec; exact Hj].
Qed.

Lemma joins_comm (a b : nat) (e : Edge.t) : joins a b e = joins b a e.
Proof. unfold joins. apply orb_comm. Qed.

Lemma existsb_app_true {A : Type} (p : A -> bool) (l1 l2 : list A) :
  existsb p l1 = true -> existsb p (l1 ++ l2) = true.
Proof. intros H. rewrite existsb_app, H. reflexivity. Qed.

(** The duplicate check of lines 152-157 never finds an edge. *)
Lemma edge_is_new (i j : nat) (g : Cloud) :
  cloudOk g -> j ∉ neighbours g i -> existsb (joins i j) (edges g) = false.
Proof.
  intros (_ & Hrec & _) Hfresh.
  destruct (existsb (joins i j) (edges g)) eqn:Hex; [|reflexivity].
  apply existsb_joins_true in Hex as (e & He & Hends).
  destruct (Hrec e He) as (_ & Hto & Hfrom).
  destruct Hends as [[<- <-]|[<- <-]]; contradiction.
Qed.

Lemma connectOnce_complete (i : nat) (g : Cloud) :
  i < length (vertices g) -> cloudOk g -> cloudComplete g ->
  cloudComplete (connectOnce distanceTo i g).
Proof.
  intros Hi Hok (Hnd & Hrange & Hedge & Hsum). unfold connectOnce.
  destruct (findNearest distanceTo (vertices g) i) as [j|] eqn:Hfind;
    [|exact (conj Hnd (conj Hrange (conj Hedge Hsum)))].
  apply findNearest_spec in Hfind as (Hj & Hji & Hfresh).
  rewrite (edge_is_new i j g Hok Hfresh).
  assert (Hshape := connectionsAt_after (vertices g) i j).
  set (vs' := alter (addConnection i) j (alter (addConnection j) i (vertices g))) in *.
  assert (Hlen : length vs' = length (vertices g)) by (unfold vs'; rewrite !length_alter; reflexivity).
  assert (Hback : i ∉ neighbours g j).
  { intros H. destruct Hok as (Hsym & _). apply Hsym in H. tauto. }
  set (es' := edges g ++ [Edge.mk i j false 0]).
  assert (Hnb : forall a, neighbours (mkCloud vs' es') a
            = neighbours g a ++ (if decide (a = i) then [j] else [])
                ++ (if decide (a = j) then [i] else [])).
  { intros a. apply Hshape; auto. }
  split; [|split; [|split]].
  - intros a. rewrite Hnb.
    destruct (decide (a = i)) as [Hai|Hai], (decide (a = j)) as [Haj|Haj]; simpl;
      rewrite ?app_nil_r; try congruence; auto; subst a.
    + apply NoDup_app. split; [apply Hnd|]. split; [|apply NoDup_singleton].
      intros x Hx Hx'. apply list_elem_of_singleton in Hx'. subst x. contradiction.
    + apply NoDup_app. split; [apply Hnd|]. split; [|apply NoDup_singleton].
      intros x Hx Hx'. apply list_elem_of_singleton in Hx'. subst x. contradiction.
  - intros a b Hb. rewrite Hnb in Hb. simpl. rewrite Hlen.
    rewrite !elem_of_app in Hb. destruct Hb as [Hb|[Hb|Hb]]; [eauto| |].
    + destruct (decide (a = i)); [|inversion Hb].
      apply list_elem_of_singleton in Hb. subst b. exact Hj.
    + destruct (decide (a = j)); [|inversion Hb].
      apply list_elem_of_singleton in Hb. subst b. exact Hi.
  - intros a b Hb. rewrite Hnb in Hb. simpl. unfold es'.
    rewrite !elem_of_app in Hb. destruct Hb as [Hb|[Hb|Hb]].
    + apply existsb_app_true. auto.
    + destruct (decide (a = i)) as [->|]; [|inversion Hb].
      apply list_elem_of_singleton in Hb. subst b.
      rewrite existsb_app. simpl. unfold joins at 2. simpl.
      rewrite !Nat.eqb_refl. simpl. apply orb_true_r.
    + destruct (decide (a = j)) as [->|]; [|inversion Hb].
      apply list_elem_of_singleton in Hb. subst b.
      rewrite existsb_app. simpl. unfold joins at 2. simpl.
      rewrite !Nat.eqb_refl. simpl. rewrite orb_true_r. apply orb_true_r.
  - simpl. unfold vs', es'. rewrite degreeSum_alter by (rewrite length_alter; exact Hj).
    rewrite degreeSum_alter by exact Hi. rewrite length_app. simpl. lia.
Qed.


(** The search finds a vertex whenever one is left to connect to. *)
Lemma findNearest_None (vs : list Vertex.t) (i : nat) :
  findNearest distanceTo vs i = None ->
  forall j, j < length vs -> j <> i -> j ∈ connectionsAt vs i.
Proof.
  unfold findNearest. intros Hnone j Hj Hji.
  destruct (decide (j ∈ connectionsAt vs i)) as [Hin|Hout]; [exact Hin|exfalso].
  assert (Hfold : forall l acc,
            (fst acc = None -> snd acc = None) ->
            (fst acc <> None \/ j ∈ l) ->
            fst (foldl (nearestStep distanceTo vs i) acc l) <> None).
  { intros l. induction l as [|b l IH]; intros acc Hinv Hsome; simpl.
    - destruct Hsome as [H|H]; [exact H | inversion H].
    - apply IH.
      + unfold nearestStep. destruct ((i =? b) || includes (connectionsAt vs i) b); [exact Hinv|].
        destruct (closer _ (snd acc)); [discriminate | exact Hinv].
      + destruct Hsome as [H|H].
        * left. unfold nearestStep.
          destruct ((i =? b) || includes (connectionsAt vs i) b); [exact H|].
          destruct (closer _ (snd acc)); [discriminate | exact H].
        * apply elem_of_cons in H as [<-|H]; [|right; exact H].
          left. unfold nearestStep.
          replace (i =? j) with false by (symmetry; apply Nat.eqb_neq; congruence).
          replace (includes (connectionsAt vs i) j) with false
            by (symmetry; apply includes_false; exact Hout).
          simpl. destruct (fst acc) as [k|] eqn:Hacc.
          -- destruct (closer _ (snd acc)); [discriminate | rewrite Hacc; discriminate].
          -- rewrite (Hinv eq_refl). simpl. discriminate. }
  apply (Hfold (seq 0 (length vs)) (None, None)); [reflexivity | | exact Hnone].
  right. apply elem_of_seq. lia.
Qed.

(** All indices below [n] except [i], in a list of length [n - 1]. *)
Lemma others_fit (l : list nat) (n i : nat) :
  i < n -> (forall j, j < n -> j <> i -> j ∈ l) -> n - 1 <= length l.
Proof.
  intros Hi Hall.
  assert (Hsub : seq 0 i ++ seq (S i) (n - S i) ⊆+ l).
  { apply NoDup_submseteq.
    - apply NoDup_app. split; [apply NoDup_seq|]. split; [|apply NoDup_seq].
      intros x Hx Hx'. apply elem_of_seq in Hx, Hx'. lia.
    - intros x Hx. apply elem_of_app in Hx as [Hx|Hx]; apply elem_of_seq in Hx;
        apply Hall; lia. }
  apply submseteq_length in Hsub. rewrite length_app, !length_seq in Hsub. lia.
Qed.

Lemma distinct_fit (l : list nat) (n i : nat) :
  i < n -> NoDup l -> (forall j, j ∈ l -> j < n /\ j <> i) -> length l <= n - 1.
Proof.
  intros Hi Hnd Hall.
  assert (Hsub : l ⊆+ seq 0 i ++ seq (S i) (n - S i)).
  { apply NoDup_submseteq; [exact Hnd|].
    intros x Hx. destruct (Hall x Hx) as [Hlt Hne].
    rewrite elem_of_app, !elem_of_seq. lia. }
  apply submseteq_length in Hsub. rewrite length_app, !length_seq in Hsub. lia.
Qed.

Lemma connectOnce_building (n i : nat) (g : Cloud) :
  i < n -> building n g -> building n (connectOnce distanceTo i g).
Proof.
  intros Hi (Hok & Hc & Hlen). subst n. split; [|split].
  - apply connectOnce_ok; assumption.
  - apply connectOnce_complete; assumption.
  - apply connectOnce_length.
Qed.

Lemma connectOnce_degree (n i : nat) (g : Cloud) :
  i < n -> building n g ->
  (forall a, degree g a <= degree (connectOnce distanceTo i g) a)
  /\ (degree (connectOnce distanceTo i g) i = S (degree g i) \/ n - 1 <= degree g i)
  /\ length (edges (connectOnce distanceTo i g)) <= S (length (edges g)).
Proof.
  intros Hi (Hok & Hc & Hlen). subst n. unfold connectOnce.
  destruct (findNearest distanceTo (vertices g) i) as [j|] eqn:Hfind.
  - apply findNearest_spec in Hfind as (Hj & Hji & Hfresh).
    assert (Hshape := fun a =>
              connectionsAt_after (vertices g) i j a Hi Hj ltac:(congruence)).
    unfold degree, neighbours. simpl. split; [|split].
    + intros a. rewrite Hshape, length_app. lia.
    + left. rewrite Hshape, !length_app.
      destruct (decide (i = i)); [|congruence].
      destruct (decide (i = j)); [congruence|]. simpl. lia.
    + destruct (existsb _ _); [lia|]. rewrite length_app. simpl. lia.
  - split; [auto|]. split; [|lia]. right.
    apply (others_fit _ _ i Hi). apply findNearest_None. exact Hfind.
Qed.

Lemma connectVertex_building (n cur i : nat) (g : Cloud) :
  i < n -> building n g ->
  let k := connectionsNeeded (rand (cur + i)) in
  let g' := connectVertex distanceTo rand cur g i in
  building n g'
  /\ (forall a, degree g a <= degree g' a)
  /\ Nat.min k (n - 1) <= degree g' i
  /\ length (edges g') <= length (edges g) + k.
Proof.
  intros Hi Hb. unfold connectVertex. cbv zeta.
  induction (connectionsNeeded (rand (cur + i))) as [|k IH].
  - change (Nat.iter 0 (connectOnce distanceTo i) g) with g.
    split; [exact Hb|]. split; [auto|]. split; lia.
  - rewrite Nat.iter_succ. destruct IH as (Hb' & Hmono & Hdeg & Hedges).
    destruct (connectOnce_degree n i _ Hi Hb') as (Hmono' & Hstep & Hedge').
    split; [apply connectOnce_building; assumption|].
    split; [intros a; etransitivity; [apply Hmono | apply Hmono']|].
    split; [|lia].
    specialize (Hmono' i). destruct Hstep as [Hstep|Hstep]; lia.
Qed.

Lemma createEdges_building (cur : nat) (vs : list Vertex.t) :
  unitDraws rand ->
  (forall v, v ∈ vs -> Vertex.connections v = []) ->
  let g := createEdges distanceTo rand cur vs in
  building (length vs) g
  /\ (forall i, i < length vs -> Nat.min 3 (length vs - 1) <= degree g i)
  /\ length (edges g) <= 4 * length vs.
Proof.
  intros Hrand Hempty. unfold createEdges.
  set (n := length vs).
  assert (Hneeded : forall i, 3 <= connectionsNeeded (rand (cur + i)) <= 4).
  { intros i. unfold connectionsNeeded, Math.floor, numConnections.
    destruct (Hrand (cur + i)) as [H0 H1]. set (r := rand (cur + i)) in *.
    assert (0 <= Qfloor (r * 2))%Z by (apply Qfloor_nonneg; lra).
    assert (Qfloor (r * 2) < 2)%Z by (apply Qfloor_below; unfold inject_Z; lra).
    lia. }
  assert (Hfold : forall l g,
            (forall i, i ∈ l -> i < n) -> building n g ->
            let g' := foldl (connectVertex distanceTo rand cur) g l in
            building n g'
            /\ (forall a, degree g a <= degree g' a)
            /\ (forall i, i ∈ l -> Nat.min 3 (n - 1) <= degree g' i)
            /\ length (edges g') <= length (edges g) + 4 * length l).
  { intros l. induction l as [|i l IH]; intros g Hl Hb; cbv zeta; cbn [foldl].
    - split; [exact Hb|]. split; [auto|]. split; [intros i H; inversion H | simpl; lia].
    - pose proof (connectVertex_building n cur i g ltac:(apply Hl; left) Hb) as Hcv.
      cbv zeta in Hcv. destruct Hcv as (Hb1 & Hmono1 & Hdeg1 & Hedge1).
      pose proof (IH (connectVertex distanceTo rand cur g i)
                    ltac:(intros a Ha; apply Hl; right; exact Ha) Hb1) as Hih.
      cbv zeta in Hih. destruct Hih as (Hb2 & Hmono2 & Hdeg2 & Hedge2).
      change (length (i :: l)) with (S (length l)).
      split; [exact Hb2|].
      split; [intros a; etransitivity; [apply Hmono1 | apply Hmono2]|].
      split.
      + intros a Ha. apply elem_of_cons in Ha as [->|Ha]; [|apply Hdeg2; exact Ha].
        specialize (Hmono2 i). specialize (Hneeded i). lia.
      + specialize (Hneeded i). lia. }
  destruct (createEdges_ok distanceTo rand cur vs Hempty) as [_ _].
  destruct (Hfold (seq 0 n) (mkCloud vs [])) as (Hb & _ & Hdeg & Hedges).
  - intros i Hi. apply elem_of_seq in Hi. lia.
  - assert (Hnone : forall a, neighbours (mkCloud vs []) a = []).
    { intros a. unfold neighbours, connectionsAt. simpl.
      destruct (vs !! a) as [v|] eqn:Hv; [|reflexivity]. simpl.
      apply Hempty. eapply list_elem_of_lookup_2; eauto. }
    split; [|split; [|reflexivity]].
    + split; [|split].
      * intros a b Hb. rewrite Hnone in Hb. inversion Hb.
      * intros e He. inversion He.
      * intros k1 k2 e1 e2 H1. discriminate.
    + split; [|split; [|split]].
      * intros a. rewrite Hnone. constructor.
      * intros a b Hb. rewrite Hnone in Hb. inversion Hb.
      * intros a b Hb. rewrite Hnone in Hb. inversion Hb.
      * simpl. unfold degreeSum. clear -Hempty.
        induction vs as [|v vs IH]; [reflexivity|]. simpl.
        rewrite (Hempty v) by left. simpl. apply IH. intros u Hu. apply Hempty. right. exact Hu.
  - split; [exact Hb|]. split.
    + intros i Hi. apply Hdeg. apply elem_of_seq. lia.
    + simpl in Hedges. rewrite length_seq in Hedges. lia.
Qed.

End BuilderDegrees.

(** What every graph the builder produces satisfies. *)
Lemma built_graph_building (fl : Q -> Q) (distanceTo : Vector3.t -> Vector3.t -> Q)
    (rand : RandomSource) (sceneReady : bool) (cur : nat) (g : Cloud) :
  unitDraws rand ->
  initializePointCloud fl distanceTo rand sceneReady cur = Some g ->
  building 50 g
  /\ (forall i, i < 50 -> 3 <= degree g i)
  /\ length (edges g) <= 200.
Proof.
  intros Hrand. unfold initializePointCloud. destruct sceneReady; [|discriminate].
  destruct (createVertices fl rand numVertices cur []) as [vs cur1] eqn:Hcreate.
  intros Hg. inversion Hg; subst g. clear Hg.
  assert (Hvs : vs = fst (createVertices fl rand numVertices cur []))
    by (rewrite Hcreate; reflexivity).
  assert (Hlen : length vs = 50) by (rewrite Hvs, createVertices_length; reflexivity).
  assert (Hempty : forall v, v ∈ vs -> Vertex.connections v = []).
  { apply Forall_forall. rewrite Hvs. apply createVertices_fresh; [reflexivity | constructor]. }
  destruct (createEdges_building distanceTo rand cur1 vs Hrand Hempty) as (Hb & Hdeg & Hedges).
  rewrite Hlen in *. split; [exact Hb|]. split; [|lia].
  intros i Hi. specialize (Hdeg i Hi). simpl in Hdeg. lia.
Qed.

Lemma doubleDraws_dyadicDraws : doubleDraws dyadicDraws.
Proof.
  intros k. unfold dyadicDraws, belowOne.
  set (m := Z.of_nat ((k * 37 + 11) mod 64)).
  assert (Hm : (0 <= m <= 63)%Z).
  { subst m. pose proof (Nat.mod_upper_bound (k * 37 + 11) 64). lia. }
  split.
  - apply Qle_shift_div_l; [reflexivity|].
    rewrite Qmult_0_l. change 0%Q with (inject_Z 0). rewrite <- Zle_Qle. lia.
  - apply Qle_shift_div_r; [reflexivity|].
    apply Qle_trans with (inject_Z 63); [rewrite <- Zle_Qle; lia | vm_compute; discriminate].
Qed.

Lemma unitDraws_dyadicDraws : unitDraws dyadicDraws.
Proof.
  intros k. unfold dyadicDraws.
  set (m := Z.of_nat ((k * 37 + 11) mod 64)).
  assert (Hm : (0 <= m < 64)%Z).
  { subst m. pose proof (Nat.mod_upper_bound (k * 37 + 11) 64). lia. }
  split.
  - apply Qle_shift_div_l; [reflexivity|].
    rewrite Qmult_0_l. change 0%Q with (inject_Z 0). rewrite <- Zle_Qle. lia.
  - apply Qlt_shift_div_r; [reflexivity|].
    rewrite Qmult_1_l. change 64%Q with (inject_Z 64). rewrite <- Zlt_Qlt. lia.
Qed.

Lemma builtGraph_built :
  initializePointCloud (fun q => q) distanceToSquared dyadicDraws true 0 = Some builtGraph.
Proof.
  vm_compute. reflexivity.
Qed.

Lemma neighbours_lookup (g : Cloud) (i : nat) (v : Vertex.t) :
  vertices g !! i = Some v -> neighbours g i = Vertex.connections v.
Proof. intros H. unfold neighbours, connectionsAt. rewrite H. reflexivity. Qed.

(** X10: in every graph the builder produces, a vertex lists each of its
    neighbours once, never lists itself, and lists only indices of
    vertices. *)
Theorem built_neighbour_lists
    (fl : Q -> Q) (distanceTo : Vector3.t -> Vector3.t -> Q) (rand : RandomSource)
    (sceneReady : bool) (cur : nat) (g : Cloud) (i : nat) (v : Vertex.t) :
  unitDraws rand ->
  initializePointCloud fl distanceTo rand sceneReady cur = Some g ->
  vertices g !! i = Some v ->
  NoDup (Vertex.connections v)
  /\ (i ∉ Vertex.connections v)
  /\ forall j, j ∈ Vertex.connections v -> j < length (vertices g).
Proof.
  intros Hrand Hg Hv.
  destruct (built_graph_building fl distanceTo rand sceneReady cur g Hrand Hg)
    as (((Hsym & _) & (Hnd & Hrange & _) & _) & _).
  rewrite <- (neighbours_lookup g i v Hv). split; [apply Hnd|]. split.
  - intros Hin. apply Hsym in Hin. tauto.
  - apply Hrange.
Qed.

Lemma built_neighbour_lists_witness :
  exists v,
    vertices builtGraph !! 7 = Some v
    /\ NoDup (Vertex.connections v)
    /\ (7 ∉ Vertex.connections v)
    /\ forall j, j ∈ Vertex.connections v -> j < length (vertices builtGraph).
Proof.
  eexists. split; [reflexivity|].
  apply (built_neighbour_lists (fun q => q) distanceToSquared dyadicDraws true 0
           builtGraph 7 _ unitDraws_dyadicDraws builtGraph_built).
  reflexivity.
Defined.

(** X11: in every graph the builder produces, every vertex has at least 3
    and at most 49 neighbours. *)
Theorem built_degree_bounds
    (fl : Q -> Q) (distanceTo : Vector3.t -> Vector3.t -> Q) (rand : RandomSource)
    (sceneReady : bool) (cur : nat) (g : Cloud) (i : nat) (v : Vertex.t) :
  unitDraws rand ->
  initializePointCloud fl distanceTo rand sceneReady cur = Some g ->
  vertices g !! i = Some v ->
  3 <= length (Vertex.connections v) /\ length (Vertex.connections v) <= 49.
Proof.
  intros Hrand Hg Hv.
  destruct (built_graph_building fl distanceTo rand sceneReady cur g Hrand Hg)
    as (((Hsym & _) & (Hnd & Hrange & _) & Hlen) & Hdeg & _).
  assert (Hi : i < 50) by (apply lookup_lt_Some in Hv; lia).
  specialize (Hdeg i Hi). unfold degree in Hdeg.
  rewrite (neighbours_lookup g i v Hv) in Hdeg. split; [exact Hdeg|].
  change 49 with (50 - 1). apply (distinct_fit _ 50 i Hi).
  - rewrite <- (neighbours_lookup g i v Hv). apply Hnd.
  - intros j Hj. rewrite <- (neighbours_lookup g i v Hv) in Hj. split.
    + rewrite <- Hlen. eapply Hrange; eauto.
    + apply Hsym in Hj. tauto.
Qed.

Lemma built_degree_bounds_witness :
  exists v,
    vertices builtGraph !! 0 = Some v
    /\ 3 <= length (Vertex.connections v) /\ length (Vertex.connections v) <= 49.
Proof.
  eexists. split; [reflexivity|].
  apply (built_degree_bounds (fun q => q) distanceToSquared dyadicDraws true 0
           builtGraph 0 _ unitDraws_dyadicDraws builtGraph_built).
  reflexivity.
Defined.

Lemma built_everyConnectionHasEdge (g : Cloud) :
  building 50 g -> everyConnectionHasEdge (vertices g) (edges g).
Proof.
  intros (_ & (_ & _ & Hedge & _) & _) i v j Hv Hj.
  apply Hedge. rewrite (neighbours_lookup g i v Hv). exact Hj.
Qed.

Lemma built_adjacencyInRange (g : Cloud) :
  building 50 g -> adjacencyInRange (vertices g).
Proof.
  intros (_ & (_ & Hrange & _) & _) i v j Hv Hj.
  apply (Hrange i). rewrite (neighbours_lookup g i v Hv). exact Hj.
Qed.

(** X12: in every graph the builder produces, the edge search the glow
    propagator runs for a vertex and one of its neighbours finds an edge,
    and that edge joins the two. *)
Theorem built_connection_has_edge
    (fl : Q -> Q) (distanceTo : Vector3.t -> Vector3.t -> Q) (rand : RandomSource)
    (sceneReady : bool) (cur : nat) (g : Cloud) (i j : nat) (v : Vertex.t) :
  unitDraws rand ->
  initializePointCloud fl distanceTo rand sceneReady cur = Some g ->
  vertices g !! i = Some v -> j ∈ Vertex.connections v ->
  exists k edge,
    findIndex (joins i j) (edges g) = Some k /\ edges g !! k = Some edge
    /\ ((Edge.from edge = i /\ Edge.to edge = j)
        \/ (Edge.from edge = j /\ Edge.to edge = i)).
Proof.
  intros Hrand Hg Hv Hj.
  destruct (built_graph_building fl distanceTo rand sceneReady cur g Hrand Hg) as (Hb & _).
  pose proof (built_everyConnectionHasEdge g Hb i v j Hv Hj) as Hex.
  apply existsb_findIndex in Hex as [k Hk]. exists k.
  destruct (findIndex_Some _ _ _ Hk) as (edge & Hedge & Hjoin).
  exists edge. split; [exact Hk|]. split; [exact Hedge|]. apply joins_spec. exact Hjoin.
Qed.

Lemma built_connection_has_edge_witness :
  exists k edge,
    findIndex (joins 0 15) (edges builtGraph) = Some k
    /\ edges builtGraph !! k = Some edge
    /\ ((Edge.from edge = 0 /\ Edge.to edge = 15)
        \/ (Edge.from edge = 15 /\ Edge.to edge = 0)).
Proof.
  eapply (built_connection_has_edge (fun q => q) distanceToSquared dyadicDraws true 0
            builtGraph 0 15 _ unitDraws_dyadicDraws builtGraph_built).
  - reflexivity.
  - simpl. left.
Defined.

Lemma degreeSum_lower (vs : list Vertex.t) (m : nat) :
  (forall v, v ∈ vs -> m <= length (Vertex.connections v)) ->
  m * length vs <= degreeSum vs.
Proof.
  unfold degreeSum. induction vs as [|v vs IH]; intros H; simpl; [lia|].
  specialize (H v ltac:(left)) as Hv.
  assert (m * length vs <= sum_list_with (fun v => length (Vertex.connections v)) vs).
  { apply IH. intros u Hu. apply H. right. exact Hu. }
  lia.
Qed.

(** X13: in every graph the builder produces, the degrees of the vertices
    add up to twice the number of edges, and there are between 75 and 200
    edges. *)
Theorem built_edge_count
    (fl : Q -> Q) (distanceTo : Vector3.t -> Vector3.t -> Q) (rand : RandomSource)
    (sceneReady : bool) (cur : nat) (g : Cloud) :
  unitDraws rand ->
  initializePointCloud fl distanceTo rand sceneReady cur = Some g ->
  degreeSum (vertices g) = 2 * length (edges g)
  /\ 75 <= length (edges g) /\ length (edges g) <= 200.
Proof.
  intros Hrand Hg.
  destruct (built_graph_building fl distanceTo rand sceneReady cur g Hrand Hg)
    as ((_ & (_ & _ & _ & Hsum) & Hlen) & Hdeg & Hedges).
  split; [exact Hsum|]. split; [|exact Hedges].
  assert (Hlow : 3 * length (vertices g) <= degreeSum (vertices g)).
  { apply degreeSum_lower. intros v Hv. apply list_elem_of_lookup_1 in Hv as [i Hi].
    assert (Hlt : i < 50) by (apply lookup_lt_Some in Hi; lia).
    specialize (Hdeg i Hlt). unfold degree in Hdeg.
    rewrite (neighbours_lookup g i v Hi) in Hdeg. exact Hdeg. }
  lia.
Qed.

Lemma built_edge_count_witness :
  degreeSum (vertices builtGraph) = 2 * length (edges builtGraph)
  /\ 75 <= length (edges builtGraph) /\ length (edges builtGraph) <= 200.
Proof.
  exact (built_edge_count (fun q => q) distanceToSquared dyadicDraws true 0 builtGraph
           unitDraws_dyadicDraws builtGraph_built).
Defined.

Lemma everyConnectionHasEdge_reset (vs : list Vertex.t) (es : list Edge.t) :
  everyConnectionHasEdge vs es ->
  everyConnectionHasEdge (resetVertex <$> vs) (resetEdge <$> es).
Proof.
  intros H i v j Hv Hj. rewrite list_lookup_fmap in Hv.
  destruct (vs !! i) as [u|] eqn:Hu; [|discriminate]. inversion Hv; subst v.
  specialize (H i u j Hu Hj). apply existsb_exists in H as (e & He & Hjoin).
  apply existsb_exists. exists (resetEdge e). split; [|exact Hjoin].
  apply list_elem_of_In, list_elem_of_fmap_2, list_elem_of_In. exact He.
Qed.

(** X14: when the arithmetic rounds to a nearest double, on every graph
    the builder produces, triggering a pulse raises nothing; the pulse
    selects no vertex twice, at most all 50 of them, and it marks at least
    one edge less than it selects vertices. *)
Theorem pulse_on_built_graph
    (fl : Q -> Q) (distanceTo : Vector3.t -> Vector3.t -> Q) (rand : RandomSource)
    (sceneReady : bool) (cur : nat) (g : Cloud) (fuel pulseCur : nat) :
  roundsToNearest fl -> doubleDraws rand ->
  initializePointCloud fl distanceTo rand sceneReady cur = Some g ->
  4 <= fuel ->
  exists g' st,
    startGlowingSection fl rand fuel pulseCur g = Done (g', st)
    /\ NoDup (Glow.nodesToGlow st)
    /\ length (Glow.nodesToGlow st) <= 50
    /\ length (Glow.nodesToGlow st) <= length (Glow.edgesToGlow st) + 1.
Proof.
  intros Hfl Hrand Hg Hfuel.
  destruct (built_graph_building fl distanceTo rand sceneReady cur g
              (doubleDraws_unit rand Hrand) Hg) as (Hb & _).
  assert (Hlen : length (vertices g) = 50) by apply Hb.
  unfold startGlowingSection.
  set (vs := resetVertex <$> vertices g). set (es := resetEdge <$> edges g).
  assert (Hlen' : length vs = 50) by (unfold vs; rewrite length_fmap; exact Hlen).
  assert (Hwf : adjacencyInRange vs)
    by (apply adjacencyInRange_reset, built_adjacencyInRange; exact Hb).
  assert (Hedges : everyConnectionHasEdge vs es)
    by (apply everyConnectionHasEdge_reset, built_everyConnectionHasEdge; exact Hb).
  destruct (pulse_selection_in_range_aux fl rand vs es fuel pulseCur Hfl Hrand Hwf
              ltac:(lia) ltac:(rewrite Hlen'; lia) Hfuel)
    as (st & Hsel & Hnodes & Hmarked & _).
  rewrite Hsel.
  destruct (forEachIndex_spec glowVertex (Glow.nodesToGlow st) ltac:(reflexivity) vs Hnodes)
    as (vs' & Hmv & _).
  destruct (forEachIndex_spec glowEdge (Glow.edgesToGlow st) ltac:(reflexivity) es Hmarked)
    as (es' & Hme & _).
  unfold markVertices, markEdges. rewrite Hmv, Hme.
  exists (mkCloud vs' es'), st. split; [reflexivity|].
  unfold Glow.selectCluster in Hsel.
  assert (Hnd : NoDup (Glow.nodesToGlow st)).
  { unfold Glow.expand in Hsel.
    apply addConnectedVertices_preserves in Hsel as [(Hnd & _) _]; [exact Hnd | simpl; left |].
    split; [apply NoDup_singleton|]. split; [apply NoDup_nil_2|].
    intros e' H. inversion H. }
  split; [exact Hnd|]. split.
  - assert (Hsub : Glow.nodesToGlow st ⊆+ seq 0 50).
    { apply NoDup_submseteq; [exact Hnd|]. intros x Hx. apply elem_of_seq.
      specialize (Hnodes x Hx). lia. }
    apply submseteq_length in Hsub. rewrite length_seq in Hsub. exact Hsub.
  - eapply expansion_marks_edges; eauto.
Qed.

Lemma pulse_on_built_graph_witness :
  exists g' st,
    startGlowingSection (fun q => q) dyadicDraws 4 200 builtGraph = Done (g', st)
    /\ NoDup (Glow.nodesToGlow st)
    /\ length (Glow.nodesToGlow st) <= 50
    /\ length (Glow.nodesToGlow st) <= length (Glow.edgesToGlow st) + 1.
Proof.
  apply (pulse_on_built_graph (fun q => q) distanceToSquared dyadicDraws true 0 builtGraph
           4 200 roundsToNearest_id doubleDraws_dyadicDraws builtGraph_built).
  lia.
Defined.

(** ** Geometry projector: points, positions and errors *)

Section ProjectorMore.
Variable fl : Q -> Q.
Variable fround : Q -> Q.
Variable mattColor : Color.t.
Variable glowColor : Color.t.

Ltac stored3 :=
  unfold store;
  repeat (rewrite list_lookup_insert_ne by lia);
  first [ reflexivity
        | rewrite list_lookup_insert_eq by (rewrite ?length_insert; lia); reflexivity ].

Lemma store_three (buffer : list Q) (base : nat) (v0 v1 v2 : Q) :
  base + 2 < length buffer ->
  let buffer' :=
    store fround (store fround (store fround buffer base v0) (base + 1) v1)
      (base + 2) v2 in
  length buffer' = length buffer
  /\ (forall k, k < base \/ base + 3 <= k -> buffer' !! k = buffer !! k)
  /\ (forall m, m < 3 -> buffer' !! (base + m) = fround <$> ([v0; v1; v2] !! m)).
Proof.
  intros Hlen. split; [|split].
  - unfold store. rewrite !length_insert. reflexivity.
  - intros k Hk. stored3.
  - intros m Hm. destruct m as [|[|[|m]]]; try lia; rewrite ?Nat.add_0_r; simpl; stored3.
Qed.

Lemma forEachVertex_slots (vs : list Vertex.t) :
  forall (i : nat) (buffers : list Q * list Q),
    length (fst buffers) = length (snd buffers) ->
    (i + length vs) * 3 <= length (fst buffers) ->
    let buffers' := forEachVertex fl fround mattColor glowColor vs i buffers in
    length (fst buffers') = length (fst buffers)
    /\ length (snd buffers') = length (snd buffers)
    /\ (forall k, k < i * 3 ->
          fst buffers' !! k = fst buffers !! k /\ snd buffers' !! k = snd buffers !! k)
    /\ (forall j vertex m,
          vs !! j = Some vertex -> m < 3 ->
          fst buffers' !! ((i + j) * 3 + m) = fround <$> (fst (vertexSlots fl mattColor glowColor vertex) !! m)
          /\ snd buffers' !! ((i + j) * 3 + m) = fround <$> (snd (vertexSlots fl mattColor glowColor vertex) !! m)).
Proof.
  induction vs as [|vertex vs IH]; intros i buffers Heq Hfit; cbv zeta; cbn [forEachVertex].
  - split; [reflexivity|]. split; [reflexivity|]. split; [auto|].
    intros j v m Hv. discriminate.
  - cbn [length] in Hfit.
    set (b1 := projectVertex fl fround mattColor glowColor buffers i vertex).
    destruct (store_three (fst buffers) (i * 3)
                (Vector3.x (Vertex.position vertex)) (Vector3.y (Vertex.position vertex))
                (Vector3.z (Vertex.position vertex)) ltac:(lia)) as (Hlp & Hfp & Hsp).
    set (color := lerp fl mattColor glowColor (Vertex.glowIntensity vertex)).
    destruct (store_three (snd buffers) (i * 3) (Color.r color) (Color.g color)
                (Color.b color) ltac:(lia)) as (Hlc & Hfc & Hsc).
    change (length (fst b1) = length (fst buffers)) in Hlp.
    change (length (snd b1) = length (snd buffers)) in Hlc.
    change (forall k, k < i * 3 \/ i * 3 + 3 <= k -> fst b1 !! k = fst buffers !! k) in Hfp.
    change (forall k, k < i * 3 \/ i * 3 + 3 <= k -> snd b1 !! k = snd buffers !! k) in Hfc.
    change (forall m, m < 3 -> fst b1 !! (i * 3 + m) = fround <$> (fst (vertexSlots fl mattColor glowColor vertex) !! m))
      in Hsp.
    change (forall m, m < 3 -> snd b1 !! (i * 3 + m) = fround <$> (snd (vertexSlots fl mattColor glowColor vertex) !! m))
      in Hsc.
    pose proof (IH (S i) b1 ltac:(congruence) ltac:(lia)) as Hih. cbv zeta in Hih.
    destruct Hih as (Hl1 & Hl2 & Hframe & Hrest).
    split; [congruence|]. split; [congruence|]. split.
    + intros k Hk. destruct (Hframe k ltac:(lia)) as [-> ->].
      split; [apply Hfp | apply Hfc]; lia.
    + intros j v m Hv Hm. destruct j as [|j].
      * inversion Hv; subst v. rewrite Nat.add_0_r.
        destruct (Hframe (i * 3 + m) ltac:(lia)) as [-> ->]. auto.
      * replace (i + S j) with (S i + j) by lia. apply Hrest; assumption.
Qed.

Lemma forEachEdge_positions (vs : list Vertex.t) (es : list Edge.t) :
  forall (i : nat) (buffers buffers' : list Q * list Q),
    forEachEdge fl fround mattColor glowColor vs es i buffers = Done buffers' ->
    length (fst buffers') = length (fst buffers)
    /\ (forall k, k < i * 6 -> fst buffers' !! k = fst buffers !! k)
    /\ (forall j edge,
          es !! j = Some edge -> (i + j) * 6 + 5 < length (fst buffers) ->
          exists vertexFrom vertexTo,
            vs !! Edge.from edge = Some vertexFrom /\ vs !! Edge.to edge = Some vertexTo
            /\ forall m, m < 6 ->
                 fst buffers' !! ((i + j) * 6 + m)
                 = fround <$>
                     ((fst (vertexSlots fl mattColor glowColor vertexFrom) ++ fst (vertexSlots fl mattColor glowColor vertexTo)) !! m)).
Proof.
  induction es as [|edge es IH]; intros i buffers buffers' Hrun; simpl in Hrun.
  - inversion Hrun; subst. split; [reflexivity|]. split; [reflexivity|].
    intros j e He. discriminate.
  - unfold projectEdge in Hrun.
    destruct (vs !! Edge.from edge) as [vf|] eqn:Hvf; [|discriminate].
    destruct (vs !! Edge.to edge) as [vt|] eqn:Hvt; [|discriminate].
    apply IH in Hrun as (Hlen2 & Hframe2 & Hrest). simpl in Hlen2, Hframe2, Hrest.
    unfold store in Hlen2. rewrite !length_insert in Hlen2.
    split; [exact Hlen2|]. split.
    + intros k Hk. rewrite Hframe2 by lia. unfold store.
      repeat (rewrite list_lookup_insert_ne by lia). reflexivity.
    + intros j e He Hj. destruct j as [|j]; simpl in He.
      * inversion He; subst e. exists vf, vt. rewrite Hvf, Hvt.
        split; [reflexivity|]. split; [reflexivity|].
        intros m Hm. rewrite Nat.add_0_r in *. rewrite Hframe2 by lia.
        destruct (store_six fround (fst buffers) (i * 6)
                    (Vector3.x (Vertex.position vf)) (Vector3.y (Vertex.position vf))
                    (Vector3.z (Vertex.position vf)) (Vector3.x (Vertex.position vt))
                    (Vector3.y (Vertex.position vt)) (Vector3.z (Vertex.position vt)) Hj)
          as [_ Hsix].
        exact (Hsix m Hm).
      * replace (i + S j) with (S i + j) in * by lia.
        apply (Hrest j e He). unfold store. rewrite !length_insert. exact Hj.
Qed.

(** The projector of the edges returns exactly when no edge has an endpoint
    outside the vertex array. *)
Lemma forEachEdge_outcome (vs : list Vertex.t) (es : list Edge.t) :
  forall (i : nat) (buffers : list Q * list Q),
    match forEachEdge fl fround mattColor glowColor vs es i buffers with
    | Done buffers' =>
        Forall (endpointsInRange vs) es
        /\ length (fst buffers') = length (fst buffers)
        /\ length (snd buffers') = length (snd buffers)
    | TypeError => ~ Forall (endpointsInRange vs) es
    | OutOfFuel => False
    end.
Proof.
  induction es as [|edge es IH]; intros i buffers; simpl.
  - split; [constructor | split; reflexivity].
  - unfold projectEdge.
    destruct (vs !! Edge.from edge) as [vf|] eqn:Hvf.
    2: { intros H. inversion H as [|? ? [Hf _] _]; subst.
         apply lookup_ge_None in Hvf. lia. }
    destruct (vs !! Edge.to edge) as [vt|] eqn:Hvt.
    2: { intros H. inversion H as [|? ? [_ Ht] _]; subst.
         apply lookup_ge_None in Hvt. lia. }
    match goal with |- context [forEachEdge _ _ _ _ _ _ ?k ?b] =>
      specialize (IH k b); destruct (forEachEdge fl fround mattColor glowColor vs es k b) end.
    + destruct IH as (Hall & Hl1 & Hl2). simpl in Hl1, Hl2.
      unfold store in Hl1, Hl2. rewrite !length_insert in Hl1, Hl2.
      split; [|split; assumption].
      constructor; [|exact Hall]. split; eapply lookup_lt_Some; eauto.
    + intros H. inversion H; subst. contradiction.
    + exact IH.
Qed.

End ProjectorMore.

(** X15: the projector of the points returns two buffers of three slots
    per vertex; the slots of vertex i hold its position and the
    interpolation from the matte colour to the glow colour by its glow
    intensity. *)
Theorem point_buffers
    (fl fround : Q -> Q) (mattColor glowColor : Color.t)
    (vs : list Vertex.t) (i : nat) (vertex : Vertex.t) :
  vs !! i = Some vertex ->
  let positions := fst (updatePointGeometry fl fround mattColor glowColor vs) in
  let colors := snd (updatePointGeometry fl fround mattColor glowColor vs) in
  let color := lerp fl mattColor glowColor (Vertex.glowIntensity vertex) in
  length positions = length vs * 3 /\ length colors = length vs * 3
  /\ positions !! (i * 3) = Some (fround (Vector3.x (Vertex.position vertex)))
  /\ positions !! (i * 3 + 1) = Some (fround (Vector3.y (Vertex.position vertex)))
  /\ positions !! (i * 3 + 2) = Some (fround (Vector3.z (Vertex.position vertex)))
  /\ colors !! (i * 3) = Some (fround (Color.r color))
  /\ colors !! (i * 3 + 1) = Some (fround (Color.g color))
  /\ colors !! (i * 3 + 2) = Some (fround (Color.b color)).
Proof.
  intros Hv. cbv zeta. unfold updatePointGeometry.
  pose proof (forEachVertex_slots fl fround mattColor glowColor vs 0
                (replicate (length vs * 3) 0%Q, replicate (length vs * 3) 0%Q)) as H.
  cbv zeta in H. simpl fst in H. simpl snd in H.
  rewrite !length_replicate in H.
  destruct (H eq_refl ltac:(lia)) as (Hl1 & Hl2 & _ & Hslots).
  split; [exact Hl1|]. split; [exact Hl2|].
  destruct (Hslots i vertex 0 Hv ltac:(lia)) as [Hp0 Hc0].
  destruct (Hslots i vertex 1 Hv ltac:(lia)) as [Hp1 Hc1].
  destruct (Hslots i vertex 2 Hv ltac:(lia)) as [Hp2 Hc2].
  simpl in Hp0, Hp1, Hp2, Hc0, Hc1, Hc2. rewrite Nat.add_0_r in Hp0, Hc0.
  repeat split; assumption.
Qed.

Lemma point_buffers_witness :
  exists vertex,
    vertices builtGraph !! 7 = Some vertex
    /\ length (fst (updatePointGeometry (fun q => q) (fun q => q) sampleMatt sampleGlow
                      (vertices builtGraph))) = length (vertices builtGraph) * 3.
Proof.
  eexists. split; [reflexivity|].
  refine (proj1 (point_buffers (fun q => q) (fun q => q) sampleMatt sampleGlow
                   (vertices builtGraph) 7 _ _)).
  reflexivity.
Defined.

(** X16: in the buffers the projector of the edges returns, both have six
    slots per edge and the position slots of edge i hold the position of
    its [from] vertex followed by the position of its [to] vertex. *)
Theorem edge_endpoint_positions
    (fl fround : Q -> Q) (mattColor glowColor : Color.t)
    (vs : list Vertex.t) (es : list Edge.t) (positions colors : list Q)
    (i : nat) (edge : Edge.t) (vertexFrom vertexTo : Vertex.t) :
  updateLineGeometry fl fround mattColor glowColor vs es = Done (positions, colors) ->
  es !! i = Some edge ->
  vs !! Edge.from edge = Some vertexFrom ->
  vs !! Edge.to edge = Some vertexTo ->
  length positions = length es * 6 /\ length colors = length es * 6
  /\ positions !! (i * 6) = Some (fround (Vector3.x (Vertex.position vertexFrom)))
  /\ positions !! (i * 6 + 1) = Some (fround (Vector3.y (Vertex.position vertexFrom)))
  /\ positions !! (i * 6 + 2) = Some (fround (Vector3.z (Vertex.position vertexFrom)))
  /\ positions !! (i * 6 + 3) = Some (fround (Vector3.x (Vertex.position vertexTo)))
  /\ positions !! (i * 6 + 4) = Some (fround (Vector3.y (Vertex.position vertexTo)))
  /\ positions !! (i * 6 + 5) = Some (fround (Vector3.z (Vertex.position vertexTo))).
Proof.
  intros Hrun Hedge Hfrom Hto. unfold updateLineGeometry in Hrun.
  pose proof (forEachEdge_outcome fl fround mattColor glowColor vs es 0
                (replicate (length es * 6) 0%Q, replicate (length es * 6) 0%Q)) as Hout.
  rewrite Hrun in Hout. destruct Hout as (_ & Hl1 & Hl2).
  simpl in Hl1, Hl2. rewrite length_replicate in Hl1, Hl2.
  split; [exact Hl1|]. split; [exact Hl2|].
  apply forEachEdge_positions in Hrun as (_ & _ & Hslots). simpl in Hslots.
  destruct (Hslots i edge Hedge) as (vf & vt & Hvf & Hvt & Hpos).
  { rewrite length_replicate. apply lookup_lt_Some in Hedge. lia. }
  rewrite Hfrom in Hvf. rewrite Hto in Hvt. inversion Hvf; inversion Hvt; subst vf vt.
  pose proof (Hpos 0 ltac:(lia)) as H0. pose proof (Hpos 1 ltac:(lia)) as H1.
  pose proof (Hpos 2 ltac:(lia)) as H2. pose proof (Hpos 3 ltac:(lia)) as H3.
  pose proof (Hpos 4 ltac:(lia)) as H4. pose proof (Hpos 5 ltac:(lia)) as H5.
  rewrite Nat.add_0_r in H0. repeat split; assumption.
Qed.

Lemma edge_endpoint_positions_witness :
  exists positions colors,
    updateLineGeometry (fun q => q) (fun q => q) sampleMatt sampleGlow
      [Vertex.mk (Vector3.mk 1 2 3) origin origin [1] false 0;
       Vertex.mk (Vector3.mk 4 5 6) origin origin [0] false 0]
      [Edge.mk 1 0 false 0] = Done (positions, colors)
    /\ length positions = 6 /\ positions !! 0 = Some 4%Q /\ positions !! 3 = Some 1%Q.
Proof.
  eexists. eexists. split; [reflexivity|].
  pose proof (edge_endpoint_positions (fun q => q) (fun q => q) sampleMatt sampleGlow
    [Vertex.mk (Vector3.mk 1 2 3) origin origin [1] false 0;
     Vertex.mk (Vector3.mk 4 5 6) origin origin [0] false 0]
    [Edge.mk 1 0 false 0] _ _ 0 (Edge.mk 1 0 false 0)
    (Vertex.mk (Vector3.mk 4 5 6) origin origin [0] false 0)
    (Vertex.mk (Vector3.mk 1 2 3) origin origin [1] false 0)
    eq_refl eq_refl eq_refl eq_refl) as H.
  simpl in H. destruct H as (Hl & _ & H0 & _ & _ & H3 & _).
  split; [exact Hl|]. split; [exact H0 | exact H3].
Defined.

(** X17: the projector of the edges returns its two buffers, of six slots
    per edge, exactly when both endpoints of every edge are indices of
    vertices; otherwise it raises a TypeError. *)
Theorem edge_projector_outcome
    (fl fround : Q -> Q) (mattColor glowColor : Color.t)
    (vs : list Vertex.t) (es : list Edge.t) :
  match updateLineGeometry fl fround mattColor glowColor vs es with
  | Done (positions, colors) =>
      Forall (endpointsInRange vs) es
      /\ length positions = length es * 6 /\ length colors = length es * 6
  | TypeError => ~ Forall (endpointsInRange vs) es
  | OutOfFuel => False
  end.
Proof.
  unfold updateLineGeometry.
  pose proof (forEachEdge_outcome fl fround mattColor glowColor vs es 0
                (replicate (length es * 6) 0%Q, replicate (length es * 6) 0%Q)) as Hout.
  destruct (forEachEdge fl fround mattColor glowColor vs es 0 _) as [[ps cs]| |];
    [|exact Hout|exact Hout].
  simpl in Hout. rewrite !length_replicate in Hout. exact Hout.
Qed.

Lemma built_endpointsInRange (g : Cloud) :
  building 50 g -> Forall (endpointsInRange (vertices g)) (edges g).
Proof.
  intros ((_ & Hrec & _) & (_ & Hrange & _) & _).
  apply Forall_forall. intros e He. destruct (Hrec e He) as (_ & Hto & Hfrom).
  split; [exact (Hrange _ _ Hfrom) | exact (Hrange _ _ Hto)].
Qed.

(** X18: on every graph the builder produces, the projector of the edges
    raises nothing and returns buffers of six slots per edge, at most 1200
    slots each. *)
Theorem built_graph_projects
    (fl fround fl' : Q -> Q) (mattColor glowColor : Color.t)
    (distanceTo : Vector3.t -> Vector3.t -> Q) (rand : RandomSource)
    (sceneReady : bool) (cur : nat) (g : Cloud) :
  unitDraws rand ->
  initializePointCloud fl' distanceTo rand sceneReady cur = Some g ->
  exists positions colors,
    updateLineGeometry fl fround mattColor glowColor (vertices g) (edges g)
      = Done (positions, colors)
    /\ length positions = length (edges g) * 6
    /\ length colors = length (edges g) * 6
    /\ length positions <= 1200.
Proof.
  intros Hrand Hg.
  destruct (built_graph_building fl' distanceTo rand sceneReady cur g Hrand Hg)
    as (Hb & _ & Hedges).
  pose proof (built_endpointsInRange g Hb) as Hall.
  unfold updateLineGeometry.
  pose proof (forEachEdge_outcome fl fround mattColor glowColor (vertices g) (edges g) 0
                (replicate (length (edges g) * 6) 0%Q,
                 replicate (length (edges g) * 6) 0%Q)) as Hout.
  destruct (forEachEdge fl fround mattColor glowColor (vertices g) (edges g) 0 _)
    as [[ps cs]| |]; [|contradiction|contradiction].
  simpl in Hout. rewrite !length_replicate in Hout. destruct Hout as (_ & Hl1 & Hl2).
  exists ps, cs. split; [reflexivity|]. split; [exact Hl1|]. split; [exact Hl2|]. lia.
Qed.

Lemma built_graph_projects_witness :
  exists positions colors,
    updateLineGeometry (fun q => q) (fun q => q) sampleMatt sampleGlow
      (vertices builtGraph) (edges builtGraph) = Done (positions, colors)
    /\ length positions = length (edges builtGraph) * 6
    /\ length colors = length (edges builtGraph) * 6
    /\ length positions <= 1200.
Proof.
  exact (built_graph_projects (fun q => q) (fun q => q) (fun q => q) sampleMatt sampleGlow
           distanceToSquared dyadicDraws true 0 builtGraph
           unitDraws_dyadicDraws builtGraph_built).
Defined.

Lemma blend_between (a b t : Q) :
  (0 <= t)%Q -> (t <= 1)%Q -> liesBetween (a + (b - a) * t)%Q a b.
Proof.
  intros H0 H1. unfold liesBetween.
  destruct (Qlt_le_dec a b) as [Hab|Hab]; [left | right]; split; nra.
Qed.

(** X19: without rounding, the colour interpolation by a factor in [0, 1]
    keeps every channel between the channels of the two colours, returns
    the first colour at factor 0 and the second at factor 1. *)
Theorem lerp_stays_in_palette (fl : Q -> Q) (this color : Color.t) (alpha : Q) :
  exactArithmetic fl -> (0 <= alpha)%Q -> (alpha <= 1)%Q ->
  liesBetween (Color.r (lerp fl this color alpha)) (Color.r this) (Color.r color)
  /\ liesBetween (Color.g (lerp fl this color alpha)) (Color.g this) (Color.g color)
  /\ liesBetween (Color.b (lerp fl this color alpha)) (Color.b this) (Color.b color)
  /\ (Color.r (lerp fl this color 0) == Color.r this)%Q
  /\ (Color.g (lerp fl this color 0) == Color.g this)%Q
  /\ (Color.b (lerp fl this color 0) == Color.b this)%Q
  /\ (Color.r (lerp fl this color 1) == Color.r color)%Q
  /\ (Color.g (lerp fl this color 1) == Color.g color)%Q
  /\ (Color.b (lerp fl this color 1) == Color.b color)%Q.
Proof.
  intros Hfl H0 H1. unfold lerp. simpl. rewrite !Hfl.
  repeat split; try (apply blend_between; assumption); ring.
Qed.

Lemma lerp_stays_in_palette_witness :
  liesBetween (Color.r (lerp (fun q => q) sampleMatt sampleGlow (1 # 2)))
    (Color.r sampleMatt) (Color.r sampleGlow)
  /\ (Color.b (lerp (fun q => q) sampleMatt sampleGlow 1) == Color.b sampleGlow)%Q.
Proof.
  destruct (lerp_stays_in_palette (fun q => q) sampleMatt sampleGlow (1 # 2)
              ltac:(intros q; reflexivity) ltac:(lra) ltac:(lra))
    as (Hr & _ & _ & _ & _ & _ & _ & _ & Hb).
  split; [exact Hr | exact Hb].
Defined.

(** ** Lifecycle: the frame loop and the glow timer *)

Section TimerFacts.
Import Lifecycle.
Variable n : nat.

Lemma count_tweens_other (cb : Callback) (t : Z) (a m : nat) :
  (forall i, cb <> positionComplete i) ->
  countPending cb ((fun i => mkTask (t + formingMs) (positionComplete i)) <$> seq a m) = 0.
Proof.
  intros Hcb. apply countPending_none. intros task Hin.
  apply list_elem_of_fmap in Hin as (i & -> & _).
  apply sameCallback_other. simpl. intros E. exact (Hcb i (eq_sym E)).
Qed.

(** How running a due callback changes the number of pending callbacks
    [cb], when [cb] is the frame callback or the glow timer. *)
Lemma count_after_fire (cb : Callback) (w : World) (task : Task) (t d : Z)
    (before after : list Task) :
  cb = animationFrame \/ cb = glowTimeout ->
  pending w = before ++ task :: after ->
  countPending cb
    (pending (run n (callback task) t d
                (mkWorld t (stageRef w) (before ++ after) (stageWrites w))))
  = countPending cb (pending w).
Proof.
  intros Hcb Hpend. rewrite Hpend, countPending_split.
  destruct (callback task) as [|i| |] eqn:Htask; simpl.
  - rewrite setCircleTargets_spec. simpl. rewrite countPending_app, count_tweens_other.
    + rewrite sameCallback_other; [lia|]. destruct Hcb; congruence.
    + intros i. destruct Hcb; congruence.
  - rewrite sameCallback_other by (destruct Hcb; congruence).
    destruct (Z.of_nat i =? Z.of_nat n - 1)%Z; reflexivity.
  - rewrite countPending_app, countPending_cons.
    destruct Hcb as [-> | ->].
    + rewrite (sameCallback_other animationFrame task) by congruence.
      unfold countPending at 2. simpl. lia.
    + rewrite (proj2 (sameCallback_spec glowTimeout task) Htask).
      unfold countPending at 2. simpl. lia.
  - rewrite countPending_app, countPending_cons.
    destruct Hcb as [-> | ->].
    + rewrite (proj2 (sameCallback_spec animationFrame task) Htask).
      unfold countPending at 2. simpl. lia.
    + rewrite (sameCallback_other glowTimeout task) by congruence.
      unfold countPending at 2. simpl. lia.
Qed.

Lemma count_glow_unmount (tasks : list Task) :
  countPending glowTimeout
    (List.filter (fun task => negb (isGlowTimeout task)) tasks) = 0.
Proof.
  apply countPending_none. intros task Hin.
  apply list_elem_of_In, filter_In in Hin as [_ Hno].
  unfold isGlowTimeout in Hno. unfold sameCallback.
  destruct (callback task); try reflexivity. discriminate.
Qed.

Lemma frames_step (w w' : World) :
  step n w w' ->
  countPending animationFrame (pending w')
  = countPending animationFrame (pending w).
Proof.
  intros Hstep. destruct Hstep as [w task t d before after Hpend _ _ _| |]; simpl.
  - apply count_after_fire; auto.
  - reflexivity.
  - apply countPending_unmount. discriminate.
Qed.

Lemma glow_step (w w' : World) :
  step n w w' ->
  countPending glowTimeout (pending w') <= countPending glowTimeout (pending w).
Proof.
  intros Hstep. destruct Hstep as [w task t d before after Hpend _ _ _| |]; simpl.
  - rewrite count_after_fire; auto.
  - reflexivity.
  - rewrite count_glow_unmount. lia.
Qed.

End TimerFacts.

(** X20: from activation on, whatever the host does (unmounting the view
    included), exactly one frame callback is pending: the frame loop never
    stops and never doubles. *)
Theorem frame_loop_never_stops (n : nat) (dFrame dGlow : Z) (w : Lifecycle.World) :
  rtc (Lifecycle.step n) (Lifecycle.mount dFrame dGlow) w ->
  Lifecycle.countPending Lifecycle.animationFrame (Lifecycle.pending w) = 1.
Proof.
  revert w. apply rtc_ind_r; [reflexivity|].
  intros y z _ Hstep Hy. rewrite (frames_step n y z Hstep). exact Hy.
Qed.

Lemma frame_loop_never_stops_witness :
  Lifecycle.countPending Lifecycle.animationFrame (Lifecycle.pending afterStable) = 1.
Proof.
  exact (frame_loop_never_stops numVertices 16 3000 afterStable sampleRun_reachable).
Defined.

(** X21: from activation on, at most one glow timer is pending at any
    time, so clearing the one handle the view keeps cancels every pending
    glow timer. *)
Theorem one_glow_timer (n : nat) (dFrame dGlow : Z) (w : Lifecycle.World) :
  rtc (Lifecycle.step n) (Lifecycle.mount dFrame dGlow) w ->
  Lifecycle.countPending Lifecycle.glowTimeout (Lifecycle.pending w) <= 1.
Proof.
  revert w. apply rtc_ind_r; [unfold Lifecycle.countPending; simpl; lia|].
  intros y z _ Hstep Hy. pose proof (glow_step n y z Hstep). lia.
Qed.

Lemma one_glow_timer_witness :
  Lifecycle.countPending Lifecycle.glowTimeout (Lifecycle.pending afterStable) <= 1.
Proof.
  exact (one_glow_timer numVertices 16 3000 afterStable sampleRun_reachable).
Defined.

(** X22: once the view is unmounted no glow timer is pending, then or at
    any later time: no pulse is triggered after the cleanup. *)
Theorem no_pulse_after_unmount (n : nat) (t : Z) (w w' : Lifecycle.World) :
  rtc (Lifecycle.step n) (unmounted t w) w' ->
  Lifecycle.countPending Lifecycle.glowTimeout (Lifecycle.pending w') = 0.
Proof.
  revert w'. apply rtc_ind_r; [apply count_glow_unmount|].
  intros y z _ Hstep Hy. pose proof (glow_step n y z Hstep). lia.
Qed.

Lemma no_pulse_after_unmount_witness :
  Lifecycle.countPending Lifecycle.glowTimeout
    (Lifecycle.pending (unmounted 1000 (Lifecycle.mount 16 3000))) = 0.
Proof.
  apply (no_pulse_after_unmount numVertices 1000 (Lifecycle.mount 16 3000)).
  apply rtc_refl.
Defined.

(** X23: when the arithmetic rounds to a nearest double, the delay drawn
    for the next pulse is at least 2000 ms and at most 5000 ms. *)
Theorem glow_delay_range (fl : Q -> Q) (r : Q) :
  roundsToNearest fl -> (0 <= r)%Q -> (r < 1)%Q ->
  (2000 <= randomDelay fl r)%Q /\ (randomDelay fl r <= 5000)%Q.
Proof.
  intros Hfl H0 H1. unfold randomDelay.
  assert (Hint : forall m : Z, (0 <= m <= 5000)%Z -> representable (inject_Z m)).
  { intros m Hm. apply representable_int. rewrite Z.abs_eq by lia.
    apply Z.le_lt_trans with 5000%Z; [lia | reflexivity]. }
  assert (Hbig : forall m : Z, (0 <= m <= 5000)%Z -> (inject_Z m <= inject_Z (2 ^ 53))%Q).
  { intros m Hm. rewrite <- Zle_Qle.
    apply Z.le_trans with 5000%Z; [lia | discriminate]. }
  assert (Hprod : (0 <= fl (r * 3000))%Q /\ (fl (r * 3000) <= 3000)%Q).
  { apply (rounded_between fl (inject_Z 0) (inject_Z 3000));
      [exact Hfl | apply Hint; lia | apply Hint; lia | unfold inject_Z; lra
      | apply Hbig; lia | unfold inject_Z; lra | unfold inject_Z; lra]. }
  apply (rounded_between fl (inject_Z 2000) (inject_Z 5000));
    [exact Hfl | apply Hint; lia | apply Hint; lia | unfold inject_Z; lra
    | apply Hbig; lia | unfold inject_Z; lra | unfold inject_Z; lra].
Qed.

Lemma glow_delay_range_witness :
  (2000 <= randomDelay roundDouble nearlyOne)%Q
  /\ (randomDelay roundDouble nearlyOne <= 5000)%Q.
Proof.
  apply glow_delay_range; [exact roundsToNearest_roundDouble | | ]; unfold nearlyOne; lra.
Defined.

(** The upper bound is reached: at the draw [1 - 2^-52] the rounded delay
    is 5000 where the exact one is below it. *)
Example delay_reaches_5000 :
  (randomDelay roundDouble nearlyOne == 5000)%Q
  /\ (randomDelay (fun q => q) nearlyOne < 5000)%Q.
Proof. split; vm_compute; reflexivity. Qed.

(** ** Simulation loop *)

Section MotionFacts.
Variable fl : Q -> Q.
Variable rand : RandomSource.
Hypothesis fl_exact : exactArithmetic fl.
Hypothesis rand_unit : unitDraws rand.

(** One coordinate of a frame: jitter within [s/2], then a pull of [alpha]
    towards the anchor [a]. *)
Lemma pull_keeps_near (x a r s alpha b : Q) :
  (0 <= r)%Q -> (r < 1)%Q -> (0 <= s)%Q -> (0 <= alpha)%Q -> (alpha <= 1)%Q ->
  ((1 - alpha) * (b + s * (1 # 2)) <= b)%Q ->
  (a - b <= x)%Q -> (x <= a + b)%Q ->
  let x1 := (x + (r - (1 # 2)) * s)%Q in
  let x2 := (x1 + (a - x1) * alpha)%Q in
  (a - b <= x2)%Q /\ (x2 <= a + b)%Q.
Proof.
  intros Hr0 Hr1 Hs Ha0 Ha1 Hb Hlo Hhi x1 x2.
  assert (Hj1 : (- (s * (1 # 2)) <= (r - (1 # 2)) * s)%Q) by nra.
  assert (Hj2 : ((r - (1 # 2)) * s <= s * (1 # 2))%Q) by nra.
  assert (Hx2 : (x2 - a == (1 - alpha) * (x1 - a))%Q) by (unfold x2; ring).
  assert (Hd1 : (- (b + s * (1 # 2)) <= x1 - a)%Q) by (unfold x1; lra).
  assert (Hd2 : (x1 - a <= b + s * (1 # 2))%Q) by (unfold x1; lra).
  assert (H1a : (0 <= 1 - alpha)%Q) by lra.
  split; nra.
Qed.

Lemma moveVertex_initializing (cur : nat) (v : Vertex.t) :
  nearby (3 # 4) (1 # 4) (Vertex.position v) (Vertex.initialPosition v) ->
  nearby (3 # 4) (1 # 4)
    (Vertex.position (moveVertex fl rand Lifecycle.initializing cur v))
    (Vertex.initialPosition (moveVertex fl rand Lifecycle.initializing cur v)).
Proof using fl_exact rand_unit.
  intros (Hx1 & Hx2 & Hy1 & Hy2 & Hz1 & Hz2).
  unfold moveVertex, setPosition, lerpVector, jitter, nearby. simpl. rewrite !fl_exact.
  destruct (rand_unit cur) as [Ha0 Ha1]. destruct (rand_unit (cur + 1)) as [Hb0 Hb1].
  destruct (rand_unit (cur + 2)) as [Hc0 Hc1].
  pose proof (pull_keeps_near (Vector3.x (Vertex.position v))
                (Vector3.x (Vertex.initialPosition v)) (rand cur) (3 # 100) (2 # 100) (3 # 4)
                Ha0 Ha1 ltac:(lra) ltac:(lra) ltac:(lra) ltac:(lra) Hx1 Hx2) as Hx.
  pose proof (pull_keeps_near (Vector3.y (Vertex.position v))
                (Vector3.y (Vertex.initialPosition v)) (rand (cur + 1)) (3 # 100) (2 # 100)
                (3 # 4) Hb0 Hb1 ltac:(lra) ltac:(lra) ltac:(lra) ltac:(lra) Hy1 Hy2) as Hy.
  pose proof (pull_keeps_near (Vector3.z (Vertex.position v))
                (Vector3.z (Vertex.initialPosition v)) (rand (cur + 2)) (1 # 100) (2 # 100)
                (1 # 4) Hc0 Hc1 ltac:(lra) ltac:(lra) ltac:(lra) ltac:(lra) Hz1 Hz2) as Hz.
  cbv zeta in Hx, Hy, Hz. tauto.
Qed.

Lemma moveVertex_stable (cur : nat) (v : Vertex.t) :
  nearby (1 # 10) (1 # 25) (Vertex.position v) (Vertex.targetPosition v) ->
  nearby (1 # 10) (1 # 25)
    (Vertex.position (moveVertex fl rand Lifecycle.stable cur v))
    (Vertex.targetPosition (moveVertex fl rand Lifecycle.stable cur v)).
Proof using fl_exact rand_unit.
  intros (Hx1 & Hx2 & Hy1 & Hy2 & Hz1 & Hz2).
  unfold moveVertex, setPosition, lerpVector, jitter, nearby. simpl. rewrite !fl_exact.
  destruct (rand_unit cur) as [Ha0 Ha1]. destruct (rand_unit (cur + 1)) as [Hb0 Hb1].
  destruct (rand_unit (cur + 2)) as [Hc0 Hc1].
  pose proof (pull_keeps_near (Vector3.x (Vertex.position v))
                (Vector3.x (Vertex.targetPosition v)) (rand cur) (5 # 1000) (3 # 100) (1 # 10)
                Ha0 Ha1 ltac:(lra) ltac:(lra) ltac:(lra) ltac:(lra) Hx1 Hx2) as Hx.
  pose proof (pull_keeps_near (Vector3.y (Vertex.position v))
                (Vector3.y (Vertex.targetPosition v)) (rand (cur + 1)) (5 # 1000) (3 # 100)
                (1 # 10) Hb0 Hb1 ltac:(lra) ltac:(lra) ltac:(lra) ltac:(lra) Hy1 Hy2) as Hy.
  pose proof (pull_keeps_near (Vector3.z (Vertex.position v))
                (Vector3.z (Vertex.targetPosition v)) (rand (cur + 2)) (2 # 1000) (3 # 100)
                (1 # 25) Hc0 Hc1 ltac:(lra) ltac:(lra) ltac:(lra) ltac:(lra) Hz1 Hz2) as Hz.
  cbv zeta in Hx, Hy, Hz. tauto.
Qed.

End MotionFacts.

Lemma moveVertices_Forall (fl : Q -> Q) (rand : RandomSource) (stage : Lifecycle.Stage)
    (P : Vertex.t -> Prop) :
  (forall cur v, P v -> P (moveVertex fl rand stage cur v)) ->
  forall vs cur, Forall P vs -> Forall P (fst (moveVertices fl rand stage cur vs)).
Proof.
  intros Hmove vs. induction vs as [|v vs IH]; intros cur Hvs; simpl; [constructor|].
  inversion Hvs; subst.
  specialize (IH (cur + drawsPerVertex stage) ltac:(assumption)).
  destruct (moveVertices fl rand stage (cur + drawsPerVertex stage) vs) as [moved cur'].
  simpl in *. constructor; [apply Hmove; assumption | exact IH].
Qed.

Lemma animateFrames_Forall (fl : Q -> Q) (rand : RandomSource) (stage : Lifecycle.Stage)
    (P : Vertex.t -> Prop) :
  (forall cur v, P v -> P (moveVertex fl rand stage cur v)) ->
  forall k vs cur, Forall P vs -> Forall P (fst (animateFrames fl rand k stage cur vs)).
Proof.
  intros Hmove k. induction k as [|k IH]; intros vs cur Hvs; simpl; [exact Hvs|].
  pose proof (moveVertices_Forall fl rand stage P Hmove vs cur Hvs) as H1.
  destruct (moveVertices fl rand stage cur vs) as [vs' cur']. simpl in H1.
  apply IH. exact H1.
Qed.

(** X24: without rounding, while the stage is initializing, a vertex that
    is within 0.75 (x and y) and 0.25 (z) of its initial position, as every
    vertex is when it is created, is still so after any number of frames. *)
Theorem initializing_stays_near_start
    (fl : Q -> Q) (rand : RandomSource) (k cur : nat) (vs : list Vertex.t) :
  exactArithmetic fl -> unitDraws rand ->
  Forall (fun v => nearby (3 # 4) (1 # 4) (Vertex.position v) (Vertex.initialPosition v)) vs ->
  Forall (fun v => nearby (3 # 4) (1 # 4) (Vertex.position v) (Vertex.initialPosition v))
    (fst (animateFrames fl rand k Lifecycle.initializing cur vs)).
Proof.
  intros Hfl Hrand. apply animateFrames_Forall.
  intros c v. apply moveVertex_initializing; assumption.
Qed.

Lemma initializing_stays_near_start_witness :
  Forall (fun v => nearby (3 # 4) (1 # 4) (Vertex.position v) (Vertex.initialPosition v))
    (fst (animateFrames (fun q => q) sampleDraws 3 Lifecycle.initializing 0
            (squareVertices false false false false))).
Proof.
  apply initializing_stays_near_start.
  - intros q. reflexivity.
  - exact unitDraws_sampleDraws.
  - unfold squareVertices.
    repeat (apply List.Forall_cons; [unfold nearby; simpl; lra|]). apply List.Forall_nil.
Defined.

(** X25: without rounding, while the stage is stable, a vertex that is
    within 0.1 (x and y) and 0.04 (z) of its target position is still so
    after any number of frames. *)
Theorem stable_stays_near_target
    (fl : Q -> Q) (rand : RandomSource) (k cur : nat) (vs : list Vertex.t) :
  exactArithmetic fl -> unitDraws rand ->
  Forall (fun v => nearby (1 # 10) (1 # 25) (Vertex.position v) (Vertex.targetPosition v)) vs ->
  Forall (fun v => nearby (1 # 10) (1 # 25) (Vertex.position v) (Vertex.targetPosition v))
    (fst (animateFrames fl rand k Lifecycle.stable cur vs)).
Proof.
  intros Hfl Hrand. apply animateFrames_Forall.
  intros c v. apply moveVertex_stable; assumption.
Qed.

Lemma stable_stays_near_target_witness :
  Forall (fun v => nearby (1 # 10) (1 # 25) (Vertex.position v) (Vertex.targetPosition v))
    (fst (animateFrames (fun q => q) sampleDraws 3 Lifecycle.stable 0
            (squareVertices false false false false))).
Proof.
  apply stable_stays_near_target.
  - intros q. reflexivity.
  - exact unitDraws_sampleDraws.
  - unfold squareVertices.
    repeat (apply List.Forall_cons; [unfold nearby; simpl; lra|]). apply List.Forall_nil.
Defined.

Lemma moveVertices_frame (fl : Q -> Q) (rand : RandomSource) (stage : Lifecycle.Stage)
    (vs : list Vertex.t) (cur : nat) :
  snd (moveVertices fl rand stage cur vs) = cur + drawsPerVertex stage * length vs
  /\ length (fst (moveVertices fl rand stage cur vs)) = length vs
  /\ (forall i v', fst (moveVertices fl rand stage cur vs) !! i = Some v' ->
        exists v, vs !! i = Some v
          /\ v' = moveVertex fl rand stage (cur + drawsPerVertex stage * i) v).
Proof.
  revert cur. induction vs as [|v vs IH]; intros cur; simpl.
  - split; [lia|]. split; [reflexivity|]. intros i v' H. rewrite lookup_nil in H. discriminate.
  - specialize (IH (cur + drawsPerVertex stage)).
    destruct (moveVertices fl rand stage (cur + drawsPerVertex stage) vs) as [moved cur'].
    simpl in *. destruct IH as (Hc & Hl & Hi).
    split; [lia|]. split; [lia|].
    intros [|i] v' H; simpl in H.
    + exists v. split; [reflexivity|]. inversion H; subst.
      f_equal. lia.
    + destruct (Hi i v' H) as (v0 & Hv0 & ->). exists v0. split; [exact Hv0|].
      f_equal. lia.
Qed.

Lemma moveVertex_keeps (fl : Q -> Q) (rand : RandomSource) (stage : Lifecycle.Stage)
    (cur : nat) (v : Vertex.t) :
  Vertex.targetPosition (moveVertex fl rand stage cur v) = Vertex.targetPosition v
  /\ Vertex.initialPosition (moveVertex fl rand stage cur v) = Vertex.initialPosition v
  /\ Vertex.connections (moveVertex fl rand stage cur v) = Vertex.connections v
  /\ Vertex.glowing (moveVertex fl rand stage cur v) = Vertex.glowing v
  /\ Vertex.glowIntensity (moveVertex fl rand stage cur v) = Vertex.glowIntensity v.
Proof. destruct stage; simpl; tauto. Qed.

(** X26: a frame moves positions only: it keeps the number of vertices and
    every vertex's target position, initial position, connections and glow
    state; it takes three draws per vertex when the stage is initializing
    or stable; and when the stage is forming, or the scene, camera or
    renderer is missing, it takes no draw and changes no vertex. *)
Theorem animate_moves_positions_only
    (fl : Q -> Q) (rand : RandomSource) (refsReady : bool) (stage : Lifecycle.Stage)
    (cur : nat) (vs : list Vertex.t) :
  length (fst (animate fl rand refsReady stage cur vs)) = length vs
  /\ (forall i v', fst (animate fl rand refsReady stage cur vs) !! i = Some v' ->
        exists v, vs !! i = Some v
          /\ Vertex.targetPosition v' = Vertex.targetPosition v
          /\ Vertex.initialPosition v' = Vertex.initialPosition v
          /\ Vertex.connections v' = Vertex.connections v
          /\ Vertex.glowing v' = Vertex.glowing v
          /\ Vertex.glowIntensity v' = Vertex.glowIntensity v)
  /\ snd (animate fl rand refsReady stage cur vs) =
       (if refsReady then cur + drawsPerVertex stage * length vs else cur)
  /\ (refsReady = false \/ stage = Lifecycle.forming ->
      animate fl rand refsReady stage cur vs = (vs, cur)).
Proof.
  unfold animate. destruct refsReady.
  - destruct (moveVertices_frame fl rand stage vs cur) as (Hc & Hl & Hi).
    split; [exact Hl|]. split.
    + intros i v' H. destruct (Hi i v' H) as (v & Hv & ->). exists v.
      split; [exact Hv|]. apply moveVertex_keeps.
    + split; [exact Hc|].
      intros [Hf|Hs]; [discriminate|]. subst stage.
      clear Hc Hl Hi. revert cur. induction vs as [|v vs IH]; intros cur; simpl; [reflexivity|].
      simpl in IH. rewrite IH. simpl. rewrite Nat.add_0_r. reflexivity.
  - simpl. split; [reflexivity|]. split.
    + intros i v' H. exists v'. tauto.
    + split; [reflexivity|]. intros _. reflexivity.
Qed.

(** ** Circle targets *)

Section CircleFacts.
Variable fl : Q -> Q.
Variable cos : Q -> Q.
Variable sin : Q -> Q.
Variable PI : Q.
Variable rand : RandomSource.

Lemma circleTarget_box (n i : nat) (r : Q) :
  roundsCircle fl -> unitRange cos -> unitRange sin -> (0 <= r)%Q -> (r < 1)%Q ->
  let p := circleTarget fl cos sin PI n i r in
  (- 4 <= Vector3.x p)%Q /\ (Vector3.x p <= 4)%Q
  /\ (- 4 <= Vector3.y p)%Q /\ (Vector3.y p <= 4)%Q
  /\ (- (1 # 4) <= Vector3.z p)%Q /\ (Vector3.z p <= 1 # 4)%Q.
Proof.
  intros (Hm & H4 & Hn4 & Hh & Hnh & Hq & Hnq) Hcos Hsin Hr0 Hr1.
  unfold exact in *. cbv zeta. unfold circleTarget, circleRadius. simpl.
  set (angle := fl (fl (fl _ * PI) * 2)).
  destruct (Hcos angle) as [Hc1 Hc2]. destruct (Hsin angle) as [Hs1 Hs2].
  pose proof (Hm (- (1 # 2))%Q (r - (1 # 2))%Q ltac:(lra)) as Hz1.
  pose proof (Hm (r - (1 # 2))%Q (1 # 2)%Q ltac:(lra)) as Hz2.
  pose proof (Hm (- 4)%Q (cos angle * 4)%Q ltac:(lra)) as Hx1.
  pose proof (Hm (cos angle * 4)%Q 4%Q ltac:(lra)) as Hx2.
  pose proof (Hm (- 4)%Q (sin angle * 4)%Q ltac:(lra)) as Hy1.
  pose proof (Hm (sin angle * 4)%Q 4%Q ltac:(lra)) as Hy2.
  pose proof (Hm (- (1 # 4))%Q (fl (r - (1 # 2)) * (1 # 2))%Q ltac:(lra)) as Hw1.
  pose proof (Hm (fl (r - (1 # 2)) * (1 # 2))%Q (1 # 4)%Q ltac:(lra)) as Hw2.
  repeat split; lra.
Qed.

Lemma assignTargetsFrom_spec (n : nat) (vs : list Vertex.t) (i cur : nat) :
  length (assignTargetsFrom fl cos sin PI rand n i cur vs) = length vs
  /\ (forall k v', assignTargetsFrom fl cos sin PI rand n i cur vs !! k = Some v' ->
        exists v, vs !! k = Some v
          /\ v' = setTarget v (circleTarget fl cos sin PI n (i + k) (rand (cur + k)))).
Proof.
  revert i cur. induction vs as [|v vs IH]; intros i cur; simpl.
  - split; [reflexivity|]. intros k v' H. rewrite lookup_nil in H. discriminate.
  - destruct (IH (S i) (S cur)) as [Hl Hk]. split; [lia|].
    intros [|k] v' H; simpl in H.
    + inversion H; subst. exists v. split; [reflexivity|]. rewrite !Nat.add_0_r. reflexivity.
    + destruct (Hk k v' H) as (v0 & Hv0 & ->). exists v0. split; [exact Hv0|].
      replace (i + S k) with (S i + k) by lia. replace (cur + S k) with (S cur + k) by lia.
      reflexivity.
Qed.

End CircleFacts.

(** X27: when the rounding is monotone and leaves 4, 1/2, 1/4 and their
    negatives unchanged, and cosine and sine take values in [-1, 1], the
    first loop of setCircleTargets gives every vertex a target with x and y
    in [-4, 4] and z in [-1/4, 1/4], and changes nothing else: the number
    of vertices, and each vertex's position, initial position, connections
    and glow state are kept. *)
Theorem circle_targets_in_box
    (fl cos sin : Q -> Q) (PI : Q) (rand : RandomSource) (cur : nat)
    (vs : list Vertex.t) (k : nat) (v' : Vertex.t) :
  roundsCircle fl -> unitRange cos -> unitRange sin -> unitDraws rand ->
  assignCircleTargets fl cos sin PI rand cur vs !! k = Some v' ->
  length (assignCircleTargets fl cos sin PI rand cur vs) = length vs
  /\ (- 4 <= Vector3.x (Vertex.targetPosition v'))%Q
  /\ (Vector3.x (Vertex.targetPosition v') <= 4)%Q
  /\ (- 4 <= Vector3.y (Vertex.targetPosition v'))%Q
  /\ (Vector3.y (Vertex.targetPosition v') <= 4)%Q
  /\ (- (1 # 4) <= Vector3.z (Vertex.targetPosition v'))%Q
  /\ (Vector3.z (Vertex.targetPosition v') <= 1 # 4)%Q
  /\ exists v, vs !! k = Some v
       /\ Vertex.position v' = Vertex.position v
       /\ Vertex.initialPosition v' = Vertex.initialPosition v
       /\ Vertex.connections v' = Vertex.connections v
       /\ Vertex.glowing v' = Vertex.glowing v
       /\ Vertex.glowIntensity v' = Vertex.glowIntensity v.
Proof.
  intros Hfl Hcos Hsin Hrand Hk. unfold assignCircleTargets in *.
  destruct (assignTargetsFrom_spec fl cos sin PI rand (length vs) vs 0 cur) as [Hl Hs].
  split; [exact Hl|].
  destruct (Hs k v' Hk) as (v & Hv & ->).
  destruct (Hrand (cur + k)) as [Hr0 Hr1].
  pose proof (circleTarget_box fl cos sin PI (length vs) (0 + k) (rand (cur + k))
                Hfl Hcos Hsin Hr0 Hr1) as Hbox.
  cbv zeta in Hbox. simpl Vertex.targetPosition.
  destruct Hbox as (H1 & H2 & H3 & H4 & H5 & H6).
  repeat (split; [assumption|]).
  exists v. simpl. tauto.
Qed.

Lemma roundsCircle_id : roundsCircle (fun q => q).
Proof.
  unfold roundsCircle, monotone, exact. repeat split; auto; reflexivity.
Qed.

Lemma circle_targets_in_box_witness :
  exists v',
    assignCircleTargets (fun q => q) (fun _ => 1%Q) (fun _ => 0%Q) 3%Q sampleDraws 0
      (squareVertices false false false false) !! 1 = Some v'
    /\ (- 4 <= Vector3.x (Vertex.targetPosition v'))%Q
    /\ (Vector3.z (Vertex.targetPosition v') <= 1 # 4)%Q.
Proof.
  eexists. split; [reflexivity|].
  pose proof (circle_targets_in_box (fun q => q) (fun _ => 1%Q) (fun _ => 0%Q) 3%Q sampleDraws 0
                (squareVertices false false false false) 1 _
                roundsCircle_id
                ltac:(intros a; split; lra) ltac:(intros a; split; lra)
                unitDraws_sampleDraws eq_refl) as H.
  split; [apply H | apply H].
Defined.
